(** * XFeat inference module: decoding, selection and matching

    A shallow embedding of [modules/xfeat.py] (class [XFeat]) and the
    properties its specification states about it.

    Number model.  Tensor entries are floating-point numbers in the source.
    The index logic (arg-max, masks, sorting, thresholds) is embedded over
    the rationals [Q] with exact arithmetic, so that every definition
    evaluates; the two places that go through [softmax] are embedded over
    the reals [R]; the scalar product [top_k * 0.20] that is truncated to
    an integer is embedded bit-exactly over binary64.  Tensors are nested
    lists in row-major order, with their shape kept where a dimension can
    be empty. *)

From Stdlib Require Import List Bool Arith ZArith QArith Lia Lra.
From Stdlib Require String.
From Stdlib Require Import Permutation Sorted.
From Stdlib Require Import Reals.
From Stdlib Require Import Floats.
Import ListNotations.

Set Implicit Arguments.
Open Scope nat_scope.

(** Linear arithmetic over the reals. *)
Ltac lraR := Lra.lra.

(** ** Generic tensor helpers *)

(** [x[mask]] for a one-dimensional tensor and a boolean mask. *)
Fixpoint mask_select {A : Type} (l : list A) (mask : list bool) : list A :=
  match l, mask with
  | x :: l', b :: m' =>
      if b then x :: mask_select l' m' else mask_select l' m'
  | _, _ => []
  end.

(** Element-wise binary operation on two tensors of the same length. *)
Definition map2 {A B C : Type} (f : A -> B -> C) (l : list A) (l' : list B)
  : list C :=
  map (fun p => f (fst p) (snd p)) (combine l l').

(** [tab n f] is the list [f 0; ...; f (n-1)]. *)
Definition tab {A : Type} (n : nat) (f : nat -> A) : list A :=
  map f (seq 0 n).

(** Sequencing of fallible steps: [None] is a raised exception. *)
Definition bind {A B : Type} (o : option A) (k : A -> option B) : option B :=
  match o with
  | Some a => k a
  | None => None
  end.

Notation "x <- e ;; k" := (bind e (fun x => k))
  (at level 61, e at next level, right associativity).

(** Fallible map over a list. *)
Fixpoint mapM {A B : Type} (f : A -> option B) (l : list A) : option (list B) :=
  match l with
  | [] => Some []
  | x :: t => y <- f x ;; ys <- mapM f t ;; Some (y :: ys)
  end.

(** Map with the position of each element. *)
Definition mapi {A B : Type} (f : nat -> A -> B) (l : list A) : list B :=
  map2 f (seq 0 (length l)) l.

(** [a > b] on tensor entries. *)
Definition Qgtb (a b : Q) : bool := negb (Qle_bool a b).

(** A four-dimensional tensor [sB x sC x sH x sW]. *)
Record tensor4 (A : Type) : Type := mk4 {
  sB : nat;
  sC : nat;
  sH : nat;
  sW : nat;
  data4 : list (list (list (list A)))
}.

(** ** Matcher: [match] and [batch_match] *)

Module Matcher.

Local Open Scope Q_scope.

(** A two-dimensional tensor [rows2 x cols2]. *)
Record tensor2 : Type := mk2 {
  rows2 : nat;
  cols2 : nat;
  data2 : list (list Q)
}.

(** A three-dimensional tensor [dim0 x dim1 x dim2]. *)
Record tensor3 : Type := mk3 {
  dim0 : nat;
  dim1 : nat;
  dim2 : nat;
  data3 : list (list (list Q))
}.

Definition rect (r c : nat) (m : list (list Q)) : bool :=
  (length m =? r)%nat && forallb (fun row => (length row =? c)%nat) m.

(** The data agree with the declared shape. *)
Definition wf2 (t : tensor2) : bool := rect (rows2 t) (cols2 t) (data2 t).

Definition wf3 (t : tensor3) : bool :=
  (length (data3 t) =? dim0 t)%nat
  && forallb (rect (dim1 t) (dim2 t)) (data3 t).

(** Inner product of two descriptors. *)
Definition dot (u v : list Q) : Q :=
  fold_right Qplus 0 (map2 Qmult u v).

(** [a @ b.t()] on lists of rows. *)
Definition mm_t (a b : list (list Q)) : list (list Q) :=
  map (fun u => map (dot u) b) a.

(** [a @ b.t()]: raises when the inner dimensions differ. *)
Definition matmul_t (a b : tensor2) : option tensor2 :=
  if wf2 a && wf2 b && (cols2 a =? cols2 b)%nat
  then Some (mk2 (rows2 a) (rows2 b) (mm_t (data2 a) (data2 b)))
  else None.

(** Running maximum of a row: the value and the index of its first
    occurrence, as [torch.max] and [torch.argmax] return them. *)
Fixpoint scan_max (best : Q) (bi : nat) (i : nat) (l : list Q) : Q * nat :=
  match l with
  | [] => (best, bi)
  | x :: t =>
      if Qgtb x best then scan_max x i (S i) t
      else scan_max best bi (S i) t
  end.

Definition row_max (l : list Q) : Q * nat :=
  match l with
  | [] => (0, 0%nat)
  | x :: t => scan_max x 0%nat 1%nat t
  end.

(** [t.max(dim=1)]: raises when the reduced dimension is empty. *)
Definition max_dim1 (t : tensor2) : option (list Q * list nat) :=
  if (cols2 t =? 0)%nat then None
  else let r := map row_max (data2 t) in Some (map fst r, map snd r).

(** [XFeat.match], lines 431-452. *)
Definition match_ (feats1 feats2 : tensor2) (min_cossim : Q)
  : option (list nat * list nat) :=
  cossim <- matmul_t feats1 feats2 ;;
  cossim_t <- matmul_t feats2 feats1 ;;
  m12 <- max_dim1 cossim ;;
  m21 <- max_dim1 cossim_t ;;
  let match12 := snd m12 in
  let match21 := snd m21 in
  let idx0 := seq 0 (length match12) in
  let mutual := map2 (fun j i => (nth j match21 0 =? i)%nat) match12 idx0 in
  if Qgtb min_cossim 0 then
    let cossim_max := fst m12 in
    let good := map (fun c => Qgtb c min_cossim) cossim_max in
    let keep := map2 andb mutual good in
    Some (mask_select idx0 keep, mask_select match12 keep)
  else
    Some (mask_select idx0 mutual, mask_select match12 mutual).

(** [torch.bmm(a, b.permute(0,2,1))]. *)
Definition bmm_t (a b : tensor3) : option tensor3 :=
  if wf3 a && wf3 b && (dim0 a =? dim0 b)%nat && (dim2 a =? dim2 b)%nat
  then Some (mk3 (dim0 a) (dim1 a) (dim1 b)
                 (map2 mm_t (data3 a) (data3 b)))
  else None.

(** Transpose of a matrix with [c] columns. *)
Definition transpose (c : nat) (m : list (list Q)) : list (list Q) :=
  tab c (fun j => map (fun row => nth j row 0) m).

(** [t.permute(0,2,1)]. *)
Definition permute021 (t : tensor3) : tensor3 :=
  mk3 (dim0 t) (dim2 t) (dim1 t) (map (transpose (dim2 t)) (data3 t)).

(** [torch.argmax(t, dim=-1)] and [t.max(dim=2)]: raise when the last
    dimension is empty. *)
Definition max_dim2 (t : tensor3) : option (list (list Q) * list (list nat)) :=
  if (dim2 t =? 0)%nat then None
  else
    let r := map (map row_max) (data3 t) in
    Some (map (map fst) r, map (map snd) r).

(** [t.nonzero()] of a two-dimensional boolean tensor: the positions of
    the true entries in row-major order. *)
Definition nonzero2 (t : list (list bool)) : list (nat * nat) :=
  concat (map2 (fun b row => map (fun i => (b, i))
                                 (mask_select (seq 0 (length row)) row))
               (seq 0 (length t)) t).

(** [x[mask]] for two-dimensional [x] and [mask]: the selected entries in
    row-major order. *)
Definition mask_select2 {A : Type} (x : list (list A)) (mask : list (list bool))
  : list A :=
  concat (map2 (@mask_select A) x mask).

(** [XFeat.batch_match], lines 366-384. *)
Definition batch_match (feats1 feats2 : tensor3) (min_cossim : Q)
  : option (list (nat * nat) * list (nat * nat)) :=
  cossim <- bmm_t feats1 feats2 ;;
  m12 <- max_dim2 cossim ;;
  m21 <- max_dim2 (permute021 cossim) ;;
  let match12 := snd m12 in
  let match21 := snd m21 in
  let indices := repeat (seq 0 (dim1 cossim)) (dim0 cossim) in
  let gathered := map2 (fun r12 r21 => map (fun j => nth j r21 0%nat) r12)
                       match12 match21 in
  let mutual := map2 (map2 Nat.eqb) gathered indices in
  let mutual :=
    if Qgtb min_cossim 0 then
      let cossim_max := fst m12 in
      let good := map (map (fun c => Qgtb c min_cossim)) cossim_max in
      map2 (map2 andb) mutual good
    else mutual in
  let idx0_b := combine (map fst (nonzero2 mutual))
                        (mask_select2 indices mutual) in
  let idx1_b := combine (map fst (nonzero2 mutual))
                        (mask_select2 match12 mutual) in
  Some (idx0_b, idx1_b).

(** [t[None]]: a tensor as a batch of one. *)
Definition unsqueeze0 (t : tensor2) : tensor3 :=
  mk3 1 (rows2 t) (cols2 t) [data2 t].

(** *** Reference notions the matcher is compared with *)

(** [cossim(descA_i, descB_k)]: entry [(i,k)] of the similarity matrix. *)
Definition cossim_at (feats1 feats2 : list (list Q)) (i k : nat) : Q :=
  dot (nth i feats1 []) (nth k feats2 []).

(** [j] is the arg-max of [f] over [0..n-1], first index on ties. *)
Definition argmax_of (n : nat) (f : nat -> Q) (j : nat) : Prop :=
  (j < n)%nat
  /\ (forall k, (k < n)%nat -> f k <= f j)
  /\ (forall k, (k < j)%nat -> f k < f j).

(** Row arg-max, row maximum and column arg-max of the similarity matrix
    of two descriptor lists. *)
Definition am12 (a b : list (list Q)) (i : nat) : nat :=
  snd (row_max (map (dot (nth i a [])) b)).

Definition mx12 (a b : list (list Q)) (i : nat) : Q :=
  fst (row_max (map (dot (nth i a [])) b)).

Definition am21 (a b : list (list Q)) (j : nat) : nat :=
  snd (row_max (map (dot (nth j b [])) a)).

(** Mutual nearest neighbours of [a] in [b] that pass the threshold. *)
Definition keepf (a b : list (list Q)) (t : Q) (i : nat) : bool :=
  (am21 a b (am12 a b i) =? i)%nat
  && (if Qgtb t 0 then Qgtb (mx12 a b i) t else true).

Definition mnn (a b : list (list Q)) (t : Q) : list nat :=
  filter (keepf a b t) (seq 0 (length a)).

(** The shapes on which [match] does not raise. *)
Definition match_ok (feats1 feats2 : tensor2) : bool :=
  wf2 feats1 && wf2 feats2 && (cols2 feats1 =? cols2 feats2)%nat
  && negb (rows2 feats1 =? 0)%nat && negb (rows2 feats2 =? 0)%nat.

(** The shapes on which [batch_match] does not raise. *)
Definition batch_ok (feats1 feats2 : tensor3) : bool :=
  wf3 feats1 && wf3 feats2 && (dim0 feats1 =? dim0 feats2)%nat
  && (dim2 feats1 =? dim2 feats2)%nat
  && negb (dim1 feats2 =? 0)%nat && negb (dim1 feats1 =? 0)%nat.

(** The mutual pairs of every batch element, tagged with its index;
    [g] picks the left or the right index of a pair. *)
Definition batch_pairs (g : list (list Q) -> list (list Q) -> nat -> nat)
           (F1 F2 : list (list (list Q))) (t : Q) : list (nat * nat) :=
  concat (map (fun bi =>
                 map (fun i => (bi, g (nth bi F1 []) (nth bi F2 []) i))
                     (mnn (nth bi F1 []) (nth bi F2 []) t))
              (seq 0 (length F1))).

(** Python default arguments: [match(..., min_cossim = 0.95)] and
    [batch_match(..., min_cossim = -1)]. *)
Definition match_call (feats1 feats2 : tensor2) (min_cossim : option Q) :=
  match_ feats1 feats2
         (match min_cossim with Some t => t | None => 95 # 100 end).

Definition batch_match_call (feats1 feats2 : tensor3) (min_cossim : option Q) :=
  batch_match feats1 feats2
              (match min_cossim with Some t => t | None => - (1) end).

End Matcher.


(** ** HeatmapDecoder: [get_kpts_heatmap] *)

Module Decoder.

Section Generic.

(** The entry type, a default entry for reads, and the library call
    [F.softmax(v * temp)] along one channel vector [v]. *)
Variable A : Type.
Variable d : A.
Variable softmax_scaled : A -> list A -> list A.

Definition get4 (t : tensor4 A) (b c i j : nat) : A :=
  nth j (nth i (nth c (nth b (data4 t) []) []) []) d.

(** The logits of coarse cell [(i, j)] of image [b], along the channel
    axis. *)
Definition cell (t : tensor4 A) (b i j : nat) : list A :=
  tab (sC t) (fun c => get4 t b c i j).

(** [F.softmax(t * temp, 1)]. *)
Definition softmax_dim1 (temp : A) (t : tensor4 A) : tensor4 A :=
  mk4 (sB t) (sC t) (sH t) (sW t)
      (tab (sB t) (fun b =>
       tab (sC t) (fun c =>
       tab (sH t) (fun i =>
       tab (sW t) (fun j =>
         nth c (softmax_scaled temp (cell t b i j)) d))))).

(** [t[:, :n]]. *)
Definition slice_dim1 (n : nat) (t : tensor4 A) : tensor4 A :=
  mk4 (sB t) (Nat.min (sC t) n) (sH t) (sW t) (map (firstn n) (data4 t)).

(** [t.permute(0, 2, 3, 1)], as nested lists [B][H][W][C]. *)
Definition permute0231 (t : tensor4 A) : list (list (list (list A))) :=
  tab (sB t) (fun b =>
  tab (sH t) (fun i =>
  tab (sW t) (fun j =>
  tab (sC t) (fun c => get4 t b c i j)))).

(** Row-major split of a vector into [k] rows of [n] entries. *)
Fixpoint chunks (n k : nat) (l : list A) : list (list A) :=
  match k with
  | 0 => []
  | S k' => firstn n l :: chunks n k' (skipn n l)
  end.

(** [XFeat.get_kpts_heatmap], lines 343-348.  The first [reshape]
    raises unless the sliced tensor has 64 channels or no entry. *)
Definition get_kpts_heatmap (kpts : tensor4 A) (softmax_temp : A)
  : option (tensor4 A) :=
  let scores := slice_dim1 64 (softmax_dim1 softmax_temp kpts) in
  let B := sB scores in
  let H := sH scores in
  let W := sW scores in
  if (sC scores =? 64) || (B * H * W =? 0) then
    (* permute(0, 2, 3, 1).reshape(B, H, W, 8, 8) *)
    let heatmap := map (map (map (chunks 8 8))) (permute0231 scores) in
    (* permute(0, 1, 3, 2, 4): [B][H][8][W][8] *)
    let heatmap :=
      map (map (fun row =>
                  tab 8 (fun p => map (fun blk => nth p blk []) row)))
          heatmap in
    (* reshape(B, 1, H*8, W*8) *)
    Some (mk4 B 1 (H * 8) (W * 8)
              (map (fun x => [concat (map (map (@concat A)) x)]) heatmap))
  else None.

End Generic.

(** Instance over the reals. *)
Definition Rsum (l : list R) : R := fold_right Rplus 0%R l.

Definition softmaxR (v : list R) : list R :=
  map (fun x => (exp x / Rsum (map exp v))%R) v.

Definition softmax_scaled_R (temp : R) (v : list R) : list R :=
  softmaxR (map (fun x => (x * temp)%R) v).

(** [self.get_kpts_heatmap(kpts)], with the default [softmax_temp = 1.0]. *)
Definition get_kpts_heatmap_R (kpts : tensor4 R) : option (tensor4 R) :=
  get_kpts_heatmap 0%R softmax_scaled_R kpts 1%R.

(** Sum of the 8x8 sub-block of coarse cell [(i, j)] of image [b]. *)
Definition block_sum (heat : tensor4 R) (b i j : nat) : R :=
  Rsum (tab 8 (fun p =>
    Rsum (tab 8 (fun q => get4 0%R heat b 0 (8 * i + p) (8 * j + q))))).

End Decoder.

(** ** KeypointSelector: [NMS] *)

Module Selector.

Local Open Scope Q_scope.

Definition Qmaxb (a b : Q) : Q := if Qgtb b a then b else a.

(** The in-bounds indices within [pad] of [r]: the pooling window of an
    odd kernel, whose padding never wins the maximum. *)
Definition window (pad n r : nat) : list nat :=
  filter (fun r' => (r <=? r' + pad)%nat && (r' <=? r + pad)%nat) (seq 0 n).

(** [nn.MaxPool2d(kernel_size, stride=1, padding=pad)] at one pixel of one
    plane. *)
Definition local_max (pad H W : nat) (pl : list (list Q)) (r c : nat) : Q :=
  fold_right Qmaxb (nth c (nth r pl []) 0)
    (flat_map (fun r' => map (fun c' => nth c' (nth r' pl []) 0)
                             (window pad W c))
              (window pad H r)).

(** [XFeat.NMS], lines 350-364.  The source only passes the odd kernel
    5; an even kernel makes the pooled map one row and one column larger
    than [x], and the comparison of the two raises.  [max] of an empty
    batch raises as well. *)
Definition NMS (x : tensor4 Q) (threshold : Q) (kernel_size : nat)
  : option (list (list (nat * nat))) :=
  let H := sH x in
  let W := sW x in
  let pad := (kernel_size / 2)%nat in
  if Nat.even kernel_size then None
  else
    (* pos = (x == local_max) & (x > threshold) *)
    let pos :=
      map (map (fun pl =>
        tab H (fun r => tab W (fun c =>
          Qeq_bool (nth c (nth r pl []) 0) (local_max pad H W pl r c)
          && Qgtb (nth c (nth r pl []) 0) threshold))))
        (data4 x) in
    (* k.nonzero()[..., 1:].flip(-1) *)
    let pos_batched :=
      map (fun k =>
        flat_map (fun plane =>
          flat_map (fun r =>
            map (fun c => (c, r))
                (mask_select (seq 0 W) (nth r plane [])))
            (seq 0 H)) k)
        pos in
    match pos_batched with
    | [] => None
    | _ :: _ =>
        let pad_val := fold_right Nat.max 0%nat (map (@length _) pos_batched) in
        Some (map (fun l => l ++ repeat (0, 0)%nat (pad_val - length l))
                  pos_batched)
    end.

End Selector.

(** ** SparsePipeline and DensePipeline *)

Module Pipeline.

Import Matcher Decoder Selector.
Local Open Scope Q_scope.

(** Interpolation modes of [InterpolateSparse2d]. *)
Inductive mode : Type := nearest | bilinear | bicubic.

(** The instance: [__init__(weights, top_k = 4096)] keeps [top_k]. *)
Record XFeat : Type := mkXFeat { self_top_k : nat }.

Definition XFeat_init (top_k : option nat) : XFeat :=
  mkXFeat (match top_k with Some k => k | None => 4096 end).

(** Ascending [torch.argsort] of one row.  [torch.argsort] and
    [torch.topk] leave the order of equal keys open; this one keeps them
    in index order, one of the orders they may return. *)
Fixpoint insert_by (key : nat -> Q) (i : nat) (l : list nat) : list nat :=
  match l with
  | [] => [i]
  | j :: t =>
      if Qle_bool (key i) (key j) then i :: l else j :: insert_by key i t
  end.

Definition argsort (keys : list Q) : list nat :=
  fold_right (insert_by (fun k => nth k keys 0)) []
             (seq 0 (length keys)).

(** [x[idxs]] for in-range indices. *)
Definition gather {A : Type} (d : A) (x : list A) (idxs : list nat) : list A :=
  map (fun k => nth k x d) idxs.

(** [np.delete(x, idxs, axis=0)]. *)
Definition py_delete {A : Type} (x : list A) (idxs : list nat) : list A :=
  map snd (filter (fun p => negb (existsb (Nat.eqb (fst p)) idxs))
                  (combine (seq 0 (length x)) x)).

(** [XFeat.create_xy], lines 454-458: the [(x, y)] of every cell in
    row-major order. *)
Definition create_xy (h w : nat) : list (nat * nat) :=
  flat_map (fun i => map (fun j => (j, i)) (seq 0 w)) (seq 0 h).

(** [int(f)] on a binary64 number: truncation toward zero; raises on an
    infinity or a NaN. *)
Definition float_to_int (f : float) : option Z :=
  match Prim2SF f with
  | S754_zero _ => Some 0%Z
  | S754_finite s m e =>
      let mag := (if 0 <=? e then Zpos m * 2 ^ e else Zpos m / 2 ^ (- e))%Z in
      Some (if s then (- mag)%Z else mag)
  | _ => None
  end.

(** [int(n * f)] for a Python integer [n] below [2^63] and a float [f]. *)
Definition int_mul_float (n : nat) (f : float) : option nat :=
  option_map Z.to_nat
    (float_to_int (PrimFloat.mul
                     (PrimFloat.of_uint63 (Uint63.of_Z (Z.of_nat n))) f)).

(** The binary64 values of the literals [0.20] and [0.80]. *)
Definition f0_20 : float := 0x1.999999999999ap-3%float.
Definition f0_80 : float := 0x1.999999999999ap-1%float.

(** The number of coarse cells of a reliability map, the [shape[1]] of
    its flattened form. *)
Definition cells (H1 : tensor4 Q) : nat := (sH H1 * sW H1 * sC H1)%nat.

(** The backbone's interface: the descriptor map [M1] has at least the
    batch size and the cells of the reliability map [H1], and at least 64
    channels. *)
Definition maps_agree (M1 H1 : tensor4 Q) : Prop :=
  (sB H1 <= sB M1)%nat /\ (cells H1 <= sH M1 * sW M1)%nat
  /\ (64 <= sC M1)%nat.

(** The descriptors of one image as a two-dimensional tensor. *)
Definition as_tensor2 (l : list (list Q)) : tensor2 :=
  mk2 (length l) (length (hd [] l)) l.

(** The descriptors of a batch as a three-dimensional tensor. *)
Definition as_tensor3 (l : list (list (list Q))) : tensor3 :=
  mk3 (length l) (length (hd [] l)) (length (hd [] (hd [] l))) l.

Section Collaborators.

(** What the pipelines consume as black boxes: the image tensor and its
    [shape], [F.interpolate] to a size or by a scale factor,
    [parse_input], the backbone [self.net], [F.normalize] along the
    channel axis of a map and along a descriptor, [F.softmax], and
    [InterpolateSparse2d(mode)(x, pos, H, W)] at one position of image
    [b], for a one-channel map ([sample1], already squeezed) and for a
    descriptor map ([sampleC]). *)
Variable Image : Type.
Variable shape : Image -> nat * nat * nat * nat.
Variable interpolate_size : Image -> nat -> nat -> Image.
Variable interpolate_scale : Image -> Q -> Image.
Variable parse_input : Image -> Image.
Variable net : Image -> tensor4 Q * tensor4 Q * tensor4 Q.
Variable normalize_dim1 : tensor4 Q -> tensor4 Q.
Variable normalize : list Q -> list Q.
Variable softmax_scaled : Q -> list Q -> list Q.
Variable sample1 : mode -> tensor4 Q -> nat -> nat -> nat -> nat * nat -> Q.
Variable sampleC :
  mode -> tensor4 Q -> nat -> nat -> nat -> nat * nat -> list Q.

(** [XFeat.preprocess_tensor], lines 330-341.  [H/_H] raises
    [ZeroDivisionError] for an image smaller than 32 pixels. *)
Definition preprocess_tensor (x : Image) : option (Image * Q * Q) :=
  let '(_, _, H, W) := shape x in
  let _H := ((H / 32) * 32)%nat in
  let _W := ((W / 32) * 32)%nat in
  if (_H =? 0)%nat || (_W =? 0)%nat then None
  else Some (interpolate_size x _H _W,
             Z.of_nat H # Pos.of_nat _H,
             Z.of_nat W # Pos.of_nat _W).

(** Lines 65-68: the score of every candidate, and [-1] on all-zero
    coordinates. *)
Definition score_candidates (K1h H1 : tensor4 Q) (_H1 _W1 : nat)
           (mkpts : list (list (nat * nat))) : list (list Q) :=
  let scores :=
    mapi (fun b row =>
            map (fun p => sample1 nearest K1h _H1 _W1 b p
                          * sample1 bilinear H1 _H1 _W1 b p) row)
         mkpts in
  map2 (map2 (fun p s =>
                if (fst p =? 0)%nat && (snd p =? 0)%nat then - (1) else s))
       mkpts scores.

(** Lines 70-75: sort by descending score and keep the first [top_k]. *)
Definition select_topk (top_k : nat) (mkpts : list (list (nat * nat)))
           (scores : list (list Q))
  : list (list (nat * nat)) * list (list Q) :=
  let idxs := map (fun row => argsort (map Qopp row)) scores in
  let mkpts_x :=
    map2 (fun row ix => firstn top_k (gather 0%nat (map fst row) ix))
         mkpts idxs in
  let mkpts_y :=
    map2 (fun row ix => firstn top_k (gather 0%nat (map snd row) ix))
         mkpts idxs in
  let mkpts := map2 (@combine nat nat) mkpts_x mkpts_y in
  let scores :=
    map2 (fun row ix => firstn top_k (gather 0 row ix)) scores idxs in
  (mkpts, scores).

(** [XFeat.detectAndCompute], lines 38-99: per image, the keypoints
    [(x, y, score)] and their descriptors. *)
Definition detectAndCompute (self : XFeat) (x : Image)
  : option (list (list (Q * Q * Q) * list (list Q))) :=
  let top_k := self_top_k self in
  pre <- preprocess_tensor x ;;
  let '(x, rh1, rw1) := pre in
  let '(B, _, _H1, _W1) := shape x in
  let '(M1, K1, H1) := net x in
  let M1 := normalize_dim1 M1 in
  K1h <- get_kpts_heatmap 0 softmax_scaled K1 1 ;;
  mkpts <- NMS K1h (5 # 100) 5 ;;
  let scores := score_candidates K1h H1 _H1 _W1 mkpts in
  let '(mkpts, scores) := select_topk top_k mkpts scores in
  let feats :=
    mapi (fun b row => map (sampleC bicubic M1 _H1 _W1 b) row) mkpts in
  let feats := map (map normalize) feats in
  let mkpts :=
    map (map (fun p => (inject_Z (Z.of_nat (fst p)) * rw1,
                        inject_Z (Z.of_nat (snd p)) * rh1))) mkpts in
  let pts := map2 (map2 (fun p s => (fst p, snd p, s))) mkpts scores in
  let valid := map (map (fun s => Qgtb s 0)) scores in
  mapM (fun b =>
          p <- nth_error pts b ;;
          v <- nth_error valid b ;;
          f <- nth_error feats b ;;
          Some (mask_select p v, mask_select f v))
       (seq 0 B).

(** *** The per-image view the pipeline is compared with *)

(** What lines 52-62 hand to the selection: batch size, preprocessed
    size, resize ratios, the normalized descriptor map, the heatmap, the
    reliability map and the padded candidates. *)
Record front : Type := mkFront {
  f_B : nat;
  f_H : nat;
  f_W : nat;
  f_rh : Q;
  f_rw : Q;
  f_M1 : tensor4 Q;
  f_K1h : tensor4 Q;
  f_H1 : tensor4 Q;
  f_mkpts : list (list (nat * nat))
}.

Definition front_of (x : Image) : option front :=
  pre <- preprocess_tensor x ;;
  let '(x, rh1, rw1) := pre in
  let '(B, _, _H1, _W1) := shape x in
  let '(M1, K1, H1) := net x in
  K1h <- get_kpts_heatmap 0 softmax_scaled K1 1 ;;
  mkpts <- NMS K1h (5 # 100) 5 ;;
  Some (mkFront B _H1 _W1 rh1 rw1 (normalize_dim1 M1) K1h H1 mkpts).

(** A candidate of image [b] with the score it is sorted by. *)
Definition scored (fr : front) (b : nat) (p : nat * nat) : (nat * nat) * Q :=
  (p, if (fst p =? 0)%nat && (snd p =? 0)%nat then - (1)
      else sample1 nearest (f_K1h fr) (f_H fr) (f_W fr) b p
           * sample1 bilinear (f_H1 fr) (f_H fr) (f_W fr) b p).

(** The scored candidates in the order of [argsort(-scores)]. *)
Definition ranked (e : list ((nat * nat) * Q)) : list ((nat * nat) * Q) :=
  gather ((0, 0)%nat, 0) e (argsort (map (fun c => - snd c) e)).

(** The first [top_k] of them. *)
Definition selected (top_k : nat) (fr : front) (b : nat)
           (cand : list (nat * nat)) : list ((nat * nat) * Q) :=
  firstn top_k (ranked (map (scored fr b) cand)).

(** The returned keypoint and descriptor of a selected entry. *)
Definition keypoint_of (fr : front) (e : (nat * nat) * Q) : Q * Q * Q :=
  (inject_Z (Z.of_nat (fst (fst e))) * f_rw fr,
   inject_Z (Z.of_nat (snd (fst e))) * f_rh fr,
   snd e).

Definition descriptor_of (fr : front) (b : nat) (e : (nat * nat) * Q)
  : list Q :=
  normalize (sampleC bicubic (f_M1 fr) (f_H fr) (f_W fr) b (fst e)).

(** The result for image [b]: the selected entries with positive
    score. *)
Definition image_result (top_k : nat) (fr : front) (b : nat)
           (cand : list (nat * nat))
  : list (Q * Q * Q) * list (list Q) :=
  let sel := filter (fun e => Qgtb (snd e) 0) (selected top_k fr b cand) in
  (map (keypoint_of fr) sel, map (descriptor_of fr b) sel).

(** A call [self.detectAndCompute(x, **kwargs)]: the signature is
    [(self, x)], so any keyword argument raises [TypeError]. *)
Definition detectAndCompute_call (self : XFeat) (x : Image)
           (kwargs : list (String.string * nat)) :=
  match kwargs with
  | [] => detectAndCompute self x
  | _ :: _ => None
  end.

(** [XFeat.match_xfeat], lines 211-238 (outside ONNX export). *)
Definition match_xfeat (self : XFeat) (img1 img2 : Image)
           (min_cossim : option Q) :=
  let min_cossim :=
    match min_cossim with Some t => t | None => - (1) end in
  let img1 := parse_input img1 in
  let img2 := parse_input img2 in
  r1 <- detectAndCompute self img1 ;;
  out1 <- nth_error r1 0 ;;
  r2 <- detectAndCompute self img2 ;;
  out2 <- nth_error r2 0 ;;
  idxs <- match_call (as_tensor2 (snd out1)) (as_tensor2 (snd out2))
                     (Some min_cossim) ;;
  let '(idxs0, idxs1) := idxs in
  Some (gather (0, 0, 0) (fst out1) idxs0,
        gather (0, 0, 0) (fst out2) idxs1,
        py_delete (fst out1) idxs0,
        py_delete (fst out2) idxs1).

(** [XFeat.extractDense], lines 460-483. *)
Definition extractDense (x : Image) (top_k : nat)
  : option (list (list (Q * Q)) * list (list (list Q))) :=
  pre <- preprocess_tensor x ;;
  let '(x, rh1, rw1) := pre in
  let '(M1, K1, H1) := net x in
  let _H1 := sH M1 in
  let _W1 := sW M1 in
  let xy1 := map (fun p => (fst p * 8, snd p * 8)%nat) (create_xy _H1 _W1) in
  (* B, H*W, C *)
  let M1 := map (@concat _) (permute0231 0 M1) in
  (* B, H*W; [cells] is its [shape[1]] *)
  let cells := (sH H1 * sW H1 * sC H1)%nat in
  let H1 := map (fun m => concat (concat m)) (permute0231 0 H1) in
  let k := Nat.min cells top_k in
  let top_k := map (fun row => firstn k (argsort (map Qopp row))) H1 in
  feats <- mapM (fun bi =>
                   rows <- nth_error M1 (fst bi) ;;
                   mapM (fun i =>
                           row <- nth_error rows i ;;
                           if (64 <=? length row)%nat
                           then Some (firstn 64 row) else None)
                        (snd bi))
                (combine (seq 0 (length top_k)) top_k) ;;
  mkpts <- mapM (mapM (nth_error xy1)) top_k ;;
  let mkpts :=
    map (map (fun p => (inject_Z (Z.of_nat (fst p)) * rw1,
                        inject_Z (Z.of_nat (snd p)) * rh1))) mkpts in
  Some (mkpts, feats).

(** [XFeat.extract_dualscale], lines 506-521. *)
Definition extract_dualscale (self : XFeat) (x : Image) (s1 s2 : Q)
  : option (list (list (Q * Q)) * list (list Q) * list (list (list Q))) :=
  let x1 := interpolate_scale x s1 in
  let x2 := interpolate_scale x s2 in
  k1 <- int_mul_float (self_top_k self) f0_20 ;;
  r1 <- extractDense x1 k1 ;;
  k2 <- int_mul_float (self_top_k self) f0_80 ;;
  r2 <- extractDense x2 k2 ;;
  let '(mkpts_1, feats_1) := r1 in
  let '(mkpts_2, feats_2) := r2 in
  if (length mkpts_1 =? length mkpts_2)%nat then
    let mkpts :=
      map2 (@app _)
           (map (map (fun p => (fst p / s1, snd p / s1))) mkpts_1)
           (map (map (fun p => (fst p / s2, snd p / s2))) mkpts_2) in
    let sc1 := map (fun r => repeat (1 / s1) (length r)) mkpts_1 in
    let sc2 := map (fun r => repeat (1 / s2) (length r)) mkpts_2 in
    let sc := map2 (@app _) sc1 sc2 in
    let feats := map2 (@app _) feats_1 feats_2 in
    Some (mkpts, sc, feats)
  else None.

(** [XFeat.detectAndComputeDense], lines 184-209 (outside ONNX export):
    keypoints, descriptors and scale tags; [s1 = 0.6] and [s2 = 1.3] are
    the defaults of [extract_dualscale]. *)
Definition detectAndComputeDense (self : XFeat) (x : Image)
           (multiscale : bool)
  : option (list (list (Q * Q)) * list (list (list Q)) * list (list Q)) :=
  if multiscale then
    r <- extract_dualscale self x (6 # 10) (13 # 10) ;;
    let '(mkpts, sc, feats) := r in
    Some (mkpts, feats, sc)
  else
    r <- extractDense x (self_top_k self) ;;
    let '(mkpts, feats) := r in
    let sc := map (fun row => repeat 1 (length row)) mkpts in
    Some (mkpts, feats, sc).

(** The coarse stage of [XFeat.match_xfeat_star], lines 305-313: dense
    features of both image sets and their batched matching, called
    without [min_cossim]. *)
Definition match_xfeat_star_coarse (self : XFeat) (im_set1 im_set2 : Image)
  : option (list (nat * nat) * list (nat * nat)) :=
  let im_set1 := parse_input im_set1 in
  let im_set2 := parse_input im_set2 in
  out1 <- detectAndComputeDense self im_set1 true ;;
  out2 <- detectAndComputeDense self im_set2 true ;;
  batch_match_call (as_tensor3 (snd (fst out1))) (as_tensor3 (snd (fst out2)))
                   None.

End Collaborators.

End Pipeline.

(** ** Refiner: [subpix_softmax2d] and [refine_matches] *)

Module Refiner.

Import Decoder.
Local Open Scope R_scope.

(** The output of [detectAndComputeDense]: per image, the keypoints, the
    scale tags and the descriptors. *)
Record dense_features : Type := mkDense {
  keypoints : list (list (R * R));
  scales : list (list R);
  descriptors : list (list (list R))
}.

(** [t[b, i]]: raises when an index is out of range. *)
Definition index2 {A : Type} (t : list (list A)) (bi : nat * nat) : option A :=
  row <- nth_error t (fst bi) ;; nth_error row (snd bi).

(** [a > b] on real entries. *)
Definition Rgtb (a b : R) : bool := if Rlt_dec b a then true else false.

(** [v.max(dim=-1)[0]] of a non-empty row. *)
Definition Rmax_list (l : list R) : R :=
  match l with
  | [] => 0
  | x :: t => fold_right Rmax x t
  end.

(** [XFeat.subpix_softmax2d], lines 386-398, on one [H x W] heatmap given
    by its logits in row-major order. *)
Definition subpix_softmax2d (H W : nat) (heatmap : list R) (temp : R)
  : R * R :=
  let heatmaps := softmaxR (map (fun v => temp * v) heatmap) in
  let x := flat_map (fun i =>
             map (fun j => IZR (Z.of_nat i - Z.of_nat (W / 2))) (seq 0 W))
             (seq 0 H) in
  let y := flat_map (fun i =>
             map (fun j => IZR (Z.of_nat j - Z.of_nat (H / 2))) (seq 0 W))
             (seq 0 H) in
  (Rsum (map2 Rmult x heatmaps), Rsum (map2 Rmult y heatmaps)).

(** The indices of a coarse correspondence address an entry of every
    tensor they are used on. *)
Definition in_range (d0 d1 : dense_features)
           (c : (nat * nat) * (nat * nat)) : Prop :=
  index2 (descriptors d0) (fst c) <> None
  /\ index2 (descriptors d1) (snd c) <> None
  /\ index2 (keypoints d0) (fst c) <> None
  /\ index2 (keypoints d1) (snd c) <> None
  /\ index2 (scales d0) (fst c) <> None.

Section FineMatcher.

(** [self.net.fine_matcher] on one concatenated descriptor pair; its
    interface is 64 offset logits per pair. *)
Variable fine_matcher : list R -> list R.

(** [XFeat.refine_matches], lines 400-429 (outside ONNX export).  The
    concatenations raise on tensors of different length, and [view(-1,8,8)]
    is taken on rows of 64 logits. *)
Definition refine_matches (d0 d1 : dense_features)
           (idx0_b idx1_b : list (nat * nat)) (fine_conf : R)
  : option (list ((R * R) * (R * R)) * list nat) :=
  feats1 <- mapM (index2 (descriptors d0)) idx0_b ;;
  feats2 <- mapM (index2 (descriptors d1)) idx1_b ;;
  mkpts_0 <- mapM (index2 (keypoints d0)) idx0_b ;;
  mkpts_1 <- mapM (index2 (keypoints d1)) idx1_b ;;
  sc0 <- mapM (index2 (scales d0)) idx0_b ;;
  if negb (length feats1 =? length feats2)%nat then None
  else
    let offsets := map fine_matcher (map2 (@app R) feats1 feats2) in
    if negb (forallb (fun o => (length o =? 64)%nat) offsets) then None
    else
      let conf :=
        map (fun o => Rmax_list (softmaxR (map (fun v => v * 3) o)))
            offsets in
      let offsets := map (fun o => subpix_softmax2d 8 8 o 3) offsets in
      let mkpts_0 :=
        map2 (fun p os => (fst p + fst (fst os) * snd os,
                           snd p + snd (fst os) * snd os))
             mkpts_0 (combine offsets sc0) in
      let mask_good := map (fun c => Rgtb c fine_conf) conf in
      let mkpts_0 := mask_select mkpts_0 mask_good in
      let mkpts_1 := mask_select mkpts_1 mask_good in
      let match_mkpts := combine mkpts_0 mkpts_1 in
      let batch_index := mask_select (map fst idx0_b) mask_good in
      Some (match_mkpts, batch_index).

(** *** The per-correspondence view the refiner is compared with *)

(** A coarse correspondence after refinement: its fine-confidence, its
    match [(x0, y0, x1, y1)] and its batch index. *)
Record candidate : Type := mkCandidate {
  c_conf : R;
  c_match : (R * R) * (R * R);
  c_batch : nat
}.

Definition refine_one (d0 d1 : dense_features)
           (c : (nat * nat) * (nat * nat)) : option candidate :=
  feats1 <- index2 (descriptors d0) (fst c) ;;
  feats2 <- index2 (descriptors d1) (snd c) ;;
  mkpts_0 <- index2 (keypoints d0) (fst c) ;;
  mkpts_1 <- index2 (keypoints d1) (snd c) ;;
  sc0 <- index2 (scales d0) (fst c) ;;
  let offsets := fine_matcher (feats1 ++ feats2) in
  if (length offsets =? 64)%nat then
    let off := subpix_softmax2d 8 8 offsets 3 in
    Some (mkCandidate
            (Rmax_list (softmaxR (map (fun v => v * 3) offsets)))
            ((fst mkpts_0 + fst off * sc0, snd mkpts_0 + snd off * sc0),
             mkpts_1)
            (fst (fst c)))
  else None.

(** The refined matches and batch indices of the candidates whose
    confidence exceeds the threshold. *)
Definition emitted (fine_conf : R) (cands : list candidate)
  : list ((R * R) * (R * R)) * list nat :=
  let good := filter (fun c => Rgtb (c_conf c) fine_conf) cands in
  (map c_match good, map c_batch good).

End FineMatcher.

End Refiner.

(** Keyword names of calls. *)
Module Keywords.

Import Stdlib.Strings.String.
Local Open Scope string_scope.

(** The keyword of a call [detectAndCompute(x, top_k = ...)]. *)
Definition kw_top_k : string := "top_k".

End Keywords.

(** ** A small concrete instance of the collaborators

    Images are given by their shape and a list of bright pixels
    [(image, x, y, value)].  The backbone writes each pixel into the logit
    channel of its coarse cell and [softmax] is replaced by the identity,
    so that the decoded heatmap is the image itself.  The nearest sampler
    reads the heatmap at the keypoint, the bilinear sampler returns 1 and
    the descriptor sampler returns the keypoint's coordinate pair; the
    reliability map numbers the coarse cells, so that the dense pipeline
    ranks them from the last to the first. *)

Module Demo.

Import Decoder Pipeline.
Local Open Scope Q_scope.

Record image : Type := mkImage {
  im_shape : nat * nat * nat * nat;
  im_pixels : list (nat * nat * nat * Q)
}.

Definition pixel (x : image) (b px py : nat) : Q :=
  fold_right (fun e acc =>
                let '(b', x', y', v) := e in
                if (b' =? b)%nat && (x' =? px)%nat && (y' =? py)%nat
                then v else acc)
             0 (im_pixels x).

Definition resize (x : image) (h w : nat) : image :=
  let '(B, C, _, _) := im_shape x in mkImage (B, C, h, w) (im_pixels x).

Definition rescale (x : image) (s : Q) : image := x.

Definition backbone (x : image) : tensor4 Q * tensor4 Q * tensor4 Q :=
  let '(B, _, H, W) := im_shape x in
  let h := (H / 8)%nat in
  let w := (W / 8)%nat in
  (mk4 B 64 h w
       (tab B (fun b => tab 64 (fun c => tab h (fun i => tab w (fun j =>
          inject_Z (Z.of_nat (c + i + j))))))),
   mk4 B 64 h w
       (tab B (fun b => tab 64 (fun c => tab h (fun i => tab w (fun j =>
          pixel x b (8 * j + c mod 8) (8 * i + c / 8)))))),
   mk4 B 1 h w
       (tab B (fun b => [tab h (fun i => tab w (fun j =>
          inject_Z (Z.of_nat (i * w + j))))]))).

Definition sample_one (m : mode) (t : tensor4 Q) (H W b : nat)
           (p : nat * nat) : Q :=
  match m with
  | nearest => get4 0 t b 0 (snd p) (fst p)
  | _ => 1
  end.

Definition sample_vec (m : mode) (t : tensor4 Q) (H W b : nat)
           (p : nat * nat) : list Q :=
  [inject_Z (Z.of_nat (fst p)); inject_Z (Z.of_nat (snd p))].

Abbreviation detect :=
  (detectAndCompute im_shape resize backbone (fun t => t) (fun v => v)
                    (fun _ v => v) sample_one sample_vec).

Abbreviation detect_call :=
  (detectAndCompute_call im_shape resize backbone (fun t => t) (fun v => v)
                         (fun _ v => v) sample_one sample_vec).

Abbreviation dense := (extractDense im_shape resize backbone).

Abbreviation dualscale :=
  (extract_dualscale im_shape resize rescale backbone).

(** Two 32x32 images: the first has a peak at the origin pixel and two
    more peaks, the second a single peak. *)
Definition two_images : image :=
  mkImage (2, 1, 32, 32)%nat
          [(0, 0, 0, 3 # 4); (0, 10, 20, 1 # 2); (0, 20, 9, 1 # 4);
           (1, 5, 5, 1 # 3)]%nat.

(** A 96x128 image: 12x16 coarse cells. *)
Definition large_image : image := mkImage (1, 1, 96, 128)%nat [].

End Demo.

(** ** Notions the further properties are stated with *)

Module Reference.

Import Matcher Decoder Pipeline.
Local Open Scope Q_scope.

(** [t[b]]: element [b] of a batch of descriptor sets. *)
Definition select0 (t : tensor3) (b : nat) : tensor2 :=
  mk2 (dim1 t) (dim2 t) (nth b (data3 t) []).

(** Entry [(r, c)] of a plane. *)
Definition at2 (pl : list (list Q)) (r c : nat) : Q := nth c (nth r pl []) 0.

(** Pixel [(c, r)] of the plane is a peak: in bounds, above the threshold,
    and no smaller than any in-bounds pixel at most [pad] rows and columns
    away. *)
Definition is_peak (pad H W : nat) (threshold : Q) (pl : list (list Q))
           (c r : nat) : Prop :=
  (c < W)%nat /\ (r < H)%nat /\ threshold < at2 pl r c
  /\ forall r' c',
       (r' < H)%nat -> (c' < W)%nat ->
       (r <= r' + pad)%nat -> (r' <= r + pad)%nat ->
       (c <= c' + pad)%nat -> (c' <= c + pad)%nat ->
       at2 pl r' c' <= at2 pl r c.

(** [H1.permute(0,2,3,1).flatten(1)[b]]: the reliabilities of image [b]
    in row-major cell order. *)
Definition flat_reliability (H1 : tensor4 Q) (b : nat) : list Q :=
  nth b (map (fun m => concat (concat m)) (permute0231 0 H1)) [].

(** The keypoint [extractDense] returns for cell number [i] of a map
    that is [W] cells wide. *)
Definition cell_keypoint (W : nat) (rh rw : Q) (i : nat) : Q * Q :=
  (inject_Z (Z.of_nat (i mod W * 8)) * rw,
   inject_Z (Z.of_nat (i / W * 8)) * rh).

(** The first 64 channels of the descriptor map at cell number [i] of
    image [b]. *)
Definition cell_descriptor (M1 : tensor4 Q) (b i : nat) : list Q :=
  tab 64 (fun c => get4 0 M1 b c (i / sW M1) (i mod sW M1)).

End Reference.

(** ** Dictionaries of tensors *)

Module Dict.

Import Stdlib.Strings.String.
Local Open Scope string_scope.

(** The keys of the backbone's outputs in the [data] of the front-end
    variants. *)
Definition key_M1 : string := "M1".
Definition key_K1 : string := "K1".
Definition key_H1 : string := "H1".

(** [data[key]]: raises [KeyError] when the key is missing. *)
Fixpoint get {V : Type} (key : string) (data : list (string * V))
  : option V :=
  match data with
  | [] => None
  | (k, v) :: t => if eqb k key then Some v else get key t
  end.

End Dict.

(** ** Front-end variants, tracking and [forward] *)

Module Variants.

Import Matcher Decoder Selector Pipeline.
Local Open Scope Q_scope.

Section Collaborators.

Variable Image : Type.
Variable shape : Image -> nat * nat * nat * nat.
Variable interpolate_size : Image -> nat -> nat -> Image.
Variable parse_input : Image -> Image.
Variable net : Image -> tensor4 Q * tensor4 Q * tensor4 Q.
Variable normalize_dim1 : tensor4 Q -> tensor4 Q.
Variable normalize : list Q -> list Q.
Variable softmax_scaled : Q -> list Q -> list Q.
Variable sample1 : mode -> tensor4 Q -> nat -> nat -> nat -> nat * nat -> Q.
Variable sampleC :
  mode -> tensor4 Q -> nat -> nat -> nat -> nat * nat -> list Q.

(** [XFeat.detectAndComputeFrontEnd], lines 101-151: the selection of
    [detectAndCompute] on backbone outputs handed in by the caller, with
    the defaults [rh1 = 1], [rw1 = 1], [_H1 = 640], [_W1 = 640] and the
    batch size fixed to 1. *)
Definition detectAndComputeFrontEnd (self : XFeat)
           (data : list (String.string * tensor4 Q))
           (rh1 rw1 : option Q) (_H1 _W1 : option nat)
  : option (list (list (Q * Q * Q) * list (list Q))) :=
  let rh1 := match rh1 with Some r => r | None => 1 end in
  let rw1 := match rw1 with Some r => r | None => 1 end in
  let _H1 := match _H1 with Some h => h | None => 640%nat end in
  let _W1 := match _W1 with Some w => w | None => 640%nat end in
  M1 <- Dict.get Dict.key_M1 data ;;
  K1 <- Dict.get Dict.key_K1 data ;;
  H1 <- Dict.get Dict.key_H1 data ;;
  let top_k := self_top_k self in
  let M1 := normalize_dim1 M1 in
  let B := 1%nat in
  K1h <- get_kpts_heatmap 0 softmax_scaled K1 1 ;;
  mkpts <- NMS K1h (5 # 100) 5 ;;
  let scores := score_candidates sample1 K1h H1 _H1 _W1 mkpts in
  let '(mkpts, scores) := select_topk top_k mkpts scores in
  let feats :=
    mapi (fun b row => map (sampleC bicubic M1 _H1 _W1 b) row) mkpts in
  let feats := map (map normalize) feats in
  let mkpts :=
    map (map (fun p => (inject_Z (Z.of_nat (fst p)) * rw1,
                        inject_Z (Z.of_nat (snd p)) * rh1))) mkpts in
  let pts := map2 (map2 (fun p s => (fst p, snd p, s))) mkpts scores in
  let valid := map (map (fun s => Qgtb s 0)) scores in
  mapM (fun b =>
          p <- nth_error pts b ;;
          v <- nth_error valid b ;;
          f <- nth_error feats b ;;
          Some (mask_select p v, mask_select f v))
       (seq 0 B).

(** [XFeat.match_xfeat_fe], lines 240-267 (outside ONNX export): the
    matched keypoints and all keypoints of both sides. *)
Definition match_xfeat_fe (self : XFeat)
           (data1 data2 : list (String.string * tensor4 Q))
           (min_cossim : option Q) :=
  let min_cossim :=
    match min_cossim with Some t => t | None => - (1) end in
  r1 <- detectAndComputeFrontEnd self data1 None None None None ;;
  out1 <- nth_error r1 0 ;;
  r2 <- detectAndComputeFrontEnd self data2 None None None None ;;
  out2 <- nth_error r2 0 ;;
  idxs <- match_call (as_tensor2 (snd out1)) (as_tensor2 (snd out2))
                     (Some min_cossim) ;;
  let '(idxs0, idxs1) := idxs in
  Some (gather (0, 0, 0) (fst out1) idxs0,
        gather (0, 0, 0) (fst out2) idxs1,
        fst out1, fst out2).

(** [x[idxs]] and [np.delete(x, idxs, axis=0)] on indices the caller
    supplies: both raise [IndexError] on an index out of range. *)
Definition index_rows {A : Type} (x : list A) (idxs : list nat)
  : option (list A) :=
  mapM (nth_error x) idxs.

Definition np_delete {A : Type} (x : list A) (idxs : list nat)
  : option (list A) :=
  if forallb (fun i => (i <? length x)%nat) idxs
  then Some (py_delete x idxs) else None.

(** [XFeat.track_keypoints_xfeat_fe], lines 269-292: the features of the
    previous frame, as [detectAndCompute] returns them for one image, are
    matched against those of a new image. *)
Definition track_keypoints_xfeat_fe (self : XFeat)
           (prev_out1 : list (Q * Q * Q) * list (list Q)) (data2 : Image)
           (min_cossim : option Q) :=
  let min_cossim :=
    match min_cossim with Some t => t | None => - (1) end in
  r2 <- detectAndCompute shape interpolate_size net normalize_dim1 normalize
                         softmax_scaled sample1 sampleC self data2 ;;
  out2 <- nth_error r2 0 ;;
  idxs <- match_call (as_tensor2 (snd prev_out1)) (as_tensor2 (snd out2))
                     (Some min_cossim) ;;
  let '(idxs0, idxs1) := idxs in
  m0 <- index_rows (fst prev_out1) idxs0 ;;
  m1 <- index_rows (fst out2) idxs1 ;;
  u0 <- np_delete (fst prev_out1) idxs0 ;;
  u1 <- np_delete (fst out2) idxs1 ;;
  Some (m0, m1, u0, u1).

(** [XFeat.forward], lines 532-533. *)
Definition forward (self : XFeat) (im1 im2 : Image) :=
  match_xfeat shape interpolate_size parse_input net normalize_dim1
              normalize softmax_scaled sample1 sampleC self im1 im2 None.

End Collaborators.

(** [XFeat.extractDenseFrontEnd], lines 485-504: [extractDense] on
    backbone outputs handed in by the caller, with [self.top_k] and the
    defaults [rh1 = 1], [rw1 = 1]. *)
Definition extractDenseFrontEnd (self : XFeat) (M1 K1 H1 : tensor4 Q)
           (rh1 rw1 : option Q)
  : option (list (list (Q * Q)) * list (list (list Q))) :=
  let rh1 := match rh1 with Some r => r | None => 1 end in
  let rw1 := match rw1 with Some r => r | None => 1 end in
  let _H1 := sH M1 in
  let _W1 := sW M1 in
  let xy1 := map (fun p => (fst p * 8, snd p * 8)%nat) (create_xy _H1 _W1) in
  let M1 := map (@concat _) (permute0231 0 M1) in
  let cells := (sH H1 * sW H1 * sC H1)%nat in
  let H1 := map (fun m => concat (concat m)) (permute0231 0 H1) in
  let k := Nat.min cells (self_top_k self) in
  let top_k := map (fun row => firstn k (argsort (map Qopp row))) H1 in
  feats <- mapM (fun bi =>
                   rows <- nth_error M1 (fst bi) ;;
                   mapM (fun i =>
                           row <- nth_error rows i ;;
                           if (64 <=? length row)%nat
                           then Some (firstn 64 row) else None)
                        (snd bi))
                (combine (seq 0 (length top_k)) top_k) ;;
  mkpts <- mapM (mapM (nth_error xy1)) top_k ;;
  let mkpts :=
    map (map (fun p => (inject_Z (Z.of_nat (fst p)) * rw1,
                        inject_Z (Z.of_nat (snd p)) * rh1))) mkpts in
  Some (mkpts, feats).

End Variants.

(** ** The fine stage of [match_xfeat_star] *)

Module Star.
Import Refiner.
Local Open Scope R_scope.




Section FineStage.

Variable fine_matcher : list R -> list R.


End FineStage.

End Star.

(** ** Input arrays: [parse_input] *)

Module Input.

Local Open Scope Q_scope.

(** An array as the matchers receive it: a NumPy array or a torch
    tensor, with its shape and its entries by index. *)
Inductive kind : Type := ndarray | tensor.

Record array : Type := mkArray {
  a_kind : kind;
  a_shape : list nat;
  a_at : list nat -> Q
}.

(** [x[None, ...]]. *)
Definition add_batch_axis (x : array) : array :=
  mkArray (a_kind x) (1%nat :: a_shape x) (fun ix => a_at x (tl ix)).

(** [torch.tensor(x).permute(0,3,1,2) / 255]: raises unless [x] has four
    dimensions. *)
Definition to_channels_first (x : array) : option array :=
  match a_shape x with
  | [b; h; w; c] =>
      Some (mkArray tensor [b; c; h; w]
              (fun ix =>
                 match ix with
                 | [ib; ic; ih; iw] => a_at x [ib; ih; iw; ic] / 255
                 | _ => 0
                 end))
  | _ => None
  end.

(** [XFeat.parse_input], lines 523-530. *)
Definition parse_input (x : array) : option array :=
  let x := if (length (a_shape x) =? 3)%nat then add_batch_axis x else x in
  match a_kind x with
  | ndarray => to_channels_first x
  | tensor => Some x
  end.

End Input.

(** ** Further concrete inputs *)

Module Examples.

Import Decoder Pipeline Variants Demo.
Local Open Scope Q_scope.

(** A 16x16 image, smaller than one 32-pixel block, and a 100x70 image,
    which preprocessing resizes to 96x64. *)
Definition small_image : image := mkImage (1, 1, 16, 16)%nat [].

Definition odd_image : image := mkImage (1, 1, 100, 70)%nat [].

(** A 32x32 image with a single peak. *)
Definition one_peak : image :=
  mkImage (1, 1, 32, 32)%nat [(0, 5, 5, 1 # 3)]%nat.

(** The backbone outputs of an image as the [data] of the front-end
    variants. *)
Definition data_of (x : image) : list (String.string * tensor4 Q) :=
  let '(M1, K1, H1) := backbone x in
  [(Dict.key_M1, M1); (Dict.key_K1, K1); (Dict.key_H1, H1)].

Abbreviation front_end :=
  (detectAndComputeFrontEnd (fun t => t) (fun v => v) (fun _ v => v)
                            sample_one sample_vec).

Abbreviation match_fe :=
  (match_xfeat_fe (fun t => t) (fun v => v) (fun _ v => v)
                  sample_one sample_vec).

Abbreviation track :=
  (track_keypoints_xfeat_fe im_shape resize backbone (fun t => t)
                            (fun v => v) (fun _ v => v) sample_one
                            sample_vec).

Abbreviation match_images :=
  (match_xfeat im_shape resize (fun x => x) backbone (fun t => t)
               (fun v => v) (fun _ v => v) sample_one sample_vec).

Abbreviation dense_features_of :=
  (detectAndComputeDense im_shape resize rescale backbone).

(** Dense features of two images with one keypoint each, and a fine
    matcher that returns 64 zero logits. *)
Definition dense_left : Refiner.dense_features :=
  Refiner.mkDense [[(8, 16)%R]] [[1%R]] [[[1%R; 0%R]]].

Definition dense_right : Refiner.dense_features :=
  Refiner.mkDense [[(24, 8)%R]] [[1%R]] [[[0%R; 1%R]]].

Definition flat_matcher (v : list R) : list R := repeat 0%R 64.

End Examples.

(** * Properties *)

(** ** List facts shared by the components *)

Lemma combine_map_same {A B C : Type} (f : A -> B) (g : A -> C) (l : list A) :
  combine (map f l) (map g l) = map (fun x => (f x, g x)) l.
Proof.
  induction l as [|x l IH]; simpl; [reflexivity | now rewrite IH].
Qed.

Lemma map2_map_same {A B C D : Type} (h : B -> C -> D) (f : A -> B)
      (g : A -> C) (l : list A) :
  map2 h (map f l) (map g l) = map (fun x => h (f x) (g x)) l.
Proof.
  unfold map2. rewrite combine_map_same, map_map. reflexivity.
Qed.

Lemma mask_select_map_same {A B : Type} (f : A -> B) (g : A -> bool)
      (l : list A) :
  mask_select (map f l) (map g l) = map f (filter g l).
Proof.
  induction l as [|x l IH]; simpl; [reflexivity|].
  destruct (g x); simpl; now rewrite IH.
Qed.

Lemma mask_select_filter {A : Type} (g : A -> bool) (l : list A) :
  mask_select l (map g l) = filter g l.
Proof.
  rewrite <- (map_id l) at 1. now rewrite mask_select_map_same, map_id.
Qed.

Lemma map2_map_l {A A' B C : Type} (f : A' -> B -> C) (h : A -> A')
      (l : list A) (l' : list B) :
  map2 f (map h l) l' = map2 (fun x y => f (h x) y) l l'.
Proof.
  unfold map2. revert l'.
  induction l as [|x l IH]; intros [|y l']; simpl; try reflexivity.
  now rewrite IH.
Qed.

Lemma if_map {A B : Type} (c : bool) (f g : A -> B) (l : list A) :
  (if c then map f l else map g l) = map (fun x => if c then f x else g x) l.
Proof. now destruct c. Qed.

Lemma map2_map_r_same {A B C : Type} (f : A -> B -> C) (g : A -> B)
      (l : list A) :
  map2 f l (map g l) = map (fun x => f x (g x)) l.
Proof.
  rewrite <- (map_id l) at 1. apply map2_map_same.
Qed.

Lemma list_as_tab {A : Type} (d : A) (l : list A) :
  l = map (fun i => nth i l d) (seq 0 (length l)).
Proof.
  induction l as [|x l IH]; simpl; [reflexivity|].
  f_equal. rewrite <- seq_shift, map_map. exact IH.
Qed.

Lemma map_as_tab {A B : Type} (d : A) (f : A -> B) (l : list A) :
  map f l = map (fun i => f (nth i l d)) (seq 0 (length l)).
Proof.
  rewrite (list_as_tab d l) at 1. now rewrite map_map.
Qed.

Lemma nth_map_in {A B : Type} (f : A -> B) (l : list A) (d : A) (e : B)
      (k : nat) :
  k < length l -> nth k (map f l) e = f (nth k l d).
Proof.
  intros Hk. rewrite (nth_indep _ e (f d)); [apply map_nth|].
  now rewrite length_map.
Qed.

Lemma filter_incl_length {A : Type} (p q : A -> bool) (l : list A) :
  (forall x, q x = true -> p x = true) ->
  incl (filter q l) (filter p l) /\ length (filter q l) <= length (filter p l).
Proof.
  intros Hpq. split.
  - intros x Hx. apply filter_In in Hx. apply filter_In.
    split; [tauto | apply Hpq; tauto].
  - induction l as [|x l IH]; simpl; [lia|].
    destruct (q x) eqn:Eq.
    + rewrite (Hpq _ Eq). simpl. lia.
    + destruct (p x); simpl; lia.
Qed.

Lemma combine_app_same {A B : Type} (l1 r1 : list A) (l2 r2 : list B) :
  length l1 = length l2 ->
  combine (l1 ++ r1) (l2 ++ r2) = combine l1 l2 ++ combine r1 r2.
Proof.
  revert l2. induction l1 as [|x l1 IH]; intros [|y l2] H; simpl in *;
    try discriminate; [reflexivity|].
  f_equal. apply IH. lia.
Qed.

Lemma combine_concat_map {I A B C : Type} (f : I -> A -> B) (g : I -> A -> C)
      (X : I -> list A) (S : list I) :
  combine (concat (map (fun b => map (f b) (X b)) S))
          (concat (map (fun b => map (g b) (X b)) S))
  = concat (map (fun b => map (fun i => (f b i, g b i)) (X b)) S).
Proof.
  induction S as [|b S IH]; simpl; [reflexivity|].
  rewrite combine_app_same by now rewrite !length_map.
  now rewrite IH, combine_map_same.
Qed.

(** ** Matcher *)

Section MatcherFacts.

Import Matcher.
Local Open Scope Q_scope.

Lemma Qgtb_true (a b : Q) : Qgtb a b = true <-> b < a.
Proof.
  unfold Qgtb. rewrite negb_true_iff, <- not_true_iff_false, Qle_bool_iff.
  split; [apply Qnot_le_lt | apply Qlt_not_le].
Qed.

Lemma Qgtb_false (a b : Q) : Qgtb a b = false <-> a <= b.
Proof.
  unfold Qgtb. rewrite negb_false_iff. apply Qle_bool_iff.
Qed.

Lemma dot_comm (u v : list Q) : dot u v == dot v u.
Proof.
  unfold dot, map2. revert v.
  induction u as [|x u IH]; intros [|y v]; simpl; try reflexivity.
  rewrite IH. ring.
Qed.

Lemma scan_max_spec (f : nat -> Q) (l : list Q) :
  forall best bi i,
    (bi < i)%nat -> f bi = best ->
    (forall k, (k < i)%nat -> f k <= best) ->
    (forall k, (k < bi)%nat -> f k < best) ->
    (forall k, (k < length l)%nat -> f (i + k)%nat = nth k l 0) ->
    argmax_of (i + length l) f (snd (scan_max best bi i l))
    /\ fst (scan_max best bi i l) = f (snd (scan_max best bi i l)).
Proof.
  induction l as [|x t IH]; intros best bi i Hbi Hf Hle Hlt Hl; simpl.
  - rewrite Nat.add_0_r. subst best. repeat split; auto.
  - assert (Hx : f i = x).
    { specialize (Hl 0%nat). simpl in Hl. rewrite Nat.add_0_r in Hl.
      apply Hl. lia. }
    assert (Ht : forall k, (k < length t)%nat -> f (S i + k)%nat = nth k t 0).
    { intros k Hk. specialize (Hl (S k)). simpl in Hl.
      rewrite <- Hl by lia. f_equal. lia. }
    replace (i + S (length t))%nat with (S i + length t)%nat by lia.
    destruct (Qgtb x best) eqn:E.
    + apply Qgtb_true in E. apply IH; auto.
      * intros k Hk. destruct (Nat.eq_dec k i) as [->|Hne].
        -- rewrite Hx. apply Qle_refl.
        -- apply Qlt_le_weak, Qle_lt_trans with best; [apply Hle; lia | exact E].
      * intros k Hk. apply Qle_lt_trans with best; [apply Hle; lia | exact E].
    + apply Qgtb_false in E. apply IH; auto.
      intros k Hk. destruct (Nat.eq_dec k i) as [->|Hne].
      * now rewrite Hx.
      * apply Hle. lia.
Qed.

Lemma row_max_spec (l : list Q) :
  l <> [] ->
  argmax_of (length l) (fun k => nth k l 0) (snd (row_max l))
  /\ fst (row_max l) = nth (snd (row_max l)) l 0.
Proof.
  destruct l as [|x t]; [congruence|]. intros _. unfold row_max.
  change (length (x :: t)) with (1 + length t)%nat.
  apply scan_max_spec; simpl; auto; try lia.
  - intros k Hk. assert (k = 0)%nat as -> by lia. apply Qle_refl.
Qed.

Lemma argmax_of_unique (n : nat) (f : nat -> Q) (j j' : nat) :
  argmax_of n f j -> argmax_of n f j' -> j = j'.
Proof.
  intros (Hj & Hle & Hlt) (Hj' & Hle' & Hlt').
  destruct (Nat.lt_trichotomy j j') as [H|[H|H]]; [|exact H|].
  - exfalso. apply (Qlt_not_le _ _ (Hlt' _ H)). apply Hle. exact Hj'.
  - exfalso. apply (Qlt_not_le _ _ (Hlt _ H)). apply Hle'. exact Hj.
Qed.

Lemma argmax_of_ext (n : nat) (f g : nat -> Q) (j : nat) :
  (forall k, (k < n)%nat -> f k == g k) ->
  argmax_of n f j -> argmax_of n g j.
Proof.
  intros E (Hj & Hle & Hlt). split; [exact Hj|]. split.
  - intros k Hk. rewrite <- (E k Hk), <- (E j Hj). now apply Hle.
  - intros k Hk. rewrite <- (E k), <- (E j Hj) by lia. now apply Hlt.
Qed.

Lemma row_max_snd_ext (l l' : list Q) :
  length l = length l' ->
  (forall k, (k < length l)%nat -> nth k l 0 == nth k l' 0) ->
  snd (row_max l) = snd (row_max l').
Proof.
  intros Hlen E. destruct l as [|x t].
  - destruct l'; [reflexivity | discriminate].
  - assert (Hl' : l' <> []) by (destruct l'; [discriminate | congruence]).
    destruct (row_max_spec (l := x :: t)) as [H1 _]; [congruence|].
    destruct (row_max_spec Hl') as [H2 _].
    rewrite <- Hlen in H2.
    eapply argmax_of_unique; [|exact H2].
    eapply argmax_of_ext; [|exact H1]. exact E.
Qed.

Lemma rect_length (r c : nat) (m : list (list Q)) :
  rect r c m = true -> length m = r.
Proof.
  unfold rect. intros H. apply andb_prop in H. now apply Nat.eqb_eq.
Qed.

Lemma match12_tab (a b : list (list Q)) :
  map snd (map row_max (mm_t a b)) = map (am12 a b) (seq 0 (length a)).
Proof.
  unfold mm_t, am12. rewrite !map_map.
  exact (map_as_tab [] (fun u => snd (row_max (map (dot u) b))) a).
Qed.

Lemma cossim_max_tab (a b : list (list Q)) :
  map fst (map row_max (mm_t a b)) = map (mx12 a b) (seq 0 (length a)).
Proof.
  unfold mm_t, mx12. rewrite !map_map.
  exact (map_as_tab [] (fun u => fst (row_max (map (dot u) b))) a).
Qed.

Lemma match21_nth (a b : list (list Q)) (j : nat) :
  (j < length b)%nat ->
  nth j (map snd (map row_max (mm_t b a))) 0%nat = am21 a b j.
Proof.
  intros Hj. unfold mm_t, am21. rewrite !map_map.
  now rewrite (nth_map_in _ _ []).
Qed.

Lemma match21_perm_nth (a b : list (list Q)) (j : nat) :
  (j < length b)%nat ->
  nth j (map snd (map row_max (transpose (length b) (mm_t a b)))) 0%nat
  = am21 a b j.
Proof.
  intros Hj. unfold transpose, tab, am21. rewrite !map_map.
  rewrite (nth_map_in _ _ 0%nat) by now rewrite length_seq.
  rewrite seq_nth by exact Hj. simpl.
  unfold mm_t. rewrite map_map.
  apply row_max_snd_ext; [now rewrite !length_map|].
  intros k Hk. rewrite length_map in Hk.
  rewrite (nth_map_in (fun u => nth j (map (dot u) b) 0) a [] 0 Hk).
  rewrite (nth_map_in (dot (nth j b [])) a [] 0 Hk).
  rewrite (nth_map_in (dot (nth k a [])) b [] 0 Hj). apply dot_comm.
Qed.

Lemma am12_lt (a b : list (list Q)) (i : nat) :
  b <> [] -> (am12 a b i < length b)%nat.
Proof.
  intros Hb. unfold am12.
  destruct (row_max_spec (l := map (dot (nth i a [])) b)) as [(H & _) _].
  - destruct b; [congruence | discriminate].
  - now rewrite length_map in H.
Qed.

(** The mask [match] and [batch_match] select with, as a function of the
    row index. *)
Lemma keep_mask_tab (a b : list (list Q)) (t : Q) (match21 : list nat) :
  b <> [] ->
  (forall j, (j < length b)%nat -> nth j match21 0%nat = am21 a b j) ->
  (if Qgtb t 0
   then map2 andb
          (map2 (fun j i => (nth j match21 0 =? i)%nat)
                (map (am12 a b) (seq 0 (length a))) (seq 0 (length a)))
          (map (fun c => Qgtb c t) (map (mx12 a b) (seq 0 (length a))))
   else map2 (fun j i => (nth j match21 0 =? i)%nat)
             (map (am12 a b) (seq 0 (length a))) (seq 0 (length a)))
  = map (keepf a b t) (seq 0 (length a)).
Proof.
  intros Hb H21.
  set (s := seq 0 (length a)).
  assert (E : map2 (fun j i => (nth j match21 0 =? i)%nat) (map (am12 a b) s) s
              = map (fun i => (am21 a b (am12 a b i) =? i)%nat) s).
  { rewrite <- (map_id s) at 2. rewrite map2_map_same.
    apply map_ext. intros i. now rewrite H21 by now apply am12_lt. }
  rewrite E. unfold keepf. destruct (Qgtb t 0).
  - now rewrite map_map, map2_map_same.
  - apply map_ext. intros i. now rewrite andb_true_r.
Qed.

Lemma match_nf (feats1 feats2 : tensor2) (t : Q) :
  match_ feats1 feats2 t =
  if match_ok feats1 feats2
  then Some (mnn (data2 feats1) (data2 feats2) t,
             map (am12 (data2 feats1) (data2 feats2))
                 (mnn (data2 feats1) (data2 feats2) t))
  else None.
Proof.
  unfold match_, match_ok, matmul_t, max_dim1, bind.
  rewrite (Nat.eqb_sym (cols2 feats2)), (andb_comm (wf2 feats2)).
  destruct (wf2 feats1) eqn:W1; simpl; [|reflexivity].
  destruct (wf2 feats2) eqn:W2; simpl; [|reflexivity].
  destruct (cols2 feats1 =? cols2 feats2)%nat; simpl; [|reflexivity].
  destruct (rows2 feats2 =? 0)%nat eqn:R2; simpl;
    [now rewrite andb_false_r|].
  destruct (rows2 feats1 =? 0)%nat eqn:R1; simpl; [reflexivity|].
  set (a := data2 feats1). set (b := data2 feats2).
  assert (Hb : b <> []).
  { apply rect_length in W2. apply Nat.eqb_neq in R2. fold b in W2.
    intros E. rewrite E in W2. simpl in W2. congruence. }
  pose proof (@keep_mask_tab a b t _ Hb (match21_nth a b)) as K.
  rewrite match12_tab, cossim_max_tab, length_map, length_seq.
  revert K. destruct (Qgtb t 0); intros ->;
    now rewrite mask_select_filter, mask_select_map_same.
Qed.

Lemma map2_as_tab {A B C : Type} (d : A) (d' : B) (f : A -> B -> C)
      (l : list A) (l' : list B) :
  length l = length l' ->
  map2 f l l' = map (fun i => f (nth i l d) (nth i l' d')) (seq 0 (length l)).
Proof.
  intros H. rewrite (list_as_tab d l) at 1. rewrite (list_as_tab d' l') at 1.
  rewrite <- H. apply map2_map_same.
Qed.

Lemma repeat_as_tab {A : Type} (x : A) (n : nat) :
  repeat x n = map (fun _ => x) (seq 0 n).
Proof.
  induction n as [|n IH]; simpl; [reflexivity|].
  now rewrite IH, <- seq_shift, map_map.
Qed.

Lemma wf3_nth (t : tensor3) (bi : nat) :
  wf3 t = true -> (bi < dim0 t)%nat ->
  length (nth bi (data3 t) []) = dim1 t.
Proof.
  unfold wf3. intros H Hb. apply andb_prop in H. destruct H as [Hl Hf].
  apply Nat.eqb_eq in Hl. rewrite forallb_forall in Hf.
  apply (@rect_length _ (dim2 t)). apply Hf. apply nth_In. lia.
Qed.

Lemma batch_nf (feats1 feats2 : tensor3) (t : Q) :
  batch_match feats1 feats2 t =
  if batch_ok feats1 feats2
  then Some (batch_pairs (fun _ _ i => i) (data3 feats1) (data3 feats2) t,
             batch_pairs am12 (data3 feats1) (data3 feats2) t)
  else None.
Proof.
  unfold batch_match, batch_ok, bmm_t, max_dim2, bind.
  destruct (wf3 feats1) eqn:W1; simpl; [|reflexivity].
  destruct (wf3 feats2) eqn:W2; simpl; [|reflexivity].
  destruct (dim0 feats1 =? dim0 feats2)%nat eqn:D0; simpl; [|reflexivity].
  destruct (dim2 feats1 =? dim2 feats2)%nat eqn:D2; simpl; [|reflexivity].
  destruct (dim1 feats2 =? 0)%nat eqn:R2; simpl; [reflexivity|].
  destruct (dim1 feats1 =? 0)%nat eqn:R1; simpl; [reflexivity|].
  apply Nat.eqb_eq in D0. apply Nat.eqb_neq in R2.
  set (F1 := data3 feats1). set (F2 := data3 feats2).
  set (N := dim1 feats1). set (M := dim1 feats2). set (B := dim0 feats1).
  assert (HB1 : length F1 = B).
  { unfold wf3 in W1. apply andb_prop in W1. now apply Nat.eqb_eq. }
  assert (HB2 : length F2 = B).
  { unfold wf3 in W2. apply andb_prop in W2. unfold B. rewrite D0.
    now apply Nat.eqb_eq. }
  assert (HN : forall bi, In bi (seq 0 B) -> length (nth bi F1 []) = N).
  { intros bi Hbi. apply in_seq in Hbi. apply wf3_nth; [exact W1 | lia]. }
  assert (HM : forall bi, In bi (seq 0 B) -> length (nth bi F2 []) = M).
  { intros bi Hbi. apply in_seq in Hbi. apply wf3_nth; [exact W2 | lia]. }
  assert (Ecs : map2 mm_t F1 F2
                = map (fun bi => mm_t (nth bi F1 []) (nth bi F2 []))
                      (seq 0 B)).
  { rewrite <- HB1. apply map2_as_tab. lia. }
  assert (E12 : map (map snd) (map (map row_max) (map2 mm_t F1 F2))
                = map (fun bi => map (am12 (nth bi F1 []) (nth bi F2 []))
                                     (seq 0 N)) (seq 0 B)).
  { rewrite Ecs, !map_map. apply map_ext_in. intros bi Hbi.
    now rewrite match12_tab, HN. }
  match goal with |- context [nonzero2 ?m] => set (mut := m) end.
  assert (Emut : mut = map (fun bi => map (keepf (nth bi F1 []) (nth bi F2 []) t)
                                          (seq 0 N)) (seq 0 B)).
  { subst mut. rewrite Ecs, repeat_as_tab, !map_map, !map2_map_same.
    rewrite if_map. apply map_ext_in. intros bi Hbi.
    assert (Hb : nth bi F2 [] <> []).
    { intros E. specialize (HM bi Hbi). rewrite E in HM. simpl in HM.
      unfold M in HM. congruence. }
    pose proof (@keep_mask_tab (nth bi F1 []) (nth bi F2 []) t
                  (map snd (map row_max
                     (transpose M (mm_t (nth bi F1 []) (nth bi F2 [])))))
                  Hb) as K.
    rewrite (HN bi Hbi) in K.
    rewrite map2_map_l, match12_tab, cossim_max_tab, (HN bi Hbi).
    apply K. intros j Hj. rewrite <- (HM bi Hbi). now apply match21_perm_nth. }
  clearbody mut. subst mut.
  set (X := fun bi => mnn (nth bi F1 []) (nth bi F2 []) t).
  assert (EX : forall bi, In bi (seq 0 B) ->
               filter (keepf (nth bi F1 []) (nth bi F2 []) t) (seq 0 N) = X bi).
  { intros bi Hbi. unfold X, mnn. now rewrite (HN bi Hbi). }
  assert (Enz : map fst (nonzero2
                  (map (fun bi => map (keepf (nth bi F1 []) (nth bi F2 []) t)
                                      (seq 0 N)) (seq 0 B)))
                = concat (map (fun bi => map (fun _ => bi) (X bi)) (seq 0 B))).
  { unfold nonzero2. rewrite length_map, length_seq, map2_map_r_same.
    rewrite concat_map, map_map. f_equal. apply map_ext_in. intros bi Hbi.
    rewrite length_map, length_seq, mask_select_filter, map_map.
    now rewrite (EX bi Hbi). }
  assert (Eidx : mask_select2 (repeat (seq 0 N) B)
                  (map (fun bi => map (keepf (nth bi F1 []) (nth bi F2 []) t)
                                      (seq 0 N)) (seq 0 B))
                 = concat (map (fun bi => map (fun i => i) (X bi)) (seq 0 B))).
  { unfold mask_select2. rewrite repeat_as_tab, map2_map_same.
    f_equal. apply map_ext_in. intros bi Hbi.
    now rewrite mask_select_filter, map_id, (EX bi Hbi). }
  assert (Em12 : mask_select2
                   (map (map snd) (map (map row_max) (map2 mm_t F1 F2)))
                   (map (fun bi => map (keepf (nth bi F1 []) (nth bi F2 []) t)
                                       (seq 0 N)) (seq 0 B))
                 = concat (map (fun bi => map (am12 (nth bi F1 []) (nth bi F2 []))
                                              (X bi)) (seq 0 B))).
  { unfold mask_select2. rewrite E12, map2_map_same.
    f_equal. apply map_ext_in. intros bi Hbi.
    now rewrite mask_select_map_same, (EX bi Hbi). }
  rewrite Enz, Eidx, Em12.
  rewrite (combine_concat_map (fun bi (_ : nat) => bi) (fun _ i => i)).
  rewrite (combine_concat_map (fun bi (_ : nat) => bi)
             (fun bi => am12 (nth bi F1 []) (nth bi F2 []))).
  unfold batch_pairs. rewrite HB1. reflexivity.
Qed.

Lemma match_ok_shapes (feats1 feats2 : tensor2) :
  match_ok feats1 feats2 = true ->
  length (data2 feats1) = rows2 feats1
  /\ length (data2 feats2) = rows2 feats2
  /\ data2 feats2 <> [].
Proof.
  unfold match_ok, wf2. intros H.
  apply andb_prop in H; destruct H as [H Hn2].
  apply andb_prop in H; destruct H as [H Hn1].
  apply andb_prop in H; destruct H as [H Hc].
  apply andb_prop in H; destruct H as [H1 H2].
  apply rect_length in H1, H2.
  repeat split; auto.
  intros E. rewrite E in H2. simpl in H2.
  rewrite <- H2 in Hn2. discriminate.
Qed.

Lemma batch_ok_shapes (feats1 feats2 : tensor3) (bi : nat) :
  batch_ok feats1 feats2 = true -> (bi < length (data3 feats1))%nat ->
  (bi < dim0 feats1)%nat
  /\ length (nth bi (data3 feats1) []) = dim1 feats1
  /\ length (nth bi (data3 feats2) []) = dim1 feats2
  /\ nth bi (data3 feats2) [] <> [].
Proof.
  unfold batch_ok. intros H Hbi.
  apply andb_prop in H; destruct H as [H Hn1].
  apply andb_prop in H; destruct H as [H Hn2].
  apply andb_prop in H; destruct H as [H Hd2].
  apply andb_prop in H; destruct H as [H Hd0].
  apply andb_prop in H; destruct H as [W1 W2].
  assert (Hl : length (data3 feats1) = dim0 feats1).
  { unfold wf3 in W1. apply andb_prop in W1. now apply Nat.eqb_eq. }
  apply Nat.eqb_eq in Hd0.
  assert (L2 : length (nth bi (data3 feats2) []) = dim1 feats2)
    by (apply wf3_nth; [assumption | lia]).
  repeat split; [lia | apply wf3_nth; [assumption | lia] | exact L2 |].
  intros E. rewrite E in L2. simpl in L2. rewrite <- L2 in Hn2. discriminate.
Qed.

(** Every index kept by the mutual-nearest-neighbour mask is reciprocal. *)
Lemma mnn_reciprocal (a b : list (list Q)) (t : Q) (i : nat) :
  b <> [] -> In i (mnn a b t) ->
  argmax_of (length b) (fun k => cossim_at a b i k) (am12 a b i)
  /\ argmax_of (length a) (fun k => cossim_at a b k (am12 a b i)) i.
Proof.
  intros Hb Hi. unfold mnn in Hi. apply filter_In in Hi.
  destruct Hi as [Hi Hk]. apply in_seq in Hi.
  unfold keepf in Hk. apply andb_prop in Hk. destruct Hk as [Hk _].
  apply Nat.eqb_eq in Hk.
  assert (Hj : (am12 a b i < length b)%nat) by now apply am12_lt.
  split.
  - destruct (row_max_spec (l := map (dot (nth i a [])) b)) as [H _].
    { destruct b; [congruence | discriminate]. }
    rewrite length_map in H. fold (am12 a b i) in H.
    eapply argmax_of_ext; [|exact H].
    intros k Hlt. simpl. rewrite (nth_map_in _ _ []) by exact Hlt.
    reflexivity.
  - destruct (row_max_spec (l := map (dot (nth (am12 a b i) b [])) a))
      as [H _].
    { destruct a; [simpl in Hi; lia | discriminate]. }
    rewrite length_map in H. fold (am21 a b (am12 a b i)) in H.
    rewrite Hk in H.
    eapply argmax_of_ext; [|exact H].
    intros k Hlt. simpl. rewrite (nth_map_in _ _ []) by exact Hlt.
    apply dot_comm.
Qed.

Lemma keepf_antitone (a b : list (list Q)) (t1 t2 : Q) (i : nat) :
  t1 <= t2 -> keepf a b t2 i = true -> keepf a b t1 i = true.
Proof.
  unfold keepf. intros Ht H. apply andb_prop in H. destruct H as [H1 H2].
  rewrite H1. simpl.
  destruct (Qgtb t1 0) eqn:G1; [|reflexivity].
  apply Qgtb_true in G1.
  assert (G2 : Qgtb t2 0 = true).
  { apply Qgtb_true. now apply Qlt_le_trans with t1. }
  rewrite G2 in H2. apply Qgtb_true in H2. apply Qgtb_true.
  now apply Qle_lt_trans with t2.
Qed.

(** The row maximum is the similarity of the row's arg-max pair. *)
Lemma mx12_cossim (a b : list (list Q)) (i : nat) :
  b <> [] -> mx12 a b i = cossim_at a b i (am12 a b i).
Proof.
  intros Hb. unfold mx12, am12, cossim_at.
  destruct (row_max_spec (l := map (dot (nth i a [])) b)) as [(Hj & _) E].
  { destruct b; [congruence | discriminate]. }
  rewrite E. rewrite length_map in Hj.
  now rewrite (nth_map_in _ _ []) by exact Hj.
Qed.

(** The pairs [match] returns, as a list. *)
Lemma mnn_pairs (a b : list (list Q)) (t : Q) :
  combine (mnn a b t) (map (am12 a b) (mnn a b t))
  = map (fun i => (i, am12 a b i)) (mnn a b t).
Proof.
  rewrite <- (map_id (mnn a b t)) at 1. apply combine_map_same.
Qed.

(** With a threshold that is not positive, every mutual pair is kept. *)
Lemma mnn_complete (a b : list (list Q)) (t : Q) (i j : nat) :
  b <> [] -> t <= 0 ->
  argmax_of (length b) (fun k => cossim_at a b i k) j ->
  argmax_of (length a) (fun k => cossim_at a b k j) i ->
  In i (mnn a b t) /\ am12 a b i = j.
Proof.
  intros Hb Ht H1 H2.
  assert (Hi : (i < length a)%nat) by apply H2.
  assert (Hj : (j < length b)%nat) by apply H1.
  assert (E12 : am12 a b i = j).
  { destruct (row_max_spec (l := map (dot (nth i a [])) b)) as [H _].
    { destruct b; [congruence | discriminate]. }
    rewrite length_map in H. fold (am12 a b i) in H.
    eapply argmax_of_unique; [|exact H1].
    eapply argmax_of_ext; [|exact H].
    intros k Hk. cbv beta. rewrite (nth_map_in _ _ []) by exact Hk.
    reflexivity. }
  assert (E21 : am21 a b j = i).
  { destruct (row_max_spec (l := map (dot (nth j b [])) a)) as [H _].
    { destruct a; [simpl in Hi; lia | discriminate]. }
    rewrite length_map in H. fold (am21 a b j) in H.
    eapply argmax_of_unique; [|exact H2].
    eapply argmax_of_ext; [|exact H].
    intros k Hk. cbv beta. rewrite (nth_map_in _ _ []) by exact Hk.
    apply dot_comm. }
  split; [|exact E12].
  unfold mnn. apply filter_In. split; [apply in_seq; lia|].
  unfold keepf. rewrite E12, E21, Nat.eqb_refl.
  assert (Qgtb t 0 = false) as -> by now apply Qgtb_false.
  reflexivity.
Qed.

(** With a positive threshold, the kept pairs are the mutual pairs whose
    similarity exceeds it. *)
Lemma mnn_threshold (a b : list (list Q)) (t : Q) (i : nat) :
  b <> [] -> 0 < t ->
  (In i (mnn a b t)
   <-> In i (mnn a b (- (1))) /\ t < cossim_at a b i (am12 a b i)).
Proof.
  intros Hb Ht. unfold mnn. rewrite !filter_In. unfold keepf.
  assert (Qgtb t 0 = true) as -> by now apply Qgtb_true.
  change (Qgtb (- (1)) 0) with false. rewrite andb_true_r.
  rewrite andb_true_iff, Qgtb_true, (@mx12_cossim a b i Hb). tauto.
Qed.

(** C1.  Reciprocity of every returned correspondence.  For [match]: when
    the call returns the index tensors [(idx0, idx1)] and [(i, j)] is one
    of the returned pairs, [j] is the arg-max of row [i] of the
    cosine-similarity matrix and [i] is the arg-max of its column [j].
    For [batch_match]: a returned pair [((b, i), (b', j))] carries the
    same batch index on both sides, and [i], [j] are reciprocal arg-maxes
    in the similarity matrix of batch element [b]. *)
Theorem match_reciprocity :
  (forall (feats1 feats2 : tensor2) (min_cossim : Q) (idx0 idx1 : list nat)
          (i j : nat),
      match_ feats1 feats2 min_cossim = Some (idx0, idx1) ->
      In (i, j) (combine idx0 idx1) ->
      argmax_of (rows2 feats2)
                (fun k => cossim_at (data2 feats1) (data2 feats2) i k) j
      /\ argmax_of (rows2 feats1)
                   (fun k => cossim_at (data2 feats1) (data2 feats2) k j) i)
  /\
  (forall (feats1 feats2 : tensor3) (min_cossim : Q)
          (idx0_b idx1_b : list (nat * nat)) (b i b' j : nat),
      batch_match feats1 feats2 min_cossim = Some (idx0_b, idx1_b) ->
      In ((b, i), (b', j)) (combine idx0_b idx1_b) ->
      b' = b /\ (b < dim0 feats1)%nat
      /\ argmax_of (dim1 feats2)
                   (fun k => cossim_at (nth b (data3 feats1) [])
                                       (nth b (data3 feats2) []) i k) j
      /\ argmax_of (dim1 feats1)
                   (fun k => cossim_at (nth b (data3 feats1) [])
                                       (nth b (data3 feats2) []) k j) i).
Proof.
  split.
  - intros feats1 feats2 t idx0 idx1 i j Hm Hin.
    rewrite match_nf in Hm. destruct (match_ok feats1 feats2) eqn:Hok;
      [|discriminate].
    destruct (match_ok_shapes _ _ Hok) as (L1 & L2 & Hb).
    injection Hm as <- <-.
    rewrite <- (map_id (mnn _ _ _)) in Hin at 1.
    rewrite combine_map_same in Hin. apply in_map_iff in Hin.
    destruct Hin as (i' & E & Hi'). injection E as -> <-.
    rewrite <- L1, <- L2. now apply mnn_reciprocal with t.
  - intros feats1 feats2 t idx0_b idx1_b b i b' j Hm Hin.
    rewrite batch_nf in Hm. destruct (batch_ok feats1 feats2) eqn:Hok;
      [|discriminate].
    injection Hm as <- <-. unfold batch_pairs in Hin.
    rewrite (combine_concat_map (fun bi i => (bi, i))
               (fun bi i => (bi, am12 (nth bi (data3 feats1) [])
                                      (nth bi (data3 feats2) []) i))) in Hin.
    apply in_concat in Hin. destruct Hin as (l & Hl & Hin).
    apply in_map_iff in Hl. destruct Hl as (bi & <- & Hbi).
    apply in_map_iff in Hin. destruct Hin as (i' & E & Hi').
    injection E as E1 E2 E3 E4. subst bi. subst b'. subst i'. subst j.
    apply in_seq in Hbi.
    destruct (@batch_ok_shapes feats1 feats2 b Hok) as (Hb & L1 & L2 & Hne);
      [lia|].
    split; [reflexivity|]. split; [exact Hb|].
    rewrite <- L1, <- L2. now apply mnn_reciprocal with t.
Qed.

(** C1, on a concrete pair of descriptor sets. *)
Lemma match_reciprocity_witness :
  let feats1 := mk2 3 2 [[1; 0]; [0; 1]; [3 # 5; 4 # 5]] in
  let feats2 := mk2 2 2 [[0; 1]; [1; 0]] in
  match_ feats1 feats2 (- (1)) = Some ([0; 1], [1; 0])%nat
  /\ argmax_of 2 (fun k => cossim_at (data2 feats1) (data2 feats2) 1 k) 0
  /\ argmax_of 3 (fun k => cossim_at (data2 feats1) (data2 feats2) k 0) 1.
Proof.
  split; [reflexivity|].
  apply (proj1 match_reciprocity
           (mk2 3 2 [[1; 0]; [0; 1]; [3 # 5; 4 # 5]])
           (mk2 2 2 [[0; 1]; [1; 0]]) (- (1)) [0; 1]%nat [1; 0]%nat).
  - reflexivity.
  - simpl. right. left. reflexivity.
Defined.

(** C2.  Threshold monotonicity: when [match] returns with threshold
    [t1] and [t1 <= t2], it also returns with [t2], every pair returned
    with [t2] is among those returned with [t1], and there are no more of
    them. *)
Theorem match_threshold_monotone
        (feats1 feats2 : tensor2) (t1 t2 : Q) (idx0 idx1 : list nat) :
  t1 <= t2 ->
  match_ feats1 feats2 t1 = Some (idx0, idx1) ->
  exists idx0' idx1',
    match_ feats1 feats2 t2 = Some (idx0', idx1')
    /\ incl (combine idx0' idx1') (combine idx0 idx1)
    /\ (length (combine idx0' idx1') <= length (combine idx0 idx1))%nat.
Proof.
  intros Ht Hm. rewrite match_nf in *.
  destruct (match_ok feats1 feats2); [|discriminate].
  injection Hm as <- <-. eexists. eexists. split; [reflexivity|].
  set (a := data2 feats1). set (b := data2 feats2).
  assert (E : forall t, combine (mnn a b t) (map (am12 a b) (mnn a b t))
                        = map (fun i => (i, am12 a b i)) (mnn a b t)).
  { intros t. rewrite <- (map_id (mnn a b t)) at 1.
    apply combine_map_same. }
  rewrite !E, !length_map. unfold mnn.
  destruct (@filter_incl_length _ (keepf a b t1) (keepf a b t2)
              (seq 0 (length a))) as [Hincl Hlen].
  { intros i. now apply keepf_antitone. }
  split; [now apply incl_map | exact Hlen].
Qed.

(** C2, on a concrete pair of descriptor sets. *)
Lemma match_threshold_monotone_witness :
  let feats1 := mk2 3 2 [[1; 0]; [0; 1]; [3 # 5; 4 # 5]] in
  let feats2 := mk2 2 2 [[0; 1]; [4 # 5; 3 # 5]] in
  match_ feats1 feats2 (1 # 2) = Some ([1; 2], [0; 1])%nat
  /\ exists idx0' idx1',
      match_ feats1 feats2 (97 # 100) = Some (idx0', idx1')
      /\ incl (combine idx0' idx1') (combine [1; 2]%nat [0; 1]%nat)
      /\ (length (combine idx0' idx1')
           <= length (combine [1; 2]%nat [0; 1]%nat))%nat.
Proof.
  split; [reflexivity|].
  apply (@match_threshold_monotone
           (mk2 3 2 [[1; 0]; [0; 1]; [3 # 5; 4 # 5]])
           (mk2 2 2 [[0; 1]; [4 # 5; 3 # 5]]) (1 # 2) (97 # 100)).
  - vm_compute. discriminate.
  - reflexivity.
Defined.

(** C3.  On a batch of one, [batch_match] returns exactly the index pairs
    of [match] on the single pair of descriptor sets, each tagged with
    batch index 0, and raises exactly when [match] does. *)
Theorem batch_match_singleton (feats1 feats2 : tensor2) (min_cossim : Q) :
  batch_match (unsqueeze0 feats1) (unsqueeze0 feats2) min_cossim
  = match match_ feats1 feats2 min_cossim with
    | Some (idx0, idx1) => Some (map (pair 0%nat) idx0, map (pair 0%nat) idx1)
    | None => None
    end.
Proof.
  rewrite batch_nf, match_nf.
  assert (Hok : batch_ok (unsqueeze0 feats1) (unsqueeze0 feats2)
                = match_ok feats1 feats2).
  { unfold batch_ok, match_ok, wf3, wf2, unsqueeze0. simpl.
    rewrite !andb_true_r.
    destruct (rect _ _ (data2 feats1)), (rect _ _ (data2 feats2)),
      (cols2 feats1 =? cols2 feats2)%nat, (rows2 feats1 =? 0)%nat,
      (rows2 feats2 =? 0)%nat; reflexivity. }
  rewrite Hok. destruct (match_ok feats1 feats2); [|reflexivity].
  unfold batch_pairs, unsqueeze0. simpl. rewrite !app_nil_r, map_map.
  reflexivity.
Qed.

End MatcherFacts.

(** ** HeatmapDecoder *)

Section DecoderFacts.

Import Decoder.

Lemma nth_tab {A : Type} (n : nat) (f : nat -> A) (d : A) (k : nat) :
  k < n -> nth k (tab n f) d = f k.
Proof.
  intros H. unfold tab. rewrite (nth_map_in _ _ 0) by now rewrite length_seq.
  now rewrite seq_nth.
Qed.

Lemma length_tab {A : Type} (n : nat) (f : nat -> A) : length (tab n f) = n.
Proof. unfold tab. now rewrite length_map, length_seq. Qed.

Lemma nth_concat_uniform {A : Type} (n : nat) (d : A) (L : list (list A)) :
  Forall (fun l => length l = n) L ->
  forall i p, i < length L -> p < n ->
  nth (i * n + p) (concat L) d = nth p (nth i L []) d.
Proof.
  induction 1 as [|l L Hl HL IH]; intros i p Hi Hp; simpl in *; [lia|].
  destruct i as [|i]; simpl.
  - apply app_nth1. lia.
  - rewrite app_nth2 by lia.
    replace (n + i * n + p - length l) with (i * n + p) by lia.
    apply IH; lia.
Qed.

Lemma nth_chunks {A : Type} (n : nat) (d : A) :
  forall k (l : list A) p q, p < k -> q < n ->
  nth q (nth p (chunks n k l) []) d = nth (p * n + q) l d.
Proof.
  induction k as [|k IH]; intros l p q Hp Hq; [lia|]. simpl.
  destruct p as [|p].
  - rewrite nth_firstn. simpl.
    destruct (q <? n) eqn:E; [reflexivity|]. apply Nat.ltb_ge in E. lia.
  - rewrite IH by lia. rewrite nth_skipn. f_equal. simpl. lia.
Qed.

Lemma length_chunks {A : Type} (n : nat) :
  forall k (l : list A), length (chunks n k l) = k.
Proof.
  induction k as [|k IH]; intros l; simpl; [reflexivity | now rewrite IH].
Qed.

Lemma length_nth_chunks {A : Type} (n : nat) :
  forall k (l : list A) p, p < k -> length l = k * n ->
  length (nth p (chunks n k l) []) = n.
Proof.
  induction k as [|k IH]; intros l p Hp Hl; [lia|]. simpl in *.
  destruct p as [|p].
  - rewrite length_firstn. lia.
  - apply IH; [lia|]. rewrite length_skipn. lia.
Qed.

Section Layout.

Variable A : Type.
Variable d : A.
Variable softmax_scaled : A -> list A -> list A.

Lemma get4_softmax_dim1 (temp : A) (t : tensor4 A) (b c i j : nat) :
  b < sB t -> c < sC t -> i < sH t -> j < sW t ->
  get4 d (softmax_dim1 d softmax_scaled temp t) b c i j
  = nth c (softmax_scaled temp (cell d t b i j)) d.
Proof.
  intros Hb Hc Hi Hj. unfold get4, softmax_dim1. simpl.
  now rewrite !nth_tab.
Qed.

Lemma get4_scores (temp : A) (t : tensor4 A) (b c i j : nat) :
  sC t = 64 -> b < sB t -> c < 64 -> i < sH t -> j < sW t ->
  get4 d (slice_dim1 64 (softmax_dim1 d softmax_scaled temp t)) b c i j
  = nth c (softmax_scaled temp (cell d t b i j)) d.
Proof.
  intros HC Hb Hc Hi Hj.
  rewrite <- get4_softmax_dim1 by (auto; lia).
  unfold get4, slice_dim1, softmax_dim1. cbn [data4 sB sC sH sW].
  rewrite (nth_map_in _ _ []) by now rewrite length_tab.
  rewrite nth_firstn.
  destruct (c <? 64) eqn:E; [reflexivity|]. apply Nat.ltb_ge in E. lia.
Qed.

(** The decoded heatmap holds, at pixel [(8i+p, 8j+q)], the softmax
    weight of channel [8p+q] of coarse cell [(i, j)]. *)
Lemma heatmap_layout (kpts : tensor4 A) (temp : A) :
  sC kpts = 64 ->
  exists heat,
    get_kpts_heatmap d softmax_scaled kpts temp = Some heat
    /\ sB heat = sB kpts /\ sC heat = 1
    /\ sH heat = sH kpts * 8 /\ sW heat = sW kpts * 8
    /\ forall b i j p q,
        b < sB kpts -> i < sH kpts -> j < sW kpts -> p < 8 -> q < 8 ->
        get4 d heat b 0 (8 * i + p) (8 * j + q)
        = nth (8 * p + q) (softmax_scaled temp (cell d kpts b i j)) d.
Proof.
  intros HC. unfold get_kpts_heatmap.
  set (scores := slice_dim1 64 (softmax_dim1 d softmax_scaled temp kpts)).
  assert (HCs : sC scores = 64) by (simpl; rewrite HC; reflexivity).
  rewrite HCs. change ((64 =? 64) || _) with true. cbv iota.
  eexists. split; [reflexivity|]. cbn [data4 sB sC sH sW].
  repeat (split; [reflexivity|]).
  intros b i j p q Hb Hi Hj Hp Hq.
  unfold get4 at 1. cbn [data4 sB sC sH sW]. unfold permute0231.
  rewrite !map_map.
  rewrite (nth_map_in _ _ []) by (rewrite length_tab; exact Hb).
  rewrite nth_tab by exact Hb. cbn [nth].
  rewrite !map_map.
  replace (8 * i + p) with (i * 8 + p) by lia.
  rewrite (@nth_concat_uniform _ 8 []).
  2:{ apply Forall_forall. intros l Hl. apply in_map_iff in Hl.
      destruct Hl as (i' & <- & _). now rewrite length_map, length_tab. }
  2:{ now rewrite length_map, length_tab. }
  2:{ exact Hp. }
  rewrite (nth_map_in _ _ []) by (rewrite length_tab; exact Hi).
  rewrite nth_tab by exact Hi.
  rewrite (nth_map_in _ _ []) by (rewrite length_tab; exact Hp).
  rewrite nth_tab by exact Hp.
  rewrite !map_map.
  replace (8 * j + q) with (j * 8 + q) by lia.
  rewrite (@nth_concat_uniform _ 8 d).
  2:{ apply Forall_forall. intros l Hl. apply in_map_iff in Hl.
      destruct Hl as (v & <- & Hv).
      unfold tab in Hv at 1. apply in_map_iff in Hv.
      destruct Hv as (j' & <- & _).
      apply length_nth_chunks; [exact Hp|].
      rewrite length_tab. exact HCs. }
  2:{ now rewrite length_map, length_tab. }
  2:{ exact Hq. }
  rewrite (nth_map_in _ _ []) by (rewrite length_tab; exact Hj).
  rewrite nth_tab by exact Hj.
  rewrite nth_chunks by assumption.
  rewrite HCs. rewrite nth_tab by lia.
  replace (p * 8 + q) with (8 * p + q) by lia.
  apply get4_scores; auto; lia.
Qed.

End Layout.

Local Open Scope R_scope.

Lemma tab_ext {A : Type} (n : nat) (f g : nat -> A) :
  (forall k, (k < n)%nat -> f k = g k) -> tab n f = tab n g.
Proof.
  intros H. unfold tab. apply map_ext_in. intros k Hk.
  apply in_seq in Hk. apply H. lia.
Qed.

Lemma Rsum_map_div (f : R -> R) (c : R) (l : list R) :
  Rsum (map (fun x => f x / c) l) = Rsum (map f l) / c.
Proof.
  induction l as [|x l IH]; [unfold Rsum, Rdiv; simpl; ring|].
  change (f x / c + Rsum (map (fun x => f x / c) l)
          = (f x + Rsum (map f l)) / c).
  rewrite IH. unfold Rdiv. ring.
Qed.

Lemma Rsum_exp_pos (l : list R) : l <> [] -> 0 < Rsum (map exp l).
Proof.
  assert (H : forall l', 0 <= Rsum (map exp l')).
  { induction l' as [|x l' IH]; [unfold Rsum; simpl; lraR|].
    change (0 <= exp x + Rsum (map exp l')).
    pose proof (exp_pos x). lraR. }
  destruct l as [|x l]; [congruence|]. intros _.
  change (0 < exp x + Rsum (map exp l)).
  pose proof (exp_pos x). pose proof (H l). lraR.
Qed.

Lemma Rsum_softmaxR (v : list R) : v <> [] -> Rsum (softmaxR v) = 1.
Proof.
  intros Hv. unfold softmaxR. rewrite Rsum_map_div.
  pose proof (Rsum_exp_pos Hv). field. lraR.
Qed.

Lemma length_softmaxR (v : list R) : length (softmaxR v) = length v.
Proof. unfold softmaxR. now rewrite length_map. Qed.

Lemma softmax_scaled_R_one (v : list R) : softmax_scaled_R 1 v = softmaxR v.
Proof.
  unfold softmax_scaled_R. f_equal. rewrite <- (map_id v) at 2.
  apply map_ext. intros x. ring.
Qed.

(** Summing an 8x8 row-major regrouping of 64 entries. *)
Lemma Rsum_blocks (s : list R) :
  length s = 64%nat ->
  Rsum (tab 8 (fun p => Rsum (tab 8 (fun q => nth (8 * p + q) s 0))))
  = Rsum s.
Proof.
  intros H.
  do 64 (destruct s as [|? s]; [discriminate H|]).
  destruct s; [|discriminate H].
  unfold tab, Rsum. simpl. ring.
Qed.

(** C4.  For a logit map with 64 channels the decoder returns a
    [B x 1 x 8H x 8W] heatmap whose pixel [(8i+p, 8j+q)] is the softmax
    weight of channel [8p+q], sub-cell [(p, q)], of coarse cell [(i, j)];
    hence the 8x8 sub-block of every coarse cell sums to 1. *)
Theorem heatmap_layout_and_normalization (kpts : tensor4 R) :
  sC kpts = 64%nat ->
  exists heat,
    get_kpts_heatmap_R kpts = Some heat
    /\ sB heat = sB kpts /\ sC heat = 1%nat
    /\ sH heat = (sH kpts * 8)%nat /\ sW heat = (sW kpts * 8)%nat
    /\ forall b i j,
        (b < sB kpts)%nat -> (i < sH kpts)%nat -> (j < sW kpts)%nat ->
        (forall p q, (p < 8)%nat -> (q < 8)%nat ->
           get4 0 heat b 0 (8 * i + p) (8 * j + q)
           = nth (8 * p + q) (softmaxR (cell 0 kpts b i j)) 0)
        /\ block_sum heat b i j = 1.
Proof.
  intros HC. unfold get_kpts_heatmap_R.
  destruct (heatmap_layout 0 softmax_scaled_R kpts 1 HC)
    as (heat & Hh & HB & HC1 & HH & HW & Hpix).
  exists heat. repeat (split; [assumption|]).
  intros b i j Hb Hi Hj.
  assert (Hp : forall p q, (p < 8)%nat -> (q < 8)%nat ->
             get4 0 heat b 0 (8 * i + p) (8 * j + q)
             = nth (8 * p + q) (softmaxR (cell 0 kpts b i j)) 0).
  { intros p q Hp Hq. rewrite Hpix by assumption.
    now rewrite softmax_scaled_R_one. }
  split; [exact Hp|].
  unfold block_sum.
  rewrite (@tab_ext _ 8 _ (fun p =>
             Rsum (tab 8 (fun q =>
               nth (8 * p + q) (softmaxR (cell 0 kpts b i j)) 0)))).
  - assert (Hlen : length (cell 0 kpts b i j) = 64%nat)
      by (unfold cell; now rewrite length_tab).
    rewrite Rsum_blocks by now rewrite length_softmaxR.
    apply Rsum_softmaxR. intros E. rewrite E in Hlen. discriminate.
  - intros p Hlt. f_equal. apply tab_ext. intros q Hq. now apply Hp.
Qed.

(** C4, on a one-cell logit map with all logits zero. *)
Lemma heatmap_layout_and_normalization_witness :
  exists heat,
    get_kpts_heatmap_R (mk4 1 64 1 1 [repeat [[0]] 64]) = Some heat
    /\ sB heat = 1%nat /\ sC heat = 1%nat
    /\ sH heat = 8%nat /\ sW heat = 8%nat
    /\ block_sum heat 0 0 0 = 1.
Proof.
  destruct (@heatmap_layout_and_normalization
              (mk4 1 64 1 1 [repeat [[0]] 64]) eq_refl)
    as (heat & Hh & HB & HC & HH & HW & Hpix).
  exists heat. repeat (split; [assumption|]).
  apply (Hpix 0%nat 0%nat 0%nat); simpl; lia.
Defined.

End DecoderFacts.

(** ** SparsePipeline *)

Section PipelineLists.

Lemma nth_error_map2 {A B C : Type} (f : A -> B -> C) (l : list A)
      (l' : list B) (k : nat) :
  nth_error (map2 f l l') k
  = match nth_error l k, nth_error l' k with
    | Some x, Some y => Some (f x y)
    | _, _ => None
    end.
Proof.
  unfold map2. revert l' k.
  induction l as [|x l IH]; intros [|y l'] [|k]; simpl; try reflexivity.
  - now destruct (nth_error l k).
  - apply IH.
Qed.

Lemma nth_error_seq (n k : nat) :
  nth_error (seq 0 n) k = if k <? n then Some k else None.
Proof.
  destruct (k <? n) eqn:E.
  - apply Nat.ltb_lt in E.
    rewrite (nth_error_nth' _ 0) by now rewrite length_seq.
    now rewrite seq_nth.
  - apply Nat.ltb_ge in E. apply nth_error_None. now rewrite length_seq.
Qed.

Lemma nth_error_mapi {A B : Type} (f : nat -> A -> B) (l : list A) (k : nat) :
  nth_error (mapi f l) k = option_map (f k) (nth_error l k).
Proof.
  unfold mapi. rewrite nth_error_map2, nth_error_seq.
  destruct (nth_error l k) eqn:E.
  - assert (k < length l) by (apply nth_error_Some; congruence).
    apply Nat.ltb_lt in H. now rewrite H.
  - now destruct (k <? length l).
Qed.

Lemma mapM_ext_in {A B : Type} (f g : A -> option B) (l : list A) :
  (forall x, In x l -> f x = g x) -> mapM f l = mapM g l.
Proof.
  induction l as [|x l IH]; intros H; simpl; [reflexivity|].
  rewrite (H x) by now left. rewrite IH; [reflexivity|].
  intros y Hy. apply H. now right.
Qed.

Lemma mapM_nth_error {A B : Type} (f : A -> option B) (l : list A)
      (r : list B) :
  mapM f l = Some r ->
  length r = length l
  /\ forall k y, nth_error r k = Some y ->
                 exists x, nth_error l k = Some x /\ f x = Some y.
Proof.
  revert r. induction l as [|x l IH]; intros r H; simpl in H.
  - injection H as <-. split; [reflexivity|]. intros [|k] y Hy; discriminate.
  - unfold bind in H. destruct (f x) as [y0|] eqn:Ef; [|discriminate].
    destruct (mapM f l) as [ys|] eqn:Em; [|discriminate].
    injection H as <-. destruct (IH ys eq_refl) as [Hl Hk].
    split; [simpl; now rewrite Hl|].
    intros [|k] y Hy; simpl in *.
    + injection Hy as <-. now exists x.
    + now apply Hk.
Qed.

Lemma firstn_incl {A : Type} (n : nat) (l : list A) : incl (firstn n l) l.
Proof.
  revert l. induction n as [|n IH]; intros [|x l] y Hy; simpl in *;
    try contradiction.
  destruct Hy as [->|Hy]; [now left | right; now apply IH].
Qed.

Lemma combine_firstn_same {A B : Type} (n : nat) (l : list A) (l' : list B) :
  combine (firstn n l) (firstn n l') = firstn n (combine l l').
Proof.
  revert l l'. induction n as [|n IH]; intros [|x l] [|y l']; simpl;
    try reflexivity.
  now rewrite IH.
Qed.

End PipelineLists.

Section SortFacts.

Import Pipeline.
Local Open Scope Q_scope.

Lemma insert_by_perm (key : nat -> Q) (i : nat) (l : list nat) :
  Permutation (insert_by key i l) (i :: l).
Proof.
  induction l as [|j t IH]; simpl; [reflexivity|].
  destruct (Qle_bool (key i) (key j)); [reflexivity|].
  rewrite IH. apply perm_swap.
Qed.

Lemma argsort_perm (keys : list Q) :
  Permutation (argsort keys) (seq 0 (length keys)).
Proof.
  unfold argsort. generalize (seq 0 (length keys)) as s.
  induction s as [|i s IH]; simpl; [constructor|].
  rewrite insert_by_perm. now constructor.
Qed.

Lemma length_argsort (keys : list Q) : length (argsort keys) = length keys.
Proof.
  rewrite (Permutation_length (argsort_perm keys)). apply length_seq.
Qed.

Lemma argsort_in_range (keys : list Q) (k : nat) :
  In k (argsort keys) -> (k < length keys)%nat.
Proof.
  intros H. apply (Permutation_in _ (argsort_perm keys)) in H.
  apply in_seq in H. lia.
Qed.

Lemma insert_by_sorted (key : nat -> Q) (i : nat) (l : list nat) :
  StronglySorted (fun a b => key a <= key b) l ->
  StronglySorted (fun a b => key a <= key b) (insert_by key i l).
Proof.
  induction 1 as [|j t Hs IH Hj]; simpl.
  - constructor; constructor.
  - destruct (Qle_bool (key i) (key j)) eqn:E.
    + apply Qle_bool_iff in E. constructor; [now constructor|].
      constructor; [exact E|].
      eapply Forall_impl; [|exact Hj]. intros a Ha.
      now apply Qle_trans with (key j).
    + constructor; [exact IH|].
      apply (Permutation_Forall (Permutation_sym (insert_by_perm key i t))).
      constructor; [|exact Hj].
      apply Qlt_le_weak, Qnot_le_lt. intros Hle.
      apply Qle_bool_iff in Hle. congruence.
Qed.

Lemma argsort_sorted (keys : list Q) :
  StronglySorted (fun a b => nth a keys 0 <= nth b keys 0) (argsort keys).
Proof.
  unfold argsort. generalize (seq 0 (length keys)) as s.
  induction s as [|i s IH]; simpl; [constructor|].
  now apply insert_by_sorted.
Qed.

Lemma StronglySorted_map_in {A B : Type} (R : A -> A -> Prop)
      (R' : B -> B -> Prop) (f : A -> B) (l : list A) :
  (forall a b, In a l -> In b l -> R a b -> R' (f a) (f b)) ->
  StronglySorted R l -> StronglySorted R' (map f l).
Proof.
  intros H Hs. induction Hs as [|a t Hs IH Ha]; simpl; [constructor|].
  constructor.
  - apply IH. intros x y Hx Hy. apply H; now right.
  - apply Forall_forall. intros y Hy. apply in_map_iff in Hy.
    destruct Hy as (b & <- & Hb). rewrite Forall_forall in Ha.
    apply H; [now left | now right | now apply Ha].
Qed.

(** The ranking is a rearrangement of the scored candidates, in
    non-increasing order of score. *)
Lemma ranked_perm (e : list ((nat * nat) * Q)) : Permutation (ranked e) e.
Proof.
  unfold ranked, gather.
  apply Permutation_trans
    with (map (fun k => nth k e ((0, 0)%nat, 0)) (seq 0 (length e))).
  - apply Permutation_map.
    rewrite <- (length_map (fun c => - snd c) e). apply argsort_perm.
  - now rewrite <- list_as_tab.
Qed.

Lemma ranked_sorted (e : list ((nat * nat) * Q)) :
  StronglySorted (fun a b => snd b <= snd a) (ranked e).
Proof.
  unfold ranked, gather.
  eapply StronglySorted_map_in; [|apply argsort_sorted].
  intros a b Ha Hb Hab. apply argsort_in_range in Ha, Hb.
  rewrite length_map in Ha, Hb. cbv beta in Hab.
  rewrite (nth_map_in (fun c => - snd c) e ((0, 0)%nat, 0) 0 Ha) in Hab.
  rewrite (nth_map_in (fun c => - snd c) e ((0, 0)%nat, 0) 0 Hb) in Hab.
  apply Qopp_le_compat in Hab. now rewrite !Qopp_opp in Hab.
Qed.

(** In a list sorted by non-increasing score, the positive entries are a
    prefix: filtering commutes with truncation. *)
Lemma filter_firstn_sorted {A : Type} (s : A -> Q) (n : nat) (l : list A) :
  StronglySorted (fun a b => s b <= s a) l ->
  filter (fun e => Qgtb (s e) 0) (firstn n l)
  = firstn n (filter (fun e => Qgtb (s e) 0) l).
Proof.
  intros Hs. revert n. induction Hs as [|a t Hs IH Ha]; intros n.
  - now rewrite !firstn_nil.
  - destruct n as [|n]; [reflexivity|]. simpl.
    destruct (Qgtb (s a) 0) eqn:E; simpl; [now rewrite IH|].
    apply Qgtb_false in E.
    assert (Hnone : forall l', incl l' t ->
                               filter (fun e => Qgtb (s e) 0) l' = []).
    { intros l' Hl'. induction l' as [|y l' IHl']; [reflexivity|]. simpl.
      assert (Hy : In y t) by (apply Hl'; now left).
      rewrite Forall_forall in Ha. specialize (Ha y Hy).
      assert (Qgtb (s y) 0 = false) as ->.
      { apply Qgtb_false. now apply Qle_trans with (s a). }
      apply IHl'. intros z Hz. apply Hl'. now right. }
    rewrite (Hnone t) by apply incl_refl.
    rewrite (Hnone (firstn n t)); [now destruct n|].
    apply firstn_incl.
Qed.

End SortFacts.

Section SparseFacts.

Import Decoder Selector Pipeline.
Local Open Scope Q_scope.

Variable Image : Type.
Variable shape : Image -> nat * nat * nat * nat.
Variable interpolate_size : Image -> nat -> nat -> Image.
Variable interpolate_scale : Image -> Q -> Image.
Variable parse_input : Image -> Image.
Variable net : Image -> tensor4 Q * tensor4 Q * tensor4 Q.
Variable normalize_dim1 : tensor4 Q -> tensor4 Q.
Variable normalize : list Q -> list Q.
Variable softmax_scaled : Q -> list Q -> list Q.
Variable sample1 : mode -> tensor4 Q -> nat -> nat -> nat -> nat * nat -> Q.
Variable sampleC :
  mode -> tensor4 Q -> nat -> nat -> nat -> nat * nat -> list Q.

Local Abbreviation detect :=
  (detectAndCompute shape interpolate_size net normalize_dim1 normalize
                    softmax_scaled sample1 sampleC).
Local Abbreviation front_of' :=
  (front_of shape interpolate_size net normalize_dim1 softmax_scaled).
Local Abbreviation result_of := (image_result normalize sample1 sampleC).
Local Abbreviation match_xfeat' :=
  (match_xfeat shape interpolate_size parse_input net normalize_dim1
               normalize softmax_scaled sample1 sampleC).
Local Abbreviation dense_of :=
  (detectAndComputeDense shape interpolate_size interpolate_scale net).
Local Abbreviation star_coarse :=
  (match_xfeat_star_coarse shape interpolate_size interpolate_scale
                           parse_input net).

Lemma nth_error_score_candidates (fr : front) (mkpts : list (list (nat * nat)))
      (b : nat) :
  nth_error (score_candidates sample1 (f_K1h fr) (f_H1 fr) (f_H fr) (f_W fr)
                              mkpts) b
  = option_map (map (fun p => snd (scored sample1 fr b p)))
               (nth_error mkpts b).
Proof.
  unfold score_candidates. rewrite nth_error_map2, nth_error_mapi.
  destruct (nth_error mkpts b) as [cand|]; simpl; [|reflexivity].
  f_equal. now rewrite map2_map_r_same.
Qed.

Lemma gather_combine {A B : Type} (da : A) (db : B) (l : list A)
      (l' : list B) (ix : list nat) :
  length l = length l' ->
  combine (gather da l ix) (gather db l' ix) = gather (da, db) (combine l l') ix.
Proof.
  intros H. unfold gather. rewrite combine_map_same.
  apply map_ext. intros k. now rewrite combine_nth.
Qed.

Lemma gather_map {A B : Type} (f : A -> B) (d : A) (l : list A)
      (ix : list nat) :
  gather (f d) (map f l) ix = map f (gather d l ix).
Proof.
  unfold gather. rewrite map_map. apply map_ext. intros k. apply map_nth.
Qed.

Lemma map_fst_combine {A B : Type} (l : list A) (l' : list B) :
  length l = length l' -> map fst (combine l l') = l.
Proof.
  revert l'. induction l as [|x l IH]; intros [|y l'] H; simpl in *;
    try discriminate; [reflexivity|].
  f_equal. apply IH. lia.
Qed.

Lemma map_snd_combine {A B : Type} (l : list A) (l' : list B) :
  length l = length l' -> map snd (combine l l') = l'.
Proof.
  revert l'. induction l as [|x l IH]; intros [|y l'] H; simpl in *;
    try discriminate; [reflexivity|].
  f_equal. apply IH. lia.
Qed.

Lemma combine_fst_snd {A B : Type} (l : list (A * B)) :
  combine (map fst l) (map snd l) = l.
Proof.
  induction l as [|[x y] l IH]; simpl; [reflexivity | now rewrite IH].
Qed.

(** One row of lines 70-75: the coordinate columns and the scores are
    gathered and truncated separately; together they are the first
    [top_k] entries of the gathered pairs. *)
Lemma select_rows (top_k : nat) (cand : list (nat * nat)) (sc : list Q)
      (ix : list nat) :
  length cand = length sc ->
  let E := firstn top_k (gather ((0, 0)%nat, 0) (combine cand sc) ix) in
  combine (firstn top_k (gather 0%nat (map fst cand) ix))
          (firstn top_k (gather 0%nat (map snd cand) ix))
  = map fst E
  /\ firstn top_k (gather 0 sc ix) = map snd E.
Proof.
  intros Hlen E. subst E.
  rewrite <- (gather_combine (0, 0)%nat 0 cand sc ix Hlen).
  assert (Hg : length (gather (0, 0)%nat cand ix) = length (gather 0 sc ix))
    by (unfold gather; now rewrite !length_map).
  rewrite <- !firstn_map.
  rewrite map_fst_combine, map_snd_combine by exact Hg.
  split; [|reflexivity].
  rewrite combine_firstn_same. f_equal.
  pose proof (gather_map fst (0, 0)%nat cand ix) as H1.
  pose proof (gather_map snd (0, 0)%nat cand ix) as H2.
  cbn [fst snd] in H1, H2. rewrite H1, H2. apply combine_fst_snd.
Qed.

(** Row [b] of the two tensors [select_topk] returns, in terms of the
    ranking of the scored candidates. *)
Lemma nth_error_select_topk (top_k : nat) (fr : front)
      (mkpts : list (list (nat * nat))) (b : nat) :
  let r := select_topk top_k mkpts
             (score_candidates sample1 (f_K1h fr) (f_H1 fr) (f_H fr) (f_W fr)
                               mkpts) in
  nth_error (fst r) b
  = option_map (fun cand => map fst (selected sample1 top_k fr b cand))
               (nth_error mkpts b)
  /\ nth_error (snd r) b
     = option_map (fun cand => map snd (selected sample1 top_k fr b cand))
                  (nth_error mkpts b).
Proof.
  unfold select_topk. cbn [fst snd].
  rewrite !nth_error_map2, !nth_error_map, !nth_error_score_candidates.
  destruct (nth_error mkpts b) as [cand|]; cbn [option_map];
    [|split; reflexivity].
  set (sc := map (fun p => snd (scored sample1 fr b p)) cand).
  set (ix := argsort (map Qopp sc)).
  assert (Hlen : length cand = length sc)
    by (unfold sc; now rewrite length_map).
  assert (He : combine cand sc = map (scored sample1 fr b) cand).
  { unfold sc. rewrite <- (map_id cand) at 1. rewrite combine_map_same.
    apply map_ext. now intros [x y]. }
  assert (Hix : ix = argsort (map (fun c => - snd c)
                                  (map (scored sample1 fr b) cand))).
  { unfold ix, sc. now rewrite !map_map. }
  assert (Hsel : selected sample1 top_k fr b cand
                 = firstn top_k (gather ((0, 0)%nat, 0) (combine cand sc) ix)).
  { unfold selected, ranked. now rewrite <- Hix, <- He. }
  destruct (select_rows top_k cand sc ix Hlen) as [H1 H2].
  rewrite Hsel. split; f_equal; assumption.
Qed.

(** [detectAndCompute] computes, for every image of the batch, the
    positive-score entries among the selected candidates. *)
Lemma detectAndCompute_nf (self : XFeat) (x : Image) :
  detect self x
  = (fr <- front_of' x ;;
     mapM (fun b =>
             cand <- nth_error (f_mkpts fr) b ;;
             Some (result_of (self_top_k self) fr b cand))
          (seq 0 (f_B fr))).
Proof.
  unfold detectAndCompute, front_of, bind.
  destruct (preprocess_tensor shape interpolate_size x)
    as [[[x' rh] rw]|]; [|reflexivity].
  destruct (shape x') as [[[B C] H] W].
  destruct (net x') as [[M1 K1] H1].
  destruct (get_kpts_heatmap 0 softmax_scaled K1 1) as [K1h|]; [|reflexivity].
  destruct (NMS K1h (5 # 100) 5) as [mkpts|]; [|reflexivity].
  set (fr := mkFront B H W rh rw (normalize_dim1 M1) K1h H1 mkpts).
  change K1h with (f_K1h fr). change H1 with (f_H1 fr).
  change H with (f_H fr). change W with (f_W fr).
  destruct (select_topk (self_top_k self) mkpts _) as [mk' sc'] eqn:Es.
  apply mapM_ext_in. intros b _.
  destruct (nth_error_select_topk (self_top_k self) fr mkpts b) as [E1 E2].
  fold fr in Es. rewrite Es in E1, E2. cbn [fst snd] in E1, E2.
  rewrite nth_error_map2, !nth_error_map, nth_error_mapi, E1, E2.
  cbn [f_mkpts fr].
  destruct (nth_error mkpts b) as [cand|]; cbn [option_map]; [|reflexivity].
  f_equal. unfold image_result.
  set (E := selected sample1 (self_top_k self) fr b cand).
  rewrite !map_map, map2_map_same, !mask_select_map_same.
  reflexivity.
Qed.

Lemma detectAndCompute_image (self : XFeat) (x : Image)
      (res : list (list (Q * Q * Q) * list (list Q))) :
  detect self x = Some res ->
  exists fr,
    front_of' x = Some fr
    /\ length res = f_B fr
    /\ forall b r, nth_error res b = Some r ->
         exists cand,
           nth_error (f_mkpts fr) b = Some cand
           /\ r = result_of (self_top_k self) fr b cand.
Proof.
  rewrite detectAndCompute_nf. unfold bind at 1.
  destruct (front_of' x) as [fr|]; [|discriminate].
  intros H. exists fr. split; [reflexivity|].
  destruct (mapM_nth_error _ _ H) as [Hl Hk].
  split; [now rewrite Hl, length_seq|].
  intros b r Hr. destruct (Hk b r Hr) as (b' & Hb' & Hf).
  rewrite nth_error_seq in Hb'.
  destruct (b <? f_B fr); [|discriminate]. injection Hb' as <-.
  unfold bind in Hf. destruct (nth_error (f_mkpts fr) b) as [cand|];
    [|discriminate].
  exists cand. split; [reflexivity | congruence].
Qed.

Lemma front_ratios_pos (x : Image) (fr : front) :
  front_of' x = Some fr -> 0 < f_rh fr /\ 0 < f_rw fr.
Proof.
  unfold front_of, preprocess_tensor, bind.
  destruct (shape x) as [[[B C] H] W].
  destruct ((H / 32 * 32 =? 0)%nat || (W / 32 * 32 =? 0)%nat) eqn:E;
    [discriminate|].
  apply orb_false_elim in E. destruct E as [EH EW].
  apply Nat.eqb_neq in EH, EW.
  destruct (shape (interpolate_size x (H / 32 * 32) (W / 32 * 32)))
    as [[[B' C'] H'] W'].
  destruct (net _) as [[M1 K1] H1].
  destruct (get_kpts_heatmap 0 softmax_scaled K1 1); [|discriminate].
  destruct (NMS _ _ _); [|discriminate].
  intros Hfr. injection Hfr as <-. cbn [f_rh f_rw].
  assert (HH : (0 < H)%nat) by (destruct H; [simpl in EH; congruence | lia]).
  assert (HW : (0 < W)%nat) by (destruct W; [simpl in EW; congruence | lia]).
  unfold Qlt. simpl. lia.
Qed.

(** Every selected entry is a scored candidate. *)
Lemma selected_in (top_k : nat) (fr : front) (b : nat)
      (cand : list (nat * nat)) (e : (nat * nat) * Q) :
  In e (selected sample1 top_k fr b cand) ->
  exists p, In p cand /\ e = scored sample1 fr b p.
Proof.
  intros H. apply firstn_incl in H.
  apply (Permutation_in _ (ranked_perm _)) in H.
  apply in_map_iff in H. destruct H as (p & <- & Hp). now exists p.
Qed.

Lemma scored_combine (fr : front) (b : nat) (cand : list (nat * nat)) :
  map (scored sample1 fr b) cand
  = combine cand (map (fun p => snd (scored sample1 fr b p)) cand).
Proof.
  induction cand as [|p cand IH]; [reflexivity|].
  cbn [map combine]. now rewrite <- IH.
Qed.

(** C5.  When [detectAndCompute] returns: every candidate with all-zero
    coordinates carries score [-1] in the tensor that is sorted, and the
    result of image [b] consists of exactly the selected entries whose
    score is strictly positive, as keypoints [(x, y, score)] and as
    descriptors.  The selected entries are the first [top_k] of a
    ranking [r] of the candidates of the image, each with its score in
    that tensor, by non-increasing score; the order among candidates of
    equal score is whatever the sort returns. *)
Theorem detectAndCompute_sentinel_and_filter
        (self : XFeat) (x : Image)
        (res : list (list (Q * Q * Q) * list (list Q))) :
  detect self x = Some res ->
  exists fr,
    front_of' x = Some fr
    /\ length res = f_B fr
    /\ (forall b cand scs k,
          nth_error (f_mkpts fr) b = Some cand ->
          nth_error (score_candidates sample1 (f_K1h fr) (f_H1 fr)
                                      (f_H fr) (f_W fr) (f_mkpts fr)) b
          = Some scs ->
          nth_error cand k = Some (0, 0)%nat ->
          nth_error scs k = Some (- (1)))
    /\ (forall b kps descs,
          nth_error res b = Some (kps, descs) ->
          exists cand scs r,
            nth_error (f_mkpts fr) b = Some cand
            /\ nth_error (score_candidates sample1 (f_K1h fr) (f_H1 fr)
                                           (f_H fr) (f_W fr) (f_mkpts fr)) b
               = Some scs
            /\ Permutation r (combine cand scs)
            /\ StronglySorted (fun a c => snd c <= snd a) r
            /\ kps = map (keypoint_of fr)
                         (filter (fun e => Qgtb (snd e) 0)
                                 (firstn (self_top_k self) r))
            /\ descs = map (descriptor_of normalize sampleC fr b)
                           (filter (fun e => Qgtb (snd e) 0)
                                   (firstn (self_top_k self) r))).
Proof.
  intros H. destruct (detectAndCompute_image _ _ H) as (fr & Hfr & Hl & Hk).
  exists fr. repeat split; try assumption.
  - intros b cand scs k Hc Hs Hz.
    rewrite nth_error_score_candidates, Hc in Hs. injection Hs as <-.
    rewrite nth_error_map, Hz. reflexivity.
  - intros b kps descs Hr. destruct (Hk b _ Hr) as (cand & Hc & E).
    unfold image_result, selected in E. injection E as -> ->.
    exists cand, (map (fun p => snd (scored sample1 fr b p)) cand),
           (ranked (map (scored sample1 fr b) cand)).
    split; [exact Hc|].
    split; [now rewrite nth_error_score_candidates, Hc|].
    split; [rewrite <- scored_combine; apply ranked_perm|].
    split; [apply ranked_sorted|]. split; reflexivity.
Qed.

(** C9.  No returned keypoint lies at the origin: it comes from a
    candidate other than [(0, 0)], whatever the samplers return, and its
    rescaled coordinates are not both zero. *)
Theorem detectAndCompute_no_origin_keypoint
        (self : XFeat) (x : Image)
        (res : list (list (Q * Q * Q) * list (list Q)))
        (b : nat) (kps : list (Q * Q * Q)) (descs : list (list Q))
        (kx ky s : Q) :
  detect self x = Some res ->
  nth_error res b = Some (kps, descs) ->
  In (kx, ky, s) kps ->
  (exists fr p,
      front_of' x = Some fr /\ p <> (0, 0)%nat
      /\ (kx, ky, s) = keypoint_of fr (p, s))
  /\ ~ (kx == 0 /\ ky == 0).
Proof.
  intros H Hr Hin.
  destruct (detectAndCompute_image _ _ H) as (fr & Hfr & _ & Hk).
  destruct (Hk b _ Hr) as (cand & _ & E). unfold image_result in E.
  injection E as -> _.
  apply in_map_iff in Hin. destruct Hin as (e & Ee & He).
  apply filter_In in He. destruct He as [He Hpos].
  apply Qgtb_true in Hpos.
  destruct (selected_in _ _ _ _ _ He) as (p & _ & ->).
  assert (Hp : p <> (0, 0)%nat).
  { intros ->. unfold scored in Hpos. simpl in Hpos.
    revert Hpos. unfold Qlt. simpl. lia. }
  unfold keypoint_of in Ee. cbn [fst snd scored] in Ee.
  injection Ee as <- <- <-.
  destruct (front_ratios_pos _ Hfr) as [Hrh Hrw].
  split.
  - exists fr, p. repeat split; assumption.
  - intros [Hx Hy]. apply Hp. destruct p as [px py]. cbn [fst snd] in *.
    apply Qmult_integral in Hx, Hy.
    destruct Hx as [Hx|Hx]; [|rewrite Hx in Hrw; now apply Qlt_irrefl in Hrw].
    destruct Hy as [Hy|Hy]; [|rewrite Hy in Hrh; now apply Qlt_irrefl in Hrh].
    unfold Qeq in Hx, Hy. simpl in Hx, Hy. f_equal; lia.
Qed.

Lemma length_filter_perm {A : Type} (f : A -> bool) (l l' : list A) :
  Permutation l l' -> length (filter f l) = length (filter f l').
Proof.
  intros H. induction H as [|a l l' _ IH|a c l|l l' l'' _ IH1 _ IH2].
  - reflexivity.
  - cbn [filter]. destruct (f a); cbn [length]; now rewrite IH.
  - cbn [filter]. destruct (f a), (f c); reflexivity.
  - now rewrite IH1.
Qed.

(** X26.  For every image [detectAndCompute] returns at most the
    instance's [top_k] features, with as many descriptors as keypoints:
    [min top_k n] of them, where [n] is the number of candidates of the
    image with positive score.  They are the first [top_k]
    positive-score entries of a ranking of the scored candidates by
    non-increasing score, whatever the order among equal scores. *)
Theorem detectAndCompute_at_most_top_k
        (self : XFeat) (x : Image)
        (res : list (list (Q * Q * Q) * list (list Q)))
        (b : nat) (kps : list (Q * Q * Q)) (descs : list (list Q)) :
  detect self x = Some res ->
  nth_error res b = Some (kps, descs) ->
  (length kps <= self_top_k self)%nat
  /\ length descs = length kps
  /\ exists fr cand r,
      front_of' x = Some fr
      /\ nth_error (f_mkpts fr) b = Some cand
      /\ length kps
         = Nat.min (self_top_k self)
                   (length (filter (fun e => Qgtb (snd e) 0)
                                   (map (scored sample1 fr b) cand)))
      /\ Permutation r (map (scored sample1 fr b) cand)
      /\ StronglySorted (fun a c => snd c <= snd a) r
      /\ kps = map (keypoint_of fr)
                   (firstn (self_top_k self)
                           (filter (fun e => Qgtb (snd e) 0) r))
      /\ descs = map (descriptor_of normalize sampleC fr b)
                     (firstn (self_top_k self)
                             (filter (fun e => Qgtb (snd e) 0) r)).
Proof.
  intros H Hr.
  destruct (detectAndCompute_image _ _ H) as (fr & Hfr & _ & Hk).
  destruct (Hk b _ Hr) as (cand & Hc & E). unfold image_result in E.
  injection E as -> ->. unfold selected.
  rewrite (filter_firstn_sorted snd _ (ranked_sorted _)).
  split; [rewrite length_map; apply firstn_le_length|].
  split; [now rewrite !length_map|].
  exists fr, cand, (ranked (map (scored sample1 fr b) cand)).
  split; [exact Hfr|]. split; [exact Hc|].
  split; [rewrite length_map, length_firstn;
          now rewrite (length_filter_perm _ (ranked_perm _))|].
  split; [apply ranked_perm|]. split; [apply ranked_sorted|].
  split; reflexivity.
Qed.

(** The unfiltered result of [batch_match] holds every mutual pair of
    every batch element. *)
Lemma batch_match_complete (feats1 feats2 : Matcher.tensor3) (t : Q)
      (idx0_b idx1_b : list (nat * nat)) (b i j : nat) :
  t <= 0 ->
  Matcher.batch_match feats1 feats2 t = Some (idx0_b, idx1_b) ->
  (b < Matcher.dim0 feats1)%nat ->
  Matcher.argmax_of (Matcher.dim1 feats2)
    (fun k => Matcher.cossim_at (nth b (Matcher.data3 feats1) [])
                                (nth b (Matcher.data3 feats2) []) i k) j ->
  Matcher.argmax_of (Matcher.dim1 feats1)
    (fun k => Matcher.cossim_at (nth b (Matcher.data3 feats1) [])
                                (nth b (Matcher.data3 feats2) []) k j) i ->
  In ((b, i), (b, j)) (combine idx0_b idx1_b).
Proof.
  intros Ht Hm Hb H1 H2. rewrite batch_nf in Hm.
  destruct (Matcher.batch_ok feats1 feats2) eqn:Hok; [|discriminate].
  injection Hm as <- <-. unfold Matcher.batch_pairs.
  rewrite (combine_concat_map (fun bi i => (bi, i))
             (fun bi i => (bi, Matcher.am12 (nth bi (Matcher.data3 feats1) [])
                                            (nth bi (Matcher.data3 feats2) [])
                                            i))).
  assert (Hl : length (Matcher.data3 feats1) = Matcher.dim0 feats1).
  { unfold Matcher.batch_ok in Hok.
    do 5 (apply andb_prop in Hok; destruct Hok as [Hok _]).
    unfold Matcher.wf3 in Hok. apply andb_prop in Hok.
    now apply Nat.eqb_eq. }
  destruct (@batch_ok_shapes feats1 feats2 b Hok) as (_ & L1 & L2 & Hne);
    [lia|].
  rewrite <- L1 in H2. rewrite <- L2 in H1.
  destruct (@mnn_complete _ _ _ _ _ Hne Ht H1 H2) as [Hin E].
  apply in_concat. eexists. split.
  - apply in_map_iff. exists b. split; [reflexivity|]. apply in_seq. lia.
  - apply in_map_iff. exists i. split; [now rewrite E | exact Hin].
Qed.

(** C10.  [match] called without [min_cossim] runs with threshold 0.95:
    the filter is active, and the returned pairs are exactly the mutual
    pairs whose cosine similarity exceeds 0.95.  With threshold [-1] the
    filter is off and every mutual pair is returned; that is the value
    [match_xfeat] passes by default, and the default of [batch_match],
    with which [match_xfeat_star] matches its dense features. *)
Theorem match_default_threshold :
  (forall feats1 feats2,
      Matcher.match_call feats1 feats2 None
      = Matcher.match_ feats1 feats2 (95 # 100))
  /\ (forall feats1 feats2 idx0 idx1,
        Matcher.match_ feats1 feats2 (95 # 100) = Some (idx0, idx1) ->
        exists all0 all1,
          Matcher.match_ feats1 feats2 (- (1)) = Some (all0, all1)
          /\ forall i j,
               In (i, j) (combine idx0 idx1)
               <-> In (i, j) (combine all0 all1)
                   /\ 95 # 100 < Matcher.cossim_at (Matcher.data2 feats1)
                                                 (Matcher.data2 feats2) i j)
  /\ (forall feats1 feats2 all0 all1 i j,
        Matcher.match_ feats1 feats2 (- (1)) = Some (all0, all1) ->
        Matcher.argmax_of (Matcher.rows2 feats2)
          (fun k => Matcher.cossim_at (Matcher.data2 feats1)
                                      (Matcher.data2 feats2) i k) j ->
        Matcher.argmax_of (Matcher.rows2 feats1)
          (fun k => Matcher.cossim_at (Matcher.data2 feats1)
                                      (Matcher.data2 feats2) k j) i ->
        In (i, j) (combine all0 all1))
  /\ (forall self img1 img2,
        match_xfeat' self img1 img2 None
        = (r1 <- detect self (parse_input img1) ;;
           out1 <- nth_error r1 0 ;;
           r2 <- detect self (parse_input img2) ;;
           out2 <- nth_error r2 0 ;;
           idxs <- Matcher.match_ (as_tensor2 (snd out1))
                                  (as_tensor2 (snd out2)) (- (1)) ;;
           Some (gather (0, 0, 0) (fst out1) (fst idxs),
                 gather (0, 0, 0) (fst out2) (snd idxs),
                 py_delete (fst out1) (fst idxs),
                 py_delete (fst out2) (snd idxs))))
  /\ (forall feats1 feats2,
        Matcher.batch_match_call feats1 feats2 None
        = Matcher.batch_match feats1 feats2 (- (1)))
  /\ (forall self im_set1 im_set2,
        star_coarse self im_set1 im_set2
        = (out1 <- dense_of self (parse_input im_set1) true ;;
           out2 <- dense_of self (parse_input im_set2) true ;;
           Matcher.batch_match (as_tensor3 (snd (fst out1)))
                               (as_tensor3 (snd (fst out2))) (- (1))))
  /\ (forall feats1 feats2 idx0_b idx1_b b i j,
        Matcher.batch_match feats1 feats2 (- (1)) = Some (idx0_b, idx1_b) ->
        (b < Matcher.dim0 feats1)%nat ->
        Matcher.argmax_of (Matcher.dim1 feats2)
          (fun k => Matcher.cossim_at (nth b (Matcher.data3 feats1) [])
                                      (nth b (Matcher.data3 feats2) []) i k)
          j ->
        Matcher.argmax_of (Matcher.dim1 feats1)
          (fun k => Matcher.cossim_at (nth b (Matcher.data3 feats1) [])
                                      (nth b (Matcher.data3 feats2) []) k j)
          i ->
        In ((b, i), (b, j)) (combine idx0_b idx1_b)).
Proof.
  split; [reflexivity|]. split; [|split; [|split; [|split; [|split]]]].
  - intros feats1 feats2 idx0 idx1 Hm. rewrite match_nf in *.
    destruct (Matcher.match_ok feats1 feats2) eqn:Hok; [|discriminate].
    destruct (match_ok_shapes _ _ Hok) as (_ & _ & Hb).
    injection Hm as <- <-. eexists. eexists. split; [reflexivity|].
    intros i j. rewrite !mnn_pairs, !in_map_iff. split.
    + intros (i' & E & Hi). injection E as -> <-.
      apply (@mnn_threshold (Matcher.data2 feats1) _ (95 # 100) i Hb) in Hi;
        [|reflexivity].
      destruct Hi as [Hi Hlt]. split; [|exact Hlt]. now exists i.
    + intros [(i' & E & Hi) Hlt]. injection E as -> <-.
      exists i. split; [reflexivity|].
      apply (@mnn_threshold (Matcher.data2 feats1) _ (95 # 100) i Hb);
        [reflexivity|].
      now split.
  - intros feats1 feats2 all0 all1 i j Hm H1 H2. rewrite match_nf in Hm.
    destruct (Matcher.match_ok feats1 feats2) eqn:Hok; [|discriminate].
    destruct (match_ok_shapes _ _ Hok) as (L1 & L2 & Hb).
    injection Hm as <- <-. rewrite <- L2 in H1. rewrite <- L1 in H2.
    assert (Ht : - (1) <= 0) by (unfold Qle; simpl; lia).
    destruct (@mnn_complete _ _ _ _ _ Hb Ht H1 H2) as [Hin E].
    rewrite mnn_pairs. apply in_map_iff. exists i.
    split; [now rewrite E | exact Hin].
  - intros self img1 img2. unfold match_xfeat, Matcher.match_call, bind.
    destruct (detect self (parse_input img1)) as [r1|]; [|reflexivity].
    destruct (nth_error r1 0) as [out1|]; [|reflexivity].
    destruct (detect self (parse_input img2)) as [r2|]; [|reflexivity].
    destruct (nth_error r2 0) as [out2|]; [|reflexivity].
    destruct (Matcher.match_ _ _ _) as [[idxs0 idxs1]|]; reflexivity.
  - reflexivity.
  - reflexivity.
  - intros feats1 feats2 idx0_b idx1_b b i j Hm.
    apply batch_match_complete with (t := - (1)); [|exact Hm].
    unfold Qle. simpl. lia.
Qed.

End SparseFacts.

(** ** DensePipeline *)

Section DenseFacts.

Import Decoder Pipeline.
Local Open Scope Q_scope.

Variable Image : Type.
Variable shape : Image -> nat * nat * nat * nat.
Variable interpolate_size : Image -> nat -> nat -> Image.
Variable interpolate_scale : Image -> Q -> Image.
Variable net : Image -> tensor4 Q * tensor4 Q * tensor4 Q.

Local Abbreviation preprocess := (preprocess_tensor shape interpolate_size).
Local Abbreviation extract := (extractDense shape interpolate_size net).
Local Abbreviation dualscale' :=
  (extract_dualscale shape interpolate_size interpolate_scale net).

Lemma mapM_total {A B : Type} (f : A -> option B) (l : list A) :
  (forall x, In x l -> exists y, f x = Some y) ->
  exists r, mapM f l = Some r.
Proof.
  induction l as [|x l IH]; intros H; simpl; [now exists []|].
  destruct (H x) as [y Hy]; [now left|].
  destruct IH as [r Hr]; [intros z Hz; apply H; now right|].
  exists (y :: r). unfold bind. now rewrite Hy, Hr.
Qed.

Lemma length_concat_tab {A : Type} (n m : nat) (f : nat -> list A) :
  (forall k, (k < n)%nat -> length (f k) = m) ->
  length (concat (tab n f)) = (n * m)%nat.
Proof.
  intros H. unfold tab.
  assert (G : forall s len,
             (forall k, In k (seq s len) -> length (f k) = m) ->
             length (concat (map f (seq s len))) = (len * m)%nat).
  { intros s len. revert s. induction len as [|len IH]; intros s Hk;
      simpl; [reflexivity|].
    rewrite length_app, IH, Hk; [reflexivity | now left |].
    intros k Hin. apply Hk. now right. }
  apply G. intros k Hin. apply in_seq in Hin. apply H. lia.
Qed.

Lemma In_concat_tab {A : Type} (n : nat) (f : nat -> list A) (x : A) :
  In x (concat (tab n f)) -> exists k, (k < n)%nat /\ In x (f k).
Proof.
  intros H. apply in_concat in H. destruct H as (l & Hl & Hx).
  unfold tab in Hl. apply in_map_iff in Hl. destruct Hl as (k & <- & Hk).
  apply in_seq in Hk. exists k. split; [lia | exact Hx].
Qed.

(** The flattened maps [extractDense] gathers from. *)
Lemma length_flat_H1 (H1 : tensor4 Q) (row : list Q) :
  In row (map (fun m => concat (concat m)) (permute0231 0 H1)) ->
  length row = (sH H1 * sW H1 * sC H1)%nat.
Proof.
  intros H. apply in_map_iff in H. destruct H as (m & <- & Hm).
  unfold permute0231 in Hm. unfold tab in Hm at 1.
  apply in_map_iff in Hm. destruct Hm as (b & <- & _).
  rewrite <- Nat.mul_assoc.
  set (L := concat (tab (sH H1) (fun i =>
                 tab (sW H1) (fun j =>
                   tab (sC H1) (fun c => get4 0 H1 b c i j))))).
  assert (HL : length L = (sH H1 * sW H1)%nat).
  { apply length_concat_tab. intros k _. apply length_tab. }
  assert (HC : Forall (fun l => length l = sC H1) L).
  { apply Forall_forall. intros l Hl. apply In_concat_tab in Hl.
    destruct Hl as (i & _ & Hl). unfold tab in Hl at 1.
    apply in_map_iff in Hl. destruct Hl as (j & <- & _). apply length_tab. }
  clearbody L. rewrite Nat.mul_assoc, <- HL. clear HL.
  induction HC as [|l L Hl HC IH]; [reflexivity|].
  simpl. rewrite length_app, IH, Hl. reflexivity.
Qed.

Lemma flat_M1_rows (M1 : tensor4 Q) (rows : list (list Q)) :
  In rows (map (@concat _) (permute0231 0 M1)) ->
  length rows = (sH M1 * sW M1)%nat
  /\ forall row, In row rows -> length row = sC M1.
Proof.
  intros H. apply in_map_iff in H. destruct H as (m & <- & Hm).
  unfold permute0231 in Hm. unfold tab in Hm at 1.
  apply in_map_iff in Hm. destruct Hm as (b & <- & _). split.
  - apply length_concat_tab. intros k _. apply length_tab.
  - intros row Hrow. apply In_concat_tab in Hrow.
    destruct Hrow as (i & _ & Hrow). unfold tab in Hrow at 1.
    apply in_map_iff in Hrow. destruct Hrow as (j & <- & _).
    apply length_tab.
Qed.

Lemma length_create_xy (h w : nat) : length (create_xy h w) = (h * w)%nat.
Proof.
  unfold create_xy. rewrite flat_map_concat_map.
  apply (length_concat_tab (n := h) (m := w)
           (fun i => map (fun j => (j, i)) (seq 0 w))).
  intros k _. now rewrite length_map, length_seq.
Qed.

Lemma mapM_In {A B : Type} (f : A -> option B) (l : list A) (r : list B)
      (y : B) :
  mapM f l = Some r -> In y r -> exists x, In x l /\ f x = Some y.
Proof.
  intros H Hy. destruct (mapM_nth_error _ _ H) as [_ Hk].
  apply In_nth_error in Hy. destruct Hy as [k Hy].
  destruct (Hk k y Hy) as (x & Hx & Hf). exists x.
  split; [now apply nth_error_In with k | exact Hf].
Qed.

Lemma mapM_length {A B : Type} (f : A -> option B) (l : list A)
      (r : list B) :
  mapM f l = Some r -> length r = length l.
Proof. intros H. now destruct (mapM_nth_error _ _ H). Qed.

(** [extractDense] returns whenever the image is at least 32 pixels wide
    and high and the backbone's maps agree in shape; every image then
    gets [min(cells, top_k)] keypoints and descriptors. *)
Lemma extractDense_spec (x x' : Image) (rh rw : Q) (M1 K1 H1 : tensor4 Q)
      (top_k : nat) :
  preprocess x = Some (x', rh, rw) ->
  net x' = (M1, K1, H1) ->
  (sB H1 <= sB M1)%nat ->
  (sH H1 * sW H1 * sC H1 <= sH M1 * sW M1)%nat ->
  (64 <= sC M1)%nat ->
  exists mkpts feats,
    extract x top_k = Some (mkpts, feats)
    /\ length mkpts = sB H1 /\ length feats = sB H1
    /\ Forall (fun r => length r
                        = Nat.min (sH H1 * sW H1 * sC H1) top_k) mkpts
    /\ Forall (fun r => length r
                        = Nat.min (sH H1 * sW H1 * sC H1) top_k) feats.
Proof.
  intros Hpre Hnet HB Hcells HC. unfold extractDense.
  rewrite Hpre. unfold bind at 1. rewrite Hnet.
  set (cells := (sH H1 * sW H1 * sC H1)%nat) in *.
  set (M1f := map (@concat _) (permute0231 0 M1)).
  set (H1f := map (fun m => concat (concat m)) (permute0231 0 H1)).
  set (xy1 := map (fun p => (fst p * 8, snd p * 8)%nat)
                  (create_xy (sH M1) (sW M1))).
  set (T := map (fun row => firstn (Nat.min cells top_k)
                                   (argsort (map Qopp row))) H1f).
  assert (LT : length T = sB H1).
  { unfold T, H1f, permute0231. now rewrite !length_map, length_tab. }
  assert (LM : length M1f = sB M1).
  { unfold M1f, permute0231. now rewrite length_map, length_tab. }
  assert (Lxy : length xy1 = (sH M1 * sW M1)%nat).
  { unfold xy1. now rewrite length_map, length_create_xy. }
  assert (HT : forall t, In t T ->
               length t = Nat.min cells top_k
               /\ forall i, In i t -> (i < cells)%nat).
  { intros t Ht. unfold T in Ht. apply in_map_iff in Ht.
    destruct Ht as (row & <- & Hrow). apply length_flat_H1 in Hrow.
    fold cells in Hrow. split.
    - rewrite length_firstn, length_argsort, length_map, Hrow. lia.
    - intros i Hi. apply firstn_incl in Hi. apply argsort_in_range in Hi.
      now rewrite length_map, Hrow in Hi. }
  destruct (@mapM_total _ _
              (fun bi : nat * list nat =>
                 rows <- nth_error M1f (fst bi) ;;
                 mapM (fun i =>
                         row <- nth_error rows i ;;
                         if (64 <=? length row)%nat
                         then Some (firstn 64 row) else None)
                      (snd bi))
              (combine (seq 0 (length T)) T)) as [feats Hfeats].
  { intros [b t] Hbt. cbn [fst snd].
    assert (Hb : (b < length M1f)%nat).
    { apply in_combine_l in Hbt. apply in_seq in Hbt. lia. }
    apply in_combine_r in Hbt.
    destruct (nth_error M1f b) as [rows|] eqn:Er;
      [|apply nth_error_None in Er; lia].
    unfold bind at 1.
    apply nth_error_In in Er. apply flat_M1_rows in Er.
    destruct Er as [Lr Hr].
    apply mapM_total. intros i Hi. apply (HT t Hbt) in Hi.
    destruct (nth_error rows i) as [row|] eqn:Ei;
      [|apply nth_error_None in Ei; lia].
    unfold bind. apply nth_error_In in Ei. rewrite (Hr row Ei).
    apply Nat.leb_le in HC. rewrite HC. eauto. }
  destruct (@mapM_total _ _ (mapM (nth_error xy1)) T) as [mk Hmk].
  { intros t Ht. apply mapM_total. intros i Hi. apply (HT t Ht) in Hi.
    destruct (nth_error xy1 i) as [p|] eqn:Ei; [eauto|].
    apply nth_error_None in Ei. lia. }
  rewrite Hfeats. unfold bind at 1. rewrite Hmk. unfold bind.
  eexists. eexists. split; [reflexivity|].
  split; [now rewrite length_map, (@mapM_length _ _ _ _ _ Hmk)|].
  split.
  { rewrite (@mapM_length _ _ _ _ _ Hfeats), length_combine, length_seq. lia. }
  split.
  - apply Forall_forall. intros r Hr. apply in_map_iff in Hr.
    destruct Hr as (r0 & <- & Hr0). rewrite length_map.
    destruct (@mapM_In _ _ _ _ _ _ Hmk Hr0) as (t & Ht & E).
    rewrite (@mapM_length _ _ _ _ _ E). now apply HT.
  - apply Forall_forall. intros r Hr.
    destruct (@mapM_In _ _ _ _ _ _ Hfeats Hr) as ([b t] & Hbt & E).
    cbn [fst snd] in E. unfold bind in E.
    destruct (nth_error M1f b); [|discriminate].
    rewrite (@mapM_length _ _ _ _ _ E). apply in_combine_r in Hbt. now apply HT.
Qed.

(** C6.  With [top_k = 100], on an image whose two pyramid levels pass
    preprocessing and come back from the backbone with at least 20 and 80
    coarse cells, [extract_dualscale] returns: every image of the batch
    gets the 20 keypoints of the first level, divided by 0.6, followed by
    the 80 keypoints of the second, divided by 1.3; the scale tags are 20
    times [1/0.6] followed by 80 times [1/1.3]; the descriptors are
    concatenated in the same order. *)
Theorem extract_dualscale_split
        (x x1 x2 : Image) (rh1 rw1 rh2 rw2 : Q)
        (M1 K1 H1 M2 K2 H2 : tensor4 Q) :
  preprocess (interpolate_scale x (6 # 10)) = Some (x1, rh1, rw1) ->
  net x1 = (M1, K1, H1) ->
  preprocess (interpolate_scale x (13 # 10)) = Some (x2, rh2, rw2) ->
  net x2 = (M2, K2, H2) ->
  maps_agree M1 H1 -> maps_agree M2 H2 -> sB H1 = sB H2 ->
  (20 <= cells H1)%nat -> (80 <= cells H2)%nat ->
  exists m1 f1 m2 f2 mkpts sc feats,
    extract (interpolate_scale x (6 # 10)) 20 = Some (m1, f1)
    /\ extract (interpolate_scale x (13 # 10)) 80 = Some (m2, f2)
    /\ dualscale' (mkXFeat 100) x (6 # 10) (13 # 10)
       = Some (mkpts, sc, feats)
    /\ length mkpts = sB H1 /\ length sc = sB H1 /\ length feats = sB H1
    /\ forall b, (b < sB H1)%nat ->
         exists r1 r2 g1 g2,
           nth_error m1 b = Some r1 /\ nth_error m2 b = Some r2
           /\ nth_error f1 b = Some g1 /\ nth_error f2 b = Some g2
           /\ length r1 = 20%nat /\ length r2 = 80%nat
           /\ length g1 = 20%nat /\ length g2 = 80%nat
           /\ nth_error mkpts b
              = Some (map (fun p => (fst p / (6 # 10), snd p / (6 # 10))) r1
                      ++ map (fun p => (fst p / (13 # 10),
                                        snd p / (13 # 10))) r2)
           /\ nth_error sc b
              = Some (repeat (1 / (6 # 10)) 20 ++ repeat (1 / (13 # 10)) 80)
           /\ nth_error feats b = Some (g1 ++ g2).
Proof.
  intros P1 N1 P2 N2 (A1 & A2 & A3) (B1 & B2 & B3) HB C1 C2.
  unfold cells in *.
  destruct (@extractDense_spec _ _ _ _ _ _ _ 20%nat P1 N1 A1 A2 A3)
    as (m1 & f1 & E1 & Lm1 & Lf1 & Fm1 & Ff1).
  destruct (@extractDense_spec _ _ _ _ _ _ _ 80%nat P2 N2 B1 B2 B3)
    as (m2 & f2 & E2 & Lm2 & Lf2 & Fm2 & Ff2).
  rewrite Nat.min_r in Fm1, Ff1 by exact C1.
  rewrite Nat.min_r in Fm2, Ff2 by exact C2.
  rewrite Forall_forall in Fm1, Ff1, Fm2, Ff2.
  exists m1, f1, m2, f2. unfold extract_dualscale. cbn [self_top_k].
  assert (K1' : int_mul_float 100 f0_20 = Some 20%nat) by reflexivity.
  assert (K2' : int_mul_float 100 f0_80 = Some 80%nat) by reflexivity.
  rewrite K1', K2'. unfold bind. rewrite E1, E2.
  assert (Hlen : (length m1 =? length m2)%nat = true)
    by (apply Nat.eqb_eq; lia).
  rewrite Hlen. eexists. eexists. eexists.
  split; [reflexivity|]. split; [reflexivity|]. split; [reflexivity|].
  unfold map2.
  rewrite !length_map, !length_combine, !length_map.
  split; [lia|]. split; [lia|]. split; [lia|].
  intros b Hb.
  destruct (nth_error m1 b) as [r1|] eqn:R1;
    [|apply nth_error_None in R1; lia].
  destruct (nth_error m2 b) as [r2|] eqn:R2;
    [|apply nth_error_None in R2; lia].
  destruct (nth_error f1 b) as [g1|] eqn:G1;
    [|apply nth_error_None in G1; lia].
  destruct (nth_error f2 b) as [g2|] eqn:G2;
    [|apply nth_error_None in G2; lia].
  exists r1, r2, g1, g2.
  pose proof (Fm1 r1 (nth_error_In _ _ R1)) as Lr1.
  pose proof (Fm2 r2 (nth_error_In _ _ R2)) as Lr2.
  pose proof (Ff1 g1 (nth_error_In _ _ G1)) as Lg1.
  pose proof (Ff2 g2 (nth_error_In _ _ G2)) as Lg2.
  repeat (split; [first [reflexivity | assumption]|]).
  fold (map2 (@app (Q * Q))
             (map (map (fun p => (fst p / (6 # 10), snd p / (6 # 10)))) m1)
             (map (map (fun p => (fst p / (13 # 10), snd p / (13 # 10))))
                  m2)).
  fold (map2 (@app Q)
             (map (fun r : list (Q * Q) => repeat (1 / (6 # 10)) (length r))
                  m1)
             (map (fun r : list (Q * Q) => repeat (1 / (13 # 10)) (length r))
                  m2)).
  fold (map2 (@app (list Q)) f1 f2).
  rewrite !nth_error_map2, !nth_error_map, R1, R2, G1, G2. cbn [option_map].
  rewrite Lr1, Lr2. repeat split; reflexivity.
Qed.

End DenseFacts.

(** ** DensePipeline on the concrete instance *)

Section DenseExamples.

Import Pipeline Demo.
Local Open Scope Q_scope.

(** C6, on a 96x128 image: 192 coarse cells at both levels. *)
Lemma extract_dualscale_split_witness :
  exists mkpts sc feats,
    dualscale (mkXFeat 100) large_image (6 # 10) (13 # 10)
    = Some (mkpts, sc, feats)
    /\ length mkpts = 1%nat
    /\ nth_error sc 0
       = Some (repeat (1 / (6 # 10)) 20 ++ repeat (1 / (13 # 10)) 80).
Proof.
  pose proof (fun P1 N1 P2 N2 A1 A2 HB C1 C2 =>
    @extract_dualscale_split
      image im_shape resize rescale backbone large_image
      (resize large_image 96 128) (resize large_image 96 128)
      (96 # 96) (128 # 128) (96 # 96) (128 # 128)
      (fst (fst (backbone (resize large_image 96 128))))
      (snd (fst (backbone (resize large_image 96 128))))
      (snd (backbone (resize large_image 96 128)))
      (fst (fst (backbone (resize large_image 96 128))))
      (snd (fst (backbone (resize large_image 96 128))))
      (snd (backbone (resize large_image 96 128)))
      P1 N1 P2 N2 A1 A2 HB C1 C2) as H.
  destruct H as (m1 & f1 & m2 & f2 & mkpts & sc & feats
                 & _ & _ & E & Lm & _ & _ & Hb);
    try reflexivity.
  - unfold maps_agree, cells. simpl. lia.
  - unfold maps_agree, cells. simpl. lia.
  - unfold cells. simpl. lia.
  - unfold cells. simpl. lia.
  - exists mkpts, sc, feats. split; [exact E|]. split; [exact Lm|].
    destruct (Hb 0%nat) as (r1 & r2 & g1 & g2 & _ & _ & _ & _ & _ & _ & _
                             & _ & _ & Hsc & _); [simpl; lia|].
    exact Hsc.
Defined.

End DenseExamples.

(** ** SparsePipeline on the concrete instance *)

Section SparseExamples.

Import Pipeline Demo.
Local Open Scope Q_scope.

(** C5, on a batch of two images, the first with a detection at the
    origin pixel. *)
Lemma detectAndCompute_sentinel_and_filter_witness :
  exists res, detect (XFeat_init None) two_images = Some res
  /\ exists fr,
    front_of im_shape resize backbone (fun t => t) (fun _ v => v) two_images
    = Some fr
    /\ length res = f_B fr
    /\ (forall b cand scs k,
          nth_error (f_mkpts fr) b = Some cand ->
          nth_error (score_candidates sample_one (f_K1h fr) (f_H1 fr)
                                      (f_H fr) (f_W fr) (f_mkpts fr)) b
          = Some scs ->
          nth_error cand k = Some (0, 0)%nat ->
          nth_error scs k = Some (- (1)))
    /\ (forall b kps descs,
          nth_error res b = Some (kps, descs) ->
          exists cand scs r,
            nth_error (f_mkpts fr) b = Some cand
            /\ nth_error (score_candidates sample_one (f_K1h fr) (f_H1 fr)
                                           (f_H fr) (f_W fr) (f_mkpts fr)) b
               = Some scs
            /\ Permutation r (combine cand scs)
            /\ StronglySorted (fun a c => snd c <= snd a) r
            /\ kps = map (keypoint_of fr)
                         (filter (fun e => Qgtb (snd e) 0) (firstn 4096 r))
            /\ descs = map (descriptor_of (fun v => v) sample_vec fr b)
                           (filter (fun e => Qgtb (snd e) 0)
                                   (firstn 4096 r))).
Proof.
  eexists. split; [vm_compute; reflexivity|].
  apply (@detectAndCompute_sentinel_and_filter
           image im_shape resize backbone (fun t => t) (fun v => v)
           (fun _ v => v) sample_one sample_vec (XFeat_init None) two_images).
  vm_compute. reflexivity.
Defined.

(** C9, on the same batch: the first image has a genuine detection at
    the origin pixel with heatmap value 3/4, and it is not returned. *)
Lemma detectAndCompute_no_origin_keypoint_witness :
  Selector.NMS (mk4 1 1 3 3 [[[[3 # 4; 0; 0]; [0; 0; 0]; [0; 0; 1 # 2]]]])
               (5 # 100) 5
  = Some [[(0, 0)%nat]]
  /\ pixel two_images 0 0 0 = 3 # 4
  /\ (exists fr p,
        front_of im_shape resize backbone (fun t => t) (fun _ v => v)
                 two_images = Some fr
        /\ p <> (0, 0)%nat
        /\ (320 # 32, 640 # 32, 1 # 2) = keypoint_of fr (p, 1 # 2))
  /\ ~ (320 # 32 == 0 /\ 640 # 32 == 0).
Proof.
  split; [reflexivity|]. split; [reflexivity|].
  apply (@detectAndCompute_no_origin_keypoint
           image im_shape resize backbone (fun t => t) (fun v => v)
           (fun _ v => v) sample_one sample_vec (XFeat_init None) two_images
           [([(320 # 32, 640 # 32, 1 # 2); (640 # 32, 288 # 32, 1 # 4)],
             [[10; 20]; [20; 9]]);
            ([(160 # 32, 160 # 32, 1 # 3)], [[5; 5]])]
           0%nat
           [(320 # 32, 640 # 32, 1 # 2); (640 # 32, 288 # 32, 1 # 4)]
           [[10; 20]; [20; 9]]).
  - vm_compute. reflexivity.
  - reflexivity.
  - left. reflexivity.
Defined.

(** C8.  The docstring of [detectAndCompute] lists [top_k] among the
    inputs, but the signature is [(self, x)]: on the batch of two images
    a call that passes [top_k = 1] raises instead of returning at most
    one feature per image, and the call without it, on an instance
    built with the default [top_k] of 4096, returns two features for
    the first image. *)
Lemma detectAndCompute_top_k_keyword_raises :
  detect_call (XFeat_init None) two_images [(Keywords.kw_top_k, 1%nat)]
  = None
  /\ self_top_k (XFeat_init None) = 4096%nat
  /\ exists res kps descs,
       detect_call (XFeat_init None) two_images [] = Some res
       /\ nth_error res 0 = Some (kps, descs)
       /\ length kps = 2%nat.
Proof.
  split; [reflexivity|]. split; [reflexivity|].
  eexists. eexists. eexists.
  split; [vm_compute; reflexivity|]. split; reflexivity.
Qed.

(** X26, on the same batch with [top_k = 1]. *)
Lemma detectAndCompute_at_most_top_k_witness :
  let res := [([(320 # 32, 640 # 32, 1 # 2)], [[10; 20]]);
              ([(160 # 32, 160 # 32, 1 # 3)], [[5; 5]])] in
  detect (XFeat_init (Some 1%nat)) two_images = Some res
  /\ (length (fst (nth 0 res ([], []))) <= 1)%nat
  /\ length (snd (nth 0 res ([], []))) = length (fst (nth 0 res ([], []))).
Proof.
  assert (H1 : detect (XFeat_init (Some 1%nat)) two_images
               = Some [([(320 # 32, 640 # 32, 1 # 2)], [[10; 20]]);
                       ([(160 # 32, 160 # 32, 1 # 3)], [[5; 5]])])
    by (vm_compute; reflexivity).
  intros res. split; [exact H1|].
  pose proof (@detectAndCompute_at_most_top_k
                image im_shape resize backbone (fun t => t) (fun v => v)
                (fun _ v => v) sample_one sample_vec
                (XFeat_init (Some 1%nat)) two_images
                [([(320 # 32, 640 # 32, 1 # 2)], [[10; 20]]);
                 ([(160 # 32, 160 # 32, 1 # 3)], [[5; 5]])]
                0%nat
                [(320 # 32, 640 # 32, 1 # 2)] [[10; 20]] H1 eq_refl) as H.
  destruct H as (Hlen & Hd & _).
  split; [exact Hlen | exact Hd].
Defined.

End SparseExamples.

(** ** Refiner *)

Section RefinerFacts.

Import Decoder Refiner.
Local Open Scope R_scope.

Variable fine_matcher : list R -> list R.

Lemma Rgtb_true (a b : R) : Rgtb a b = true <-> b < a.
Proof.
  unfold Rgtb. destruct (Rlt_dec b a); split; intros H; try easy.
Qed.

(** A failing gather on the tail of the index tensors: both sides
    raise. *)
Ltac tail_fails :=
  cbn [bind];
  match goal with
  | |- _ -> _ = (if ?c then _ else _) => destruct c; [|reflexivity]
  end;
  match goal with
  | |- None = option_map _ ?m -> _ =>
      destruct m; [intros H; discriminate H | intros _]
  end;
  repeat match goal with
         | |- context [index2 ?t ?i] => destruct (index2 t i); cbn [bind]
         end;
  cbn [option_map]; try reflexivity;
  match goal with
  | |- context [(?n =? 64)%nat] => destruct (n =? 64)%nat; reflexivity
  end.

(** [refine_matches] is the per-correspondence refinement followed by
    the confidence filter; it raises when the two index tensors differ in
    length or some correspondence cannot be refined. *)
Lemma refine_matches_nf (d0 d1 : dense_features) (fine_conf : R) :
  forall idx0_b idx1_b,
    refine_matches fine_matcher d0 d1 idx0_b idx1_b fine_conf
    = if (length idx0_b =? length idx1_b)%nat
      then option_map (emitted fine_conf)
                      (mapM (refine_one fine_matcher d0 d1)
                            (combine idx0_b idx1_b))
      else None.
Proof.
  induction idx0_b as [|a t IH]; intros [|b t'].
  - reflexivity.
  - unfold refine_matches. cbn [mapM bind length Nat.eqb].
    destruct (index2 (descriptors d1) b); [|reflexivity]. cbn [bind].
    destruct (mapM (index2 (descriptors d1)) t'); [|reflexivity]. cbn [bind].
    destruct (index2 (keypoints d1) b); [|reflexivity]. cbn [bind].
    destruct (mapM (index2 (keypoints d1)) t'); reflexivity.
  - unfold refine_matches. cbn [mapM bind length Nat.eqb].
    destruct (index2 (descriptors d0) a); [|reflexivity]. cbn [bind].
    destruct (mapM (index2 (descriptors d0)) t); [|reflexivity]. cbn [bind].
    destruct (index2 (keypoints d0) a); [|reflexivity]. cbn [bind].
    destruct (mapM (index2 (keypoints d0)) t); [|reflexivity]. cbn [bind].
    destruct (index2 (scales d0) a); [|reflexivity]. cbn [bind].
    destruct (mapM (index2 (scales d0)) t); reflexivity.
  - specialize (IH t'). revert IH. unfold refine_matches.
    cbn [mapM bind length Nat.eqb combine]. unfold refine_one at 2.
    cbn [fst snd].
    destruct (index2 (descriptors d0) a) as [f1|];
      [|intros _; cbn [bind option_map]; now destruct (_ =? _)%nat].
    destruct (mapM (index2 (descriptors d0)) t) as [F1|].
    2:{ tail_fails. }
    destruct (index2 (descriptors d1) b) as [f2|];
      [|intros _; cbn [bind option_map]; now destruct (_ =? _)%nat].
    destruct (mapM (index2 (descriptors d1)) t') as [F2|].
    2:{ tail_fails. }
    destruct (index2 (keypoints d0) a) as [p0|];
      [|intros _; cbn [bind option_map]; now destruct (_ =? _)%nat].
    destruct (mapM (index2 (keypoints d0)) t) as [P0|].
    2:{ tail_fails. }
    destruct (index2 (keypoints d1) b) as [p1|];
      [|intros _; cbn [bind option_map]; now destruct (_ =? _)%nat].
    destruct (mapM (index2 (keypoints d1)) t') as [P1|].
    2:{ tail_fails. }
    destruct (index2 (scales d0) a) as [s0|];
      [|intros _; cbn [bind option_map]; now destruct (_ =? _)%nat].
    destruct (mapM (index2 (scales d0)) t) as [S0|].
    2:{ tail_fails. }
    unfold map2.
    cbn [bind length Nat.eqb combine map forallb fst snd].
    destruct (length F1 =? length F2)%nat; cbn [negb].
    2:{ destruct (length t =? length t')%nat; [|reflexivity].
        destruct (mapM _ (combine t t')); [intros H; discriminate H|].
        intros _. now destruct (_ =? 64)%nat. }
    destruct (forallb _ _); cbn [negb andb].
    2:{ rewrite andb_false_r. cbn [negb].
        destruct (length t =? length t')%nat; [|reflexivity].
        destruct (mapM _ (combine t t')); [intros H; discriminate H|].
        intros _. now destruct (_ =? 64)%nat. }
    rewrite andb_true_r.
    destruct (length (fine_matcher (f1 ++ f2)) =? 64)%nat; cbn [negb bind].
    2:{ intros _. now destruct (length t =? length t')%nat. }
    destruct (length t =? length t')%nat; [|intros H; discriminate H].
    destruct (mapM _ (combine t t')) as [ys|]; [|intros H; discriminate H].
    cbn [bind option_map]. unfold emitted. cbn [filter c_conf mask_select].
    intros H. injection H as E1 E2.
    destruct (Rgtb _ fine_conf); cbn [map combine c_match c_batch];
      now rewrite E1, E2.
Qed.

Lemma Rsum_repeat (e : R) (n : nat) : Rsum (repeat e n) = INR n * e.
Proof.
  induction n as [|n IH]; [unfold Rsum; simpl; ring|].
  change (Rsum (repeat e (S n))) with (e + Rsum (repeat e n)).
  rewrite IH, S_INR. ring.
Qed.

Lemma softmaxR_repeat (v : R) (n : nat) :
  (0 < n)%nat -> softmaxR (repeat v n) = repeat (1 / INR n) n.
Proof.
  intros Hn. unfold softmaxR. rewrite !map_repeat, Rsum_repeat.
  f_equal. pose proof (exp_pos v). assert (0 < INR n) by now apply lt_0_INR.
  field. split; lraR.
Qed.

Lemma Rmax_list_repeat (x : R) (n : nat) : Rmax_list (repeat x (S n)) = x.
Proof.
  simpl. induction n as [|n IH]; simpl; [reflexivity|].
  rewrite IH. apply Rmax_left. lraR.
Qed.

(** Uniform logits have fine-confidence exactly 1/64. *)
Lemma uniform_confidence (c : R) :
  Rmax_list (softmaxR (map (fun v => v * 3) (repeat c 64))) = 1 / 64.
Proof.
  rewrite map_repeat, softmaxR_repeat by lia.
  rewrite (Rmax_list_repeat _ 63), INR_IZR_INZ. reflexivity.
Qed.

Lemma refine_one_uniform (d0 d1 : dense_features)
      (c : (nat * nat) * (nat * nat)) :
  (forall v, exists u, fine_matcher v = repeat u 64) ->
  in_range d0 d1 c ->
  exists cand, refine_one fine_matcher d0 d1 c = Some cand
               /\ c_conf cand = 1 / 64.
Proof.
  intros Hu (H1 & H2 & H3 & H4 & H5). unfold refine_one, bind.
  destruct (index2 (descriptors d0) (fst c)) as [f1|]; [|congruence].
  destruct (index2 (descriptors d1) (snd c)) as [f2|]; [|congruence].
  destruct (index2 (keypoints d0) (fst c)) as [p0|]; [|congruence].
  destruct (index2 (keypoints d1) (snd c)) as [p1|]; [|congruence].
  destruct (index2 (scales d0) (fst c)) as [s0|]; [|congruence].
  destruct (Hu (f1 ++ f2)) as [u ->]. rewrite repeat_length.
  change (64 =? 64)%nat with true. cbv iota.
  eexists. split; [reflexivity|]. cbn [c_conf]. apply uniform_confidence.
Qed.


End RefinerFacts.

(** ** Refiner on a concrete instance *)

Section RefinerExamples.

Import Refiner.
Local Open Scope R_scope.


End RefinerExamples.

(** ** Matcher defaults on a concrete pair *)

Section MatcherExamples.

Import Matcher Pipeline Demo.
Local Open Scope Q_scope.

(** C10, on two descriptor sets with mutual pairs of similarity 1 and
    4/5: the default call keeps only the first, threshold [-1] keeps
    both. *)
Lemma match_default_threshold_witness :
  let feats1 := mk2 2 2 [[1; 0]; [3 # 5; 4 # 5]] in
  let feats2 := mk2 2 2 [[1; 0]; [0; 1]] in
  match_call feats1 feats2 None = match_ feats1 feats2 (95 # 100)
  /\ match_call feats1 feats2 None = Some ([0], [0])%nat
  /\ match_call feats1 feats2 (Some (- (1))) = Some ([0; 1], [0; 1])%nat.
Proof.
  intros feats1 feats2. split; [|split; reflexivity].
  apply (proj1 (@match_default_threshold
                  image im_shape resize rescale (fun x => x) backbone
                  (fun t => t) (fun v => v) (fun _ v => v)
                  sample_one sample_vec)).
Defined.

End MatcherExamples.

(** * Further properties of the code *)

(** ** Matcher: errors, one-to-one matching, symmetry *)

Section MatcherMore.

Import Matcher Reference.
Local Open Scope Q_scope.

Lemma filter_seq_sorted (p : nat -> bool) (s n : nat) :
  StronglySorted lt (filter p (seq s n)).
Proof.
  revert s. induction n as [|n IH]; intros s; simpl; [constructor|].
  destruct (p s); [|apply IH].
  constructor; [apply IH|].
  apply Forall_forall. intros k Hk. apply filter_In in Hk.
  destruct Hk as [Hk _]. apply in_seq in Hk. lia.
Qed.

Lemma sorted_lt_NoDup (l : list nat) : StronglySorted lt l -> NoDup l.
Proof.
  induction 1 as [|a l Hs IH Ha]; constructor; [|exact IH].
  intros Hin. rewrite Forall_forall in Ha. specialize (Ha a Hin). lia.
Qed.

Lemma NoDup_map_inj_in {A B : Type} (f : A -> B) (l : list A) :
  (forall x y, In x l -> In y l -> f x = f y -> x = y) ->
  NoDup l -> NoDup (map f l).
Proof.
  intros Hinj Hl. induction Hl as [|a l Ha Hl IH]; simpl; constructor.
  - intros Hin. apply in_map_iff in Hin. destruct Hin as (y & E & Hy).
    apply Ha. rewrite <- (Hinj y a); [exact Hy | now right | now left | exact E].
  - apply IH. intros x y Hx Hy. apply Hinj; now right.
Qed.

Lemma mnn_mutual (a b : list (list Q)) (t : Q) (i : nat) :
  In i (mnn a b t) ->
  (i < length a)%nat /\ am21 a b (am12 a b i) = i.
Proof.
  unfold mnn. intros H. apply filter_In in H. destruct H as [Hi Hk].
  apply in_seq in Hi. unfold keepf in Hk. apply andb_prop in Hk.
  destruct Hk as [Hk _]. apply Nat.eqb_eq in Hk. split; [lia | exact Hk].
Qed.

Lemma match_ok_true_iff (feats1 feats2 : tensor2) :
  wf2 feats1 = true -> wf2 feats2 = true ->
  (match_ok feats1 feats2 = false
   <-> rows2 feats1 = 0%nat \/ rows2 feats2 = 0%nat
       \/ cols2 feats1 <> cols2 feats2).
Proof.
  intros W1 W2. unfold match_ok. rewrite W1, W2. cbn [andb].
  destruct (Nat.eqb_spec (cols2 feats1) (cols2 feats2)) as [Ec|Ec];
    destruct (Nat.eqb_spec (rows2 feats1) 0) as [E1|E1];
    destruct (Nat.eqb_spec (rows2 feats2) 0) as [E2|E2]; cbn;
    split; intros H; try reflexivity; try discriminate H; try tauto.
Qed.

(** X1.  [match] raises exactly when one of the two descriptor sets is
    empty or the descriptors of the two sets differ in length; on all
    other well-formed inputs it returns, whatever the threshold. *)
Theorem match_raises_iff (feats1 feats2 : tensor2) (min_cossim : Q) :
  wf2 feats1 = true -> wf2 feats2 = true ->
  (match_ feats1 feats2 min_cossim = None
   <-> rows2 feats1 = 0%nat \/ rows2 feats2 = 0%nat
       \/ cols2 feats1 <> cols2 feats2).
Proof.
  intros W1 W2. rewrite <- (match_ok_true_iff _ _ W1 W2), match_nf.
  destruct (match_ok feats1 feats2); split; intros H;
    try reflexivity; discriminate H.
Qed.

Lemma NoDup_incl_seq_length (l : list nat) (n : nat) :
  NoDup l -> (forall k, In k l -> (k < n)%nat) -> (length l <= n)%nat.
Proof.
  intros Hn Hk. rewrite <- (length_seq n 0). apply NoDup_incl_length; [exact Hn|].
  intros k Hin. apply in_seq. specialize (Hk k Hin). lia.
Qed.

(** The indices [match] returns, in the normal form of [match_nf]. *)
Lemma mnn_one_to_one (a b : list (list Q)) (t : Q) :
  b <> [] ->
  StronglySorted lt (mnn a b t)
  /\ NoDup (map (am12 a b) (mnn a b t))
  /\ Forall (fun i => (i < length a)%nat) (mnn a b t)
  /\ Forall (fun j => (j < length b)%nat) (map (am12 a b) (mnn a b t)).
Proof.
  intros Hb.
  assert (Hs : StronglySorted lt (mnn a b t)) by apply filter_seq_sorted.
  split; [exact Hs|]. split; [|split].
  - apply NoDup_map_inj_in; [|now apply sorted_lt_NoDup].
    intros x y Hx Hy E. apply mnn_mutual in Hx, Hy.
    destruct Hx as [_ Hx], Hy as [_ Hy]. rewrite <- Hx, <- Hy. now rewrite E.
  - apply Forall_forall. intros i Hi. now apply mnn_mutual in Hi.
  - apply Forall_forall. intros j Hj. apply in_map_iff in Hj.
    destruct Hj as (i & <- & _). now apply am12_lt.
Qed.

(** X2.  The correspondences [match] returns are a one-to-one partial
    matching: the two index tensors have the same length, the left
    indices are strictly increasing, no right index occurs twice, all
    indices address a descriptor of their set, and there are at most
    [min(N, M)] correspondences. *)
Theorem match_one_to_one (feats1 feats2 : tensor2) (min_cossim : Q)
        (idx0 idx1 : list nat) :
  match_ feats1 feats2 min_cossim = Some (idx0, idx1) ->
  length idx0 = length idx1
  /\ StronglySorted lt idx0
  /\ NoDup idx1
  /\ Forall (fun i => (i < rows2 feats1)%nat) idx0
  /\ Forall (fun j => (j < rows2 feats2)%nat) idx1
  /\ (length idx0 <= Nat.min (rows2 feats1) (rows2 feats2))%nat.
Proof.
  intros Hm. rewrite match_nf in Hm.
  destruct (match_ok feats1 feats2) eqn:Hok; [|discriminate].
  destruct (match_ok_shapes _ _ Hok) as (L1 & L2 & Hb).
  injection Hm as <- <-.
  destruct (@mnn_one_to_one (data2 feats1) (data2 feats2) min_cossim Hb)
    as (Hs & Hn & H0 & H1).
  rewrite L1 in H0. rewrite L2 in H1.
  split; [now rewrite length_map|]. repeat (split; [assumption|]).
  apply Nat.min_glb.
  - apply NoDup_incl_seq_length; [now apply sorted_lt_NoDup|].
    now apply Forall_forall.
  - rewrite <- (length_map (am12 (data2 feats1) (data2 feats2))).
    apply NoDup_incl_seq_length; [exact Hn | now apply Forall_forall].
Qed.

Lemma Qgtb_ext (x y t : Q) : x == y -> Qgtb x t = Qgtb y t.
Proof.
  intros E. destruct (Qgtb y t) eqn:Ey.
  - apply Qgtb_true. apply Qgtb_true in Ey. now rewrite E.
  - apply Qgtb_false. apply Qgtb_false in Ey. now rewrite E.
Qed.

(** A kept pair is kept, reversed, when the two sets are swapped. *)
Lemma mnn_swap (a b : list (list Q)) (t : Q) (i : nat) :
  a <> [] -> b <> [] -> In i (mnn a b t) ->
  In (am12 a b i) (mnn b a t) /\ am12 b a (am12 a b i) = i.
Proof.
  intros Ha Hb Hi.
  destruct (mnn_mutual _ _ _ _ Hi) as [Hlt Hmut].
  assert (Hj : (am12 a b i < length b)%nat) by now apply am12_lt.
  change (am21 a b (am12 a b i)) with (am12 b a (am12 a b i)) in Hmut.
  split; [|exact Hmut].
  unfold mnn in *. apply filter_In in Hi. destruct Hi as [_ Hk].
  apply filter_In. split; [apply in_seq; lia|].
  unfold keepf in *. apply andb_prop in Hk. destruct Hk as [_ Hthr].
  apply andb_true_intro. split.
  - change (am21 b a (am12 b a (am12 a b i))) with
      (am12 a b (am12 b a (am12 a b i))).
    rewrite Hmut. apply Nat.eqb_refl.
  - destruct (Qgtb t 0); [|reflexivity].
    rewrite <- Hthr. apply Qgtb_ext.
    rewrite (@mx12_cossim b a _ Ha), (@mx12_cossim a b _ Hb), Hmut.
    unfold cossim_at. apply dot_comm.
Qed.

Lemma match_ok_sym (feats1 feats2 : tensor2) :
  match_ok feats2 feats1 = match_ok feats1 feats2.
Proof.
  unfold match_ok. rewrite (Nat.eqb_sym (cols2 feats2)).
  destruct (wf2 feats1), (wf2 feats2), (cols2 feats1 =? cols2 feats2)%nat,
    (rows2 feats1 =? 0)%nat, (rows2 feats2 =? 0)%nat; reflexivity.
Qed.

Lemma NoDup_pairs {A B : Type} (f : A -> B) (l : list A) :
  NoDup l -> NoDup (map (fun i => (i, f i)) l).
Proof.
  intros H. apply NoDup_map_inj_in; [|exact H]. intros x y _ _ E. congruence.
Qed.

(** X3.  [match] is symmetric in its two sets: when it returns on
    [(feats1, feats2)] it returns on [(feats2, feats1)] with the same
    threshold, and the pairs it returns there are the reversed pairs, up
    to their order. *)
Theorem match_symmetric (feats1 feats2 : tensor2) (min_cossim : Q)
        (idx0 idx1 : list nat) :
  match_ feats1 feats2 min_cossim = Some (idx0, idx1) ->
  exists idx0' idx1',
    match_ feats2 feats1 min_cossim = Some (idx0', idx1')
    /\ Permutation (combine idx0' idx1')
                   (map (fun p => (snd p, fst p)) (combine idx0 idx1)).
Proof.
  intros Hm. rewrite match_nf in *. rewrite match_ok_sym.
  destruct (match_ok feats1 feats2) eqn:Hok; [|discriminate].
  destruct (match_ok_shapes _ _ Hok) as (_ & _ & Hb).
  rewrite <- match_ok_sym in Hok.
  destruct (match_ok_shapes _ _ Hok) as (_ & _ & Ha).
  injection Hm as <- <-. eexists. eexists. split; [reflexivity|].
  set (a := data2 feats1) in *. set (b := data2 feats2) in *.
  rewrite !mnn_pairs, map_map. cbn [fst snd].
  apply NoDup_Permutation.
  - apply NoDup_pairs, sorted_lt_NoDup, filter_seq_sorted.
  - apply NoDup_map_inj_in.
    + intros x y _ _ E. congruence.
    + apply sorted_lt_NoDup, filter_seq_sorted.
  - intros [j i]. rewrite !in_map_iff. split.
    + intros (j' & E & Hj). injection E as -> <-.
      destruct (@mnn_swap b a min_cossim j Hb Ha Hj) as [Hin Hback].
      exists (am12 b a j). split; [now rewrite Hback | exact Hin].
    + intros (i' & E & Hi). injection E as <- <-.
      destruct (@mnn_swap a b min_cossim i' Ha Hb Hi) as [Hin Hback].
      exists (am12 a b i'). split; [now rewrite Hback | exact Hin].
Qed.

Lemma wf3_rect (t : tensor3) (bi : nat) :
  wf3 t = true -> (bi < dim0 t)%nat ->
  rect (dim1 t) (dim2 t) (nth bi (data3 t) []) = true.
Proof.
  unfold wf3. intros H Hb. apply andb_prop in H. destruct H as [Hl Hf].
  apply Nat.eqb_eq in Hl. rewrite forallb_forall in Hf.
  apply Hf. apply nth_In. lia.
Qed.

Lemma batch_ok_select0 (feats1 feats2 : tensor3) (b : nat) :
  batch_ok feats1 feats2 = true -> (b < dim0 feats1)%nat ->
  match_ok (select0 feats1 b) (select0 feats2 b) = true.
Proof.
  unfold batch_ok. intros H Hb.
  apply andb_prop in H; destruct H as [H Hn1].
  apply andb_prop in H; destruct H as [H Hn2].
  apply andb_prop in H; destruct H as [H Hd2].
  apply andb_prop in H; destruct H as [H Hd0].
  apply andb_prop in H; destruct H as [W1 W2].
  apply Nat.eqb_eq in Hd0.
  unfold match_ok, wf2, select0. cbn [rows2 cols2 data2].
  rewrite (wf3_rect _ W1 Hb), (wf3_rect _ W2) by lia.
  now rewrite Hd2, Hn1, Hn2.
Qed.

(** X4.  [batch_match] is [match] on every element of the batch: when it
    returns, [match] returns on every pair [(feats1[b], feats2[b])], and
    the two index tensors are the concatenation, over the batch in order,
    of the indices [match] returns there, each tagged with its batch
    index [b]. *)
Theorem batch_match_per_image (feats1 feats2 : tensor3) (min_cossim : Q)
        (idx0_b idx1_b : list (nat * nat)) :
  batch_match feats1 feats2 min_cossim = Some (idx0_b, idx1_b) ->
  exists per : list (list nat * list nat),
    length per = dim0 feats1
    /\ (forall b r, nth_error per b = Some r ->
          match_ (select0 feats1 b) (select0 feats2 b) min_cossim = Some r)
    /\ idx0_b = concat (mapi (fun b r => map (pair b) (fst r)) per)
    /\ idx1_b = concat (mapi (fun b r => map (pair b) (snd r)) per).
Proof.
  intros Hm. rewrite batch_nf in Hm.
  destruct (batch_ok feats1 feats2) eqn:Hok; [|discriminate].
  injection Hm as <- <-.
  assert (Hl : length (data3 feats1) = dim0 feats1).
  { unfold batch_ok in Hok.
    do 5 (apply andb_prop in Hok; destruct Hok as [Hok _]).
    unfold wf3 in Hok. apply andb_prop in Hok. now apply Nat.eqb_eq. }
  set (F1 := data3 feats1) in *. set (F2 := data3 feats2).
  set (g := fun b => (mnn (nth b F1 []) (nth b F2 []) min_cossim,
                      map (am12 (nth b F1 []) (nth b F2 []))
                          (mnn (nth b F1 []) (nth b F2 []) min_cossim))).
  exists (map g (seq 0 (dim0 feats1))).
  split; [now rewrite length_map, length_seq|]. split; [|split].
  - intros b r Hr. rewrite nth_error_map, nth_error_seq in Hr.
    destruct (b <? dim0 feats1) eqn:Eb; [|discriminate].
    apply Nat.ltb_lt in Eb. cbn [option_map] in Hr. injection Hr as <-.
    rewrite match_nf, (batch_ok_select0 _ _ Hok Eb). reflexivity.
  - unfold mapi, batch_pairs. rewrite length_map, length_seq, map2_map_r_same.
    rewrite Hl. reflexivity.
  - unfold mapi, batch_pairs. rewrite length_map, length_seq, map2_map_r_same.
    rewrite Hl. f_equal. apply map_ext. intros b. cbn [g snd].
    now rewrite map_map.
Qed.

Lemma mnn_nonpositive (a b : list (list Q)) (t : Q) :
  t <= 0 -> mnn a b t = mnn a b (- (1)).
Proof.
  intros Ht. unfold mnn. apply filter_ext. intros i. unfold keepf.
  assert (Qgtb t 0 = false) as -> by now apply Qgtb_false.
  reflexivity.
Qed.

(** X5.  A threshold that is not positive is ignored by [match] and by
    [batch_match]: the result is that of threshold [-1], so mutual pairs
    whose similarity lies below a negative threshold are returned as
    well. *)
Theorem nonpositive_threshold_ignored (min_cossim : Q) :
  min_cossim <= 0 ->
  (forall feats1 feats2,
      match_ feats1 feats2 min_cossim = match_ feats1 feats2 (- (1)))
  /\ (forall feats1 feats2,
        batch_match feats1 feats2 min_cossim
        = batch_match feats1 feats2 (- (1))).
Proof.
  intros Ht. split.
  - intros feats1 feats2. rewrite !match_nf.
    now rewrite (mnn_nonpositive _ _ Ht).
  - intros feats1 feats2. rewrite !batch_nf. unfold batch_pairs.
    destruct (batch_ok feats1 feats2); [|reflexivity].
    f_equal. f_equal; f_equal; apply map_ext; intros bi;
      now rewrite (mnn_nonpositive _ _ Ht).
Qed.

End MatcherMore.

(** ** KeypointSelector: the detections of [NMS] *)

Section SelectorFacts.

Import Selector Reference.
Local Open Scope Q_scope.

Lemma Qmaxb_ge (a b : Q) : a <= Qmaxb a b /\ b <= Qmaxb a b.
Proof.
  unfold Qmaxb. destruct (Qgtb b a) eqn:E.
  - apply Qgtb_true in E. split; [now apply Qlt_le_weak | apply Qle_refl].
  - apply Qgtb_false in E. split; [apply Qle_refl | exact E].
Qed.

Lemma fold_Qmaxb_ge (init : Q) (l : list Q) :
  init <= fold_right Qmaxb init l
  /\ forall e, In e l -> e <= fold_right Qmaxb init l.
Proof.
  induction l as [|x l [IH1 IH2]]; simpl.
  - split; [apply Qle_refl | contradiction].
  - destruct (Qmaxb_ge x (fold_right Qmaxb init l)) as [H1 H2]. split.
    + now apply Qle_trans with (fold_right Qmaxb init l).
    + intros e [<-|He]; [exact H1|].
      apply Qle_trans with (fold_right Qmaxb init l); [now apply IH2 | exact H2].
Qed.

Lemma fold_Qmaxb_eq (init : Q) (l : list Q) :
  (forall e, In e l -> e <= init) -> fold_right Qmaxb init l == init.
Proof.
  induction l as [|x l IH]; intros H; simpl; [reflexivity|].
  assert (E : fold_right Qmaxb init l == init)
    by (apply IH; intros e He; apply H; now right).
  unfold Qmaxb at 1. destruct (Qgtb (fold_right Qmaxb init l) x) eqn:G;
    [exact E|].
  apply Qgtb_false in G. rewrite E in G.
  apply Qle_antisym; [apply H; now left | exact G].
Qed.

Lemma In_window (pad n r r' : nat) :
  In r' (window pad n r)
  <-> (r' < n)%nat /\ (r <= r' + pad)%nat /\ (r' <= r + pad)%nat.
Proof.
  unfold window. rewrite filter_In, in_seq, andb_true_iff, !Nat.leb_le. lia.
Qed.

(** A pixel equals the pooled maximum exactly when no pixel of its window
    is larger. *)
Lemma local_max_spec (pad H W : nat) (pl : list (list Q)) (r c : nat) :
  Qeq_bool (at2 pl r c) (local_max pad H W pl r c) = true
  <-> forall r' c',
        (r' < H)%nat -> (c' < W)%nat ->
        (r <= r' + pad)%nat -> (r' <= r + pad)%nat ->
        (c <= c' + pad)%nat -> (c' <= c + pad)%nat ->
        at2 pl r' c' <= at2 pl r c.
Proof.
  rewrite Qeq_bool_iff. unfold local_max. fold (at2 pl r c).
  set (l := flat_map _ _).
  assert (Hl : forall e, In e l <->
             exists r' c', In r' (window pad H r) /\ In c' (window pad W c)
                           /\ e = at2 pl r' c').
  { intros e. unfold l. rewrite in_flat_map. split.
    - intros (r' & Hr' & He). apply in_map_iff in He.
      destruct He as (c' & <- & Hc'). now exists r', c'.
    - intros (r' & c' & Hr' & Hc' & ->). exists r'. split; [exact Hr'|].
      apply in_map_iff. now exists c'. }
  split.
  - intros E r' c' Hr' Hc' H1 H2 H3 H4. rewrite E.
    apply (fold_Qmaxb_ge (at2 pl r c) l). apply Hl. exists r', c'.
    rewrite !In_window. repeat split; assumption.
  - intros Hle. symmetry. apply fold_Qmaxb_eq. intros e He.
    apply Hl in He. destruct He as (r' & c' & Hr' & Hc' & ->).
    apply In_window in Hr', Hc'. apply Hle; tauto.
Qed.

(** The positions [NMS] reads off one plane are its peaks. *)
Lemma plane_detections (pad H W : nat) (threshold : Q) (pl : list (list Q))
      (c r : nat) :
  In (c, r)
     (flat_map (fun r =>
        map (fun c => (c, r))
            (mask_select (seq 0 W)
               (nth r (tab H (fun r => tab W (fun c =>
                   Qeq_bool (nth c (nth r pl []) 0) (local_max pad H W pl r c)
                   && Qgtb (nth c (nth r pl []) 0) threshold))) [])))
        (seq 0 H))
  <-> is_peak pad H W threshold pl c r.
Proof.
  rewrite in_flat_map. unfold is_peak. split.
  - intros (r0 & Hr0 & Hin). apply in_map_iff in Hin.
    destruct Hin as (c0 & E & Hc0). injection E as -> ->.
    apply in_seq in Hr0. rewrite nth_tab in Hc0 by lia.
    unfold tab in Hc0. rewrite mask_select_filter in Hc0.
    apply filter_In in Hc0. destruct Hc0 as [Hc0 Hk]. apply in_seq in Hc0.
    apply andb_prop in Hk. destruct Hk as [Hm Ht].
    apply Qgtb_true in Ht.
    pose proof (proj1 (local_max_spec pad H W pl r c) Hm) as Hm'.
    repeat split; [lia | lia | exact Ht | exact Hm'].
  - intros (Hc & Hr & Ht & Hm). exists r. split; [apply in_seq; lia|].
    apply in_map_iff. exists c. split; [reflexivity|].
    rewrite nth_tab by lia. unfold tab. rewrite mask_select_filter.
    apply filter_In. split; [apply in_seq; lia|].
    apply andb_true_intro. split.
    + exact (proj2 (local_max_spec pad H W pl r c) Hm).
    + now apply Qgtb_true.
Qed.

Lemma fold_max_ge (l : list nat) (n : nat) :
  In n l -> (n <= fold_right Nat.max 0 l)%nat.
Proof.
  induction l as [|x l IH]; simpl; [contradiction|].
  intros [->|H]; [lia|]. specialize (IH H). lia.
Qed.

Lemma fold_max_attained (l : list nat) :
  l <> [] -> In (fold_right Nat.max 0%nat l) l.
Proof.
  induction l as [|x l IH]; [congruence|]. intros _. simpl.
  destruct l as [|y l'].
  - left. simpl. lia.
  - destruct (Nat.max_spec x (fold_right Nat.max 0%nat (y :: l')))
      as [[_ E]|[_ E]]; rewrite E.
    + right. apply IH. discriminate.
    + now left.
Qed.

(** The shape of the result of [NMS] in terms of the unpadded detections
    of every image. *)
Lemma NMS_nf (x : tensor4 Q) (threshold : Q) (kernel_size : nat)
      (pos : list (list (nat * nat))) :
  NMS x threshold kernel_size = Some pos ->
  exists dets : list (list (nat * nat)),
    Nat.even kernel_size = false
    /\ length dets = length (data4 x) /\ dets <> []
    /\ (forall b d c r,
          nth_error dets b = Some d ->
          (In (c, r) d
           <-> exists pl, In pl (nth b (data4 x) [])
                          /\ is_peak (kernel_size / 2) (sH x) (sW x)
                                     threshold pl c r))
    /\ pos = map (fun d => d ++ repeat (0, 0)%nat
                    (fold_right Nat.max 0%nat (map (@length _) dets)
                     - length d)) dets.
Proof.
  unfold NMS. destruct (Nat.even kernel_size) eqn:Ek; [discriminate|].
  set (pad := (kernel_size / 2)%nat).
  set (planes := fun pl : list (list Q) =>
         tab (sH x) (fun r => tab (sW x) (fun c =>
           Qeq_bool (nth c (nth r pl []) 0)
                    (local_max pad (sH x) (sW x) pl r c)
           && Qgtb (nth c (nth r pl []) 0) threshold))).
  set (read := fun k : list (list (list bool)) =>
         flat_map (fun plane =>
           flat_map (fun r =>
             map (fun c => (c, r))
                 (mask_select (seq 0 (sW x)) (nth r plane [])))
             (seq 0 (sH x))) k).
  assert (Ed : exists dets, dets = map read (map (map planes) (data4 x)))
    by (eexists; reflexivity).
  destruct Ed as [dets Ed].
  change (match map read (map (map planes) (data4 x)) with
          | [] => None
          | _ :: _ =>
              Some (map (fun l => l ++ repeat (0, 0)%nat
                           (fold_right Nat.max 0%nat
                              (map (@length _)
                                   (map read (map (map planes) (data4 x))))
                            - length l))
                        (map read (map (map planes) (data4 x))))
          end = Some pos -> exists dets0 : list (list (nat * nat)),
            false = false
            /\ length dets0 = length (data4 x) /\ dets0 <> []
            /\ (forall b d c r,
                  nth_error dets0 b = Some d ->
                  (In (c, r) d
                   <-> exists pl, In pl (nth b (data4 x) [])
                                  /\ is_peak pad (sH x) (sW x)
                                             threshold pl c r))
            /\ pos = map (fun d => d ++ repeat (0, 0)%nat
                            (fold_right Nat.max 0%nat (map (@length _) dets0)
                             - length d)) dets0).
  rewrite <- Ed. intros H. exists dets. split; [reflexivity|].
  split; [rewrite Ed; now rewrite !length_map|].
  split; [intros E; rewrite E in H; discriminate H|].
  split; [|destruct dets; [discriminate H | now injection H as <-]].
  intros b d c r Hd. rewrite Ed in Hd.
  rewrite !nth_error_map in Hd.
  destruct (nth_error (data4 x) b) as [k|] eqn:Ek'; [|discriminate].
  cbn [option_map] in Hd. injection Hd as <-.
  rewrite (nth_error_nth _ _ [] Ek').
  unfold read. rewrite in_flat_map. split.
  - intros (plane & Hp & Hin). apply in_map_iff in Hp.
    destruct Hp as (pl & <- & Hpl). exists pl. split; [exact Hpl|].
    now apply plane_detections.
  - intros (pl & Hpl & Hpk). exists (planes pl).
    split; [now apply in_map|]. now apply plane_detections.
Qed.

(** X6.  When [NMS] returns on an odd kernel, the result has one row
    per image and all rows have the same length [n], the largest number
    of detections of an image.  Row [b] is the detections of image [b]
    followed by [(0, 0)] entries up to length [n], and [(c, r)] is a
    detection exactly when it is a pixel of a plane of the image whose
    value exceeds the threshold and is not exceeded by any pixel at most
    [kernel_size // 2] rows and columns away. *)
Theorem NMS_detections (x : tensor4 Q) (threshold : Q) (kernel_size : nat)
        (pos : list (list (nat * nat))) :
  Nat.odd kernel_size = true ->
  NMS x threshold kernel_size = Some pos ->
  exists (n : nat) (dets : list (list (nat * nat))),
    length dets = length (data4 x)
    /\ (forall b d c r,
          nth_error dets b = Some d ->
          (In (c, r) d
           <-> exists pl, In pl (nth b (data4 x) [])
                          /\ is_peak (kernel_size / 2) (sH x) (sW x)
                                     threshold pl c r))
    /\ (exists d, In d dets /\ length d = n)
    /\ pos = map (fun d => d ++ repeat (0, 0)%nat (n - length d)) dets
    /\ Forall (fun row => length row = n) pos.
Proof.
  intros _ H. destruct (NMS_nf _ _ _ H) as (dets & _ & Hl & Hne & Hd & ->).
  set (n := fold_right Nat.max 0%nat (map (@length _) dets)).
  exists n, dets. split; [exact Hl|]. split; [exact Hd|]. split; [|split].
  - pose proof (@fold_max_attained (map (@length _) dets)) as Ha.
    fold n in Ha. destruct dets as [|d0 dets']; [congruence|].
    specialize (Ha ltac:(discriminate)). apply in_map_iff in Ha.
    destruct Ha as (d & E & Hin). now exists d.
  - reflexivity.
  - apply Forall_forall. intros row Hrow. apply in_map_iff in Hrow.
    destruct Hrow as (d & <- & Hin).
    rewrite length_app, repeat_length.
    assert (length d <= n)%nat by (apply fold_max_ge; now apply in_map).
    lia.
Qed.

(** Every candidate of [NMS] is the padding [(0, 0)] or a pixel of the
    map. *)
Lemma NMS_in_bounds (x : tensor4 Q) (threshold : Q) (kernel_size : nat)
      (pos : list (list (nat * nat))) (row : list (nat * nat)) (c r : nat) :
  NMS x threshold kernel_size = Some pos ->
  In row pos -> In (c, r) row ->
  (c, r) = (0, 0)%nat \/ ((c < sW x)%nat /\ (r < sH x)%nat).
Proof.
  intros H Hrow Hin. destruct (NMS_nf _ _ _ H) as (dets & _ & _ & _ & Hd & ->).
  apply in_map_iff in Hrow. destruct Hrow as (d & <- & Hdin).
  apply in_app_or in Hin. destruct Hin as [Hin|Hin].
  - right. apply In_nth_error in Hdin. destruct Hdin as [b Hb].
    apply (Hd b d c r Hb) in Hin. destruct Hin as (pl & _ & Hc & Hr & _).
    now split.
  - left. now apply repeat_spec in Hin.
Qed.

End SelectorFacts.

(** ** Preprocessing and the sparse pipeline *)

Section PreprocessFacts.

Import Decoder Selector Pipeline.
Local Open Scope Q_scope.

Variable Image : Type.
Variable shape : Image -> nat * nat * nat * nat.
Variable interpolate_size : Image -> nat -> nat -> Image.
Variable interpolate_scale : Image -> Q -> Image.
Variable parse_input : Image -> Image.
Variable net : Image -> tensor4 Q * tensor4 Q * tensor4 Q.
Variable normalize_dim1 : tensor4 Q -> tensor4 Q.
Variable normalize : list Q -> list Q.
Variable softmax_scaled : Q -> list Q -> list Q.
Variable sample1 : mode -> tensor4 Q -> nat -> nat -> nat -> nat * nat -> Q.
Variable sampleC :
  mode -> tensor4 Q -> nat -> nat -> nat -> nat * nat -> list Q.

Local Abbreviation preprocess := (preprocess_tensor shape interpolate_size).
Local Abbreviation detect :=
  (detectAndCompute shape interpolate_size net normalize_dim1 normalize
                    softmax_scaled sample1 sampleC).
Local Abbreviation front_of' :=
  (front_of shape interpolate_size net normalize_dim1 softmax_scaled).
Local Abbreviation extract := (extractDense shape interpolate_size net).
Local Abbreviation dense_of :=
  (detectAndComputeDense shape interpolate_size interpolate_scale net).

Lemma Zpos_of_nat (n : nat) : (0 < n)%nat -> Z.pos (Pos.of_nat n) = Z.of_nat n.
Proof.
  intros H. rewrite <- positive_nat_Z, Nat2Pos.id; [reflexivity | lia].
Qed.

Lemma floor32 (n : nat) :
  (n / 32 * 32 <= n)%nat /\ (n < n / 32 * 32 + 32)%nat
  /\ (n / 32 * 32 = 0 <-> n < 32)%nat
  /\ (n / 32 * 32 = n <-> n mod 32 = 0)%nat.
Proof.
  pose proof (Nat.div_mod_eq n 32) as E.
  pose proof (Nat.mod_upper_bound n 32 ltac:(lia)) as U.
  repeat split; try lia.
Qed.

(** A ratio [n / m] with [m <= n < 2m]. *)
Lemma ratio_bounds (n m : nat) :
  (0 < m)%nat -> (m <= n)%nat -> (n < m + m)%nat ->
  let r := Z.of_nat n # Pos.of_nat m in
  1 <= r /\ r < 2 /\ r * inject_Z (Z.of_nat m) == inject_Z (Z.of_nat n)
  /\ (r == 1 <-> m = n).
Proof.
  intros Hm Hle Hlt r. subst r.
  unfold Qle, Qlt, Qeq, Qmult, inject_Z. cbn [Qnum Qden].
  rewrite ?Pos.mul_1_r, !Zpos_of_nat by exact Hm.
  repeat split; try lia; intros; nia.
Qed.

(** X7.  [preprocess_tensor] raises exactly on an image that is less
    than 32 pixels high or wide.  Otherwise it resizes to the largest
    multiples of 32 not above the height and the width; the two ratios lie
    in [[1, 2)], map the resized size back to the original size, and a
    ratio is 1 exactly when the original size is a multiple of 32. *)
Theorem preprocess_tensor_ratios (x : Image) (B C H W : nat) :
  shape x = (B, C, H, W) ->
  (preprocess_tensor shape interpolate_size x = None
   <-> (H < 32)%nat \/ (W < 32)%nat)
  /\ forall x' rh rw,
       preprocess_tensor shape interpolate_size x = Some (x', rh, rw) ->
       let _H := (H / 32 * 32)%nat in
       let _W := (W / 32 * 32)%nat in
       x' = interpolate_size x _H _W
       /\ (_H mod 32 = 0 /\ _H <= H < _H + 32)%nat
       /\ (_W mod 32 = 0 /\ _W <= W < _W + 32)%nat
       /\ 1 <= rh /\ rh < 2 /\ 1 <= rw /\ rw < 2
       /\ rh * inject_Z (Z.of_nat _H) == inject_Z (Z.of_nat H)
       /\ rw * inject_Z (Z.of_nat _W) == inject_Z (Z.of_nat W)
       /\ (rh == 1 <-> H mod 32 = 0%nat)
       /\ (rw == 1 <-> W mod 32 = 0%nat).
Proof.
  intros Hs. unfold preprocess_tensor. rewrite Hs.
  destruct (floor32 H) as (H1 & H2 & H3 & H4).
  destruct (floor32 W) as (W1 & W2 & W3 & W4).
  destruct (Nat.eqb_spec (H / 32 * 32) 0) as [EH|EH];
    destruct (Nat.eqb_spec (W / 32 * 32) 0) as [EW|EW]; cbn [orb].
  1-3: split; [split; [intros _; lia | reflexivity]
              | intros x' rh rw E; discriminate E].
  split; [split; [intros E; discriminate E | lia]|].
  intros x' rh rw E. injection E as <- <- <-. cbv zeta.
  destruct (@ratio_bounds H (H / 32 * 32)) as (A1 & A2 & A3 & A4); try lia.
  destruct (@ratio_bounds W (W / 32 * 32)) as (B1 & B2 & B3 & B4); try lia.
  split; [reflexivity|].
  split; [split; [apply Nat.Div0.mod_mul | lia]|].
  split; [split; [apply Nat.Div0.mod_mul | lia]|].
  repeat (split; [assumption|]).
  split; [rewrite A4; exact H4 | rewrite B4; exact W4].
Qed.

(** X8.  On an image less than 32 pixels high or wide
    [detectAndCompute], [extractDense] and single-scale
    [detectAndComputeDense] raise. *)
Theorem small_image_raises (self : XFeat) (x : Image) (B C H W top_k : nat) :
  shape x = (B, C, H, W) -> (H < 32)%nat \/ (W < 32)%nat ->
  detect self x = None
  /\ extract x top_k = None
  /\ dense_of self x false = None.
Proof.
  intros Hs Hsmall.
  assert (E : preprocess x = None).
  { unfold preprocess_tensor. rewrite Hs.
    destruct (floor32 H) as (_ & _ & H3 & _).
    destruct (floor32 W) as (_ & _ & W3 & _).
    destruct Hsmall as [Hh|Hw].
    - apply H3 in Hh. now rewrite Hh.
    - apply W3 in Hw. rewrite Hw. now rewrite orb_true_r. }
  unfold detectAndCompute, detectAndComputeDense, extractDense.
  rewrite E. repeat split; reflexivity.
Qed.

Lemma StronglySorted_firstn {A : Type} (R : A -> A -> Prop) (n : nat)
      (l : list A) :
  StronglySorted R l -> StronglySorted R (firstn n l).
Proof.
  intros Hs. revert n. induction Hs as [|a l Hs IH Ha]; intros [|n]; simpl;
    try constructor.
  - apply IH.
  - rewrite Forall_forall in *. intros y Hy. apply Ha.
    now apply firstn_incl in Hy.
Qed.

Lemma StronglySorted_filter' {A : Type} (R : A -> A -> Prop) (p : A -> bool)
      (l : list A) :
  StronglySorted R l -> StronglySorted R (filter p l).
Proof.
  induction 1 as [|a l Hs IH Ha]; simpl; [constructor|].
  destruct (p a); [|exact IH]. constructor; [exact IH|].
  rewrite Forall_forall in *. intros y Hy. apply Ha.
  apply filter_In in Hy. tauto.
Qed.

Lemma front_of_inv (x : Image) (fr : front) :
  front_of' x = Some fr ->
  exists x' M1 K1 H1,
    preprocess x = Some (x', f_rh fr, f_rw fr)
    /\ net x' = (M1, K1, H1)
    /\ get_kpts_heatmap 0 softmax_scaled K1 1 = Some (f_K1h fr)
    /\ NMS (f_K1h fr) (5 # 100) 5 = Some (f_mkpts fr)
    /\ f_H1 fr = H1.
Proof.
  unfold front_of, bind.
  destruct (preprocess x) as [[[x' rh] rw]|]; [|discriminate].
  destruct (shape x') as [[[B C] H] W].
  destruct (net x') as [[M1 K1] H1] eqn:En.
  destruct (get_kpts_heatmap 0 softmax_scaled K1 1) as [K1h|] eqn:Eh;
    [|discriminate].
  destruct (NMS K1h (5 # 100) 5) as [mkpts|] eqn:Em; [|discriminate].
  intros E. injection E as <-. cbn [f_rh f_rw f_K1h f_mkpts f_H1].
  exists x', M1, K1, H1. repeat split; assumption.
Qed.

(** Every returned keypoint is a candidate of [NMS] other than the
    padding, rescaled, with the product of the two sampled maps as its
    score. *)
Lemma detectAndCompute_keypoint_inv
      (self : XFeat) (x : Image)
      (res : list (list (Q * Q * Q) * list (list Q)))
      (b : nat) (kps : list (Q * Q * Q)) (descs : list (list Q)) :
  detect self x = Some res ->
  nth_error res b = Some (kps, descs) ->
  exists fr cand,
    front_of' x = Some fr
    /\ nth_error (f_mkpts fr) b = Some cand
    /\ kps = map (keypoint_of fr)
                 (filter (fun e => Qgtb (snd e) 0)
                         (selected sample1 (self_top_k self) fr b cand))
    /\ forall kx ky s,
         In (kx, ky, s) kps ->
         exists p, In p cand /\ p <> (0, 0)%nat
                   /\ kx = inject_Z (Z.of_nat (fst p)) * f_rw fr
                   /\ ky = inject_Z (Z.of_nat (snd p)) * f_rh fr
                   /\ s = sample1 nearest (f_K1h fr) (f_H fr) (f_W fr) b p
                          * sample1 bilinear (f_H1 fr) (f_H fr) (f_W fr) b p
                   /\ 0 < s.
Proof.
  intros H Hr.
  destruct (detectAndCompute_image _ _ _ _ _ _ _ _ _ _ H)
    as (fr & Hfr & _ & Hk).
  destruct (Hk b _ Hr) as (cand & Hc & E). unfold image_result in E.
  injection E as -> _.
  exists fr, cand. split; [exact Hfr|]. split; [exact Hc|].
  split; [reflexivity|].
  intros kx ky s Hin. apply in_map_iff in Hin.
  destruct Hin as (e & Ee & He). apply filter_In in He.
  destruct He as [He Hpos]. apply Qgtb_true in Hpos.
  destruct (selected_in _ _ _ _ _ _ He) as (p & Hp & ->).
  unfold keypoint_of in Ee. cbn [fst snd scored] in Ee.
  exists p. split; [exact Hp|].
  unfold scored in Hpos. cbn [snd] in Hpos.
  destruct ((fst p =? 0)%nat && (snd p =? 0)%nat) eqn:Ez.
  - exfalso. revert Hpos. unfold Qlt. simpl. lia.
  - injection Ee as <- <- <-. repeat split; [|exact Hpos].
    intros ->. discriminate Ez.
Qed.

(** X9.  The keypoints [detectAndCompute] returns for an image all
    have a positive score and are listed by non-increasing score.  Every
    one of them is a candidate of [NMS] for that image, other than the
    padding, with its two coordinates multiplied by the resize ratios and
    the product of the two sampled maps as its score. *)
Theorem detectAndCompute_scores_sorted
        (self : XFeat) (x : Image)
        (res : list (list (Q * Q * Q) * list (list Q)))
        (b : nat) (kps : list (Q * Q * Q)) (descs : list (list Q)) :
  detect self x = Some res ->
  nth_error res b = Some (kps, descs) ->
  Forall (fun k => 0 < snd k) kps
  /\ StronglySorted (fun k k' => snd k' <= snd k) kps
  /\ exists fr cand,
      front_of' x = Some fr
      /\ nth_error (f_mkpts fr) b = Some cand
      /\ forall kx ky s,
           In (kx, ky, s) kps ->
           exists p, In p cand /\ p <> (0, 0)%nat
                     /\ kx = inject_Z (Z.of_nat (fst p)) * f_rw fr
                     /\ ky = inject_Z (Z.of_nat (snd p)) * f_rh fr
                     /\ s = sample1 nearest (f_K1h fr) (f_H fr) (f_W fr) b p
                            * sample1 bilinear (f_H1 fr) (f_H fr) (f_W fr) b p.
Proof.
  intros H Hr.
  destruct (detectAndCompute_keypoint_inv _ _ _ H Hr)
    as (fr & cand & Hfr & Hc & -> & Hk).
  split; [|split].
  - apply Forall_forall. intros k Hin. apply in_map_iff in Hin.
    destruct Hin as (e & <- & He). apply filter_In in He.
    destruct He as [_ Hpos]. now apply Qgtb_true in Hpos.
  - apply StronglySorted_map_in
      with (R := fun a c : (nat * nat) * Q => snd c <= snd a).
    + intros a c _ _ Hac. exact Hac.
    + apply StronglySorted_filter'. unfold selected.
      apply StronglySorted_firstn. apply ranked_sorted.
  - exists fr, cand. split; [exact Hfr|]. split; [exact Hc|].
    intros kx ky s Hin. destruct (Hk kx ky s Hin) as (p & H1 & H2 & H3 & H4 & H5 & _).
    exists p. repeat split; assumption.
Qed.

Lemma get_kpts_heatmap_dims (A : Type) (d : A)
      (sm : A -> list A -> list A) (kpts : tensor4 A) (temp : A)
      (heat : tensor4 A) :
  get_kpts_heatmap d sm kpts temp = Some heat ->
  sB heat = sB kpts /\ sC heat = 1%nat
  /\ sH heat = (sH kpts * 8)%nat /\ sW heat = (sW kpts * 8)%nat.
Proof.
  unfold get_kpts_heatmap.
  destruct ((sC (slice_dim1 64 (softmax_dim1 d sm temp kpts)) =? 64)%nat
            || _); [|discriminate].
  intros E. injection E as <-. cbn [sB sC sH sW slice_dim1 softmax_dim1].
  repeat split.
Qed.

(** X10.  When the keypoint logits of the backbone have one eighth of
    the preprocessed resolution, every keypoint [detectAndCompute]
    returns lies inside the original image: [0 <= x < W] and
    [0 <= y < H]. *)
Theorem detectAndCompute_keypoints_in_image
        (self : XFeat) (x x' : Image) (B C H W : nat) (rh rw : Q)
        (M1 K1 H1 : tensor4 Q)
        (res : list (list (Q * Q * Q) * list (list Q)))
        (b : nat) (kps : list (Q * Q * Q)) (descs : list (list Q))
        (kx ky s : Q) :
  shape x = (B, C, H, W) ->
  preprocess x = Some (x', rh, rw) ->
  net x' = (M1, K1, H1) ->
  (sH K1 * 8 = H / 32 * 32)%nat -> (sW K1 * 8 = W / 32 * 32)%nat ->
  detect self x = Some res ->
  nth_error res b = Some (kps, descs) ->
  In (kx, ky, s) kps ->
  0 <= kx /\ kx < inject_Z (Z.of_nat W)
  /\ 0 <= ky /\ ky < inject_Z (Z.of_nat H).
Proof.
  intros Hs Hpre Hnet HH HW Hd Hr Hin.
  destruct (detectAndCompute_keypoint_inv _ _ _ Hd Hr)
    as (fr & cand & Hfr & Hc & _ & Hk).
  destruct (Hk kx ky s Hin) as (p & Hp & Hp0 & -> & -> & _ & _).
  destruct (front_of_inv _ Hfr) as (x'' & M1' & K1' & H1' & Hpre' & Hnet'
                                    & Hheat & Hnms & _).
  rewrite Hpre in Hpre'. injection Hpre' as <- Erh Erw.
  rewrite Hnet in Hnet'. injection Hnet' as <- <- <-.
  destruct (get_kpts_heatmap_dims _ _ _ _ Hheat) as (_ & _ & EH & EW).
  destruct p as [c r]. cbn [fst snd].
  destruct (@NMS_in_bounds _ _ _ _ cand c r Hnms) as [E0|[Hcb Hrb]];
    [now apply nth_error_In with b | exact Hp | congruence |].
  rewrite EW, HW in Hcb. rewrite EH, HH in Hrb.
  rewrite <- Erh, <- Erw.
  revert Hpre. unfold preprocess_tensor. rewrite Hs.
  destruct (floor32 H) as (FH & _). destruct (floor32 W) as (FW & _).
  set (hh := (H / 32 * 32)%nat) in *. set (ww := (W / 32 * 32)%nat) in *.
  destruct (Nat.eqb_spec hh 0) as [ZH|ZH];
    destruct (Nat.eqb_spec ww 0) as [ZW|ZW]; cbn [orb];
    try (intros E; discriminate E).
  intros E. injection E as _ <- <-.
  unfold Qle, Qlt, Qmult, inject_Z. cbn [Qnum Qden].
  rewrite ?Pos.mul_1_r, ?Pos.mul_1_l, !Zpos_of_nat by lia.
  repeat split; nia.
Qed.

End PreprocessFacts.

(** ** HeatmapDecoder with more or fewer than 64 channels *)

Section DecoderMore.

Import Decoder.

Section LayoutMore.

Variable A : Type.
Variable d : A.
Variable softmax_scaled : A -> list A -> list A.

Lemma get4_scores_ge (temp : A) (t : tensor4 A) (b c i j : nat) :
  64 <= sC t -> b < sB t -> c < 64 -> i < sH t -> j < sW t ->
  get4 d (slice_dim1 64 (softmax_dim1 d softmax_scaled temp t)) b c i j
  = nth c (softmax_scaled temp (cell d t b i j)) d.
Proof.
  intros HC Hb Hc Hi Hj.
  rewrite <- get4_softmax_dim1 by (auto; lia).
  unfold get4, slice_dim1, softmax_dim1. cbn [data4 sB sC sH sW].
  rewrite (nth_map_in _ _ []) by now rewrite length_tab.
  rewrite nth_firstn.
  destruct (c <? 64) eqn:E; [reflexivity|]. apply Nat.ltb_ge in E. lia.
Qed.

(** The layout of the decoded heatmap when the logit map has at least 64
    channels: the channels from the 65th on are dropped after the
    softmax. *)
Lemma heatmap_layout_ge (kpts : tensor4 A) (temp : A) :
  64 <= sC kpts ->
  exists heat,
    get_kpts_heatmap d softmax_scaled kpts temp = Some heat
    /\ sB heat = sB kpts /\ sC heat = 1
    /\ sH heat = sH kpts * 8 /\ sW heat = sW kpts * 8
    /\ forall b i j p q,
        b < sB kpts -> i < sH kpts -> j < sW kpts -> p < 8 -> q < 8 ->
        get4 d heat b 0 (8 * i + p) (8 * j + q)
        = nth (8 * p + q) (softmax_scaled temp (cell d kpts b i j)) d.
Proof.
  intros HC. unfold get_kpts_heatmap.
  set (scores := slice_dim1 64 (softmax_dim1 d softmax_scaled temp kpts)).
  assert (HCs : sC scores = 64) by (simpl; lia).
  rewrite HCs. change ((64 =? 64) || _) with true. cbv iota.
  eexists. split; [reflexivity|]. cbn [data4 sB sC sH sW].
  repeat (split; [reflexivity|]).
  intros b i j p q Hb Hi Hj Hp Hq.
  unfold get4 at 1. cbn [data4 sB sC sH sW]. unfold permute0231.
  rewrite !map_map.
  rewrite (nth_map_in _ _ []) by (rewrite length_tab; exact Hb).
  rewrite nth_tab by exact Hb. cbn [nth].
  rewrite !map_map.
  replace (8 * i + p) with (i * 8 + p) by lia.
  rewrite (@nth_concat_uniform _ 8 []).
  2:{ apply Forall_forall. intros l Hl. apply in_map_iff in Hl.
      destruct Hl as (i' & <- & _). now rewrite length_map, length_tab. }
  2:{ now rewrite length_map, length_tab. }
  2:{ exact Hp. }
  rewrite (nth_map_in _ _ []) by (rewrite length_tab; exact Hi).
  rewrite nth_tab by exact Hi.
  rewrite (nth_map_in _ _ []) by (rewrite length_tab; exact Hp).
  rewrite nth_tab by exact Hp.
  rewrite !map_map.
  replace (8 * j + q) with (j * 8 + q) by lia.
  rewrite (@nth_concat_uniform _ 8 d).
  2:{ apply Forall_forall. intros l Hl. apply in_map_iff in Hl.
      destruct Hl as (v & <- & Hv).
      unfold tab in Hv at 1. apply in_map_iff in Hv.
      destruct Hv as (j' & <- & _).
      apply length_nth_chunks; [exact Hp|].
      rewrite length_tab. exact HCs. }
  2:{ now rewrite length_map, length_tab. }
  2:{ exact Hq. }
  rewrite (nth_map_in _ _ []) by (rewrite length_tab; exact Hj).
  rewrite nth_tab by exact Hj.
  rewrite nth_chunks by assumption.
  rewrite HCs. rewrite nth_tab by lia.
  replace (p * 8 + q) with (8 * p + q) by lia.
  apply get4_scores_ge; auto; lia.
Qed.

(** With fewer than 64 channels the reshape to 8x8 blocks raises, unless
    the map has no entry at all. *)
Lemma heatmap_few_channels (kpts : tensor4 A) (temp : A) :
  sC kpts < 64 -> sB kpts * sH kpts * sW kpts <> 0 ->
  get_kpts_heatmap d softmax_scaled kpts temp = None.
Proof.
  intros HC Hne. unfold get_kpts_heatmap.
  cbn [sB sC sH sW slice_dim1 softmax_dim1].
  destruct (Nat.eqb_spec (Nat.min (sC kpts) 64) 64) as [E|_]; [lia|].
  destruct (Nat.eqb_spec (sB kpts * sH kpts * sW kpts) 0) as [E|_];
    [contradiction | reflexivity].
Qed.

End LayoutMore.

Local Open Scope R_scope.

Lemma Rsum_app (l l' : list R) : Rsum (l ++ l') = Rsum l + Rsum l'.
Proof.
  induction l as [|x l IH]; [unfold Rsum; simpl; ring|].
  change (x + Rsum (l ++ l') = x + Rsum l + Rsum l'). rewrite IH. ring.
Qed.

Lemma softmaxR_pos (v : list R) (w : R) : In w (softmaxR v) -> 0 < w.
Proof.
  unfold softmaxR. intros H. apply in_map_iff in H.
  destruct H as (x & <- & Hx).
  assert (Hv : v <> []) by (intros E; rewrite E in Hx; contradiction).
  apply Rdiv_lt_0_compat; [apply exp_pos | now apply Rsum_exp_pos].
Qed.

Lemma Rsum_pos (l : list R) :
  l <> [] -> (forall w, In w l -> 0 < w) -> 0 < Rsum l.
Proof.
  assert (H0 : forall l', (forall w, In w l' -> 0 < w) -> 0 <= Rsum l').
  { induction l' as [|x l' IH]; intros H; [unfold Rsum; simpl; lraR|].
    change (0 <= x + Rsum l').
    assert (0 < x) by (apply H; now left).
    assert (0 <= Rsum l') by (apply IH; intros w Hw; apply H; now right).
    lraR. }
  destruct l as [|x l]; [congruence|]. intros _ H.
  change (0 < x + Rsum l).
  assert (0 < x) by (apply H; now left).
  assert (0 <= Rsum l) by (apply H0; intros w Hw; apply H; now right).
  lraR.
Qed.

(** X11.  [get_kpts_heatmap] raises on a non-empty logit map with fewer
    than 64 channels.  With 64 channels or more it returns the heatmap
    of the first 64 softmax weights: pixel [(8i+p, 8j+q)] is the weight
    of channel [8p+q] of cell [(i, j)], the 8x8 block of a cell sums to
    1 minus the weight of the channels from the 65th on, and with more
    than 64 channels every block sum lies strictly between 0 and 1. *)
Theorem heatmap_extra_channels (kpts : tensor4 R) :
  ((sC kpts < 64)%nat -> (sB kpts * sH kpts * sW kpts)%nat <> 0%nat ->
   get_kpts_heatmap_R kpts = None)
  /\ ((64 <= sC kpts)%nat ->
      exists heat,
        get_kpts_heatmap_R kpts = Some heat
        /\ sB heat = sB kpts /\ sC heat = 1%nat
        /\ sH heat = (sH kpts * 8)%nat /\ sW heat = (sW kpts * 8)%nat
        /\ forall b i j,
            (b < sB kpts)%nat -> (i < sH kpts)%nat -> (j < sW kpts)%nat ->
            (forall p q, (p < 8)%nat -> (q < 8)%nat ->
               get4 0 heat b 0 (8 * i + p) (8 * j + q)
               = nth (8 * p + q) (softmaxR (cell 0 kpts b i j)) 0)
            /\ block_sum heat b i j
               = 1 - Rsum (skipn 64 (softmaxR (cell 0 kpts b i j)))
            /\ ((64 < sC kpts)%nat -> 0 < block_sum heat b i j < 1)).
Proof.
  split; [intros HC Hne; now apply heatmap_few_channels|].
  intros HC. unfold get_kpts_heatmap_R.
  destruct (heatmap_layout_ge 0 softmax_scaled_R kpts 1 HC)
    as (heat & Hh & HB & HC1 & HH & HW & Hpix).
  exists heat. repeat (split; [assumption|]).
  intros b i j Hb Hi Hj.
  set (s := softmaxR (cell 0 kpts b i j)).
  assert (Hp : forall p q, (p < 8)%nat -> (q < 8)%nat ->
             get4 0 heat b 0 (8 * i + p) (8 * j + q)
             = nth (8 * p + q) s 0).
  { intros p q Hp Hq. rewrite Hpix by assumption.
    now rewrite softmax_scaled_R_one. }
  split; [exact Hp|].
  assert (Hlen : length s = sC kpts).
  { unfold s, cell. now rewrite length_softmaxR, length_tab. }
  assert (Hne : cell 0 kpts b i j <> []).
  { intros E. apply (f_equal (@length R)) in E. unfold cell in E.
    rewrite length_tab in E. simpl in E. lia. }
  assert (Hsum : Rsum (firstn 64 s) + Rsum (skipn 64 s) = 1).
  { rewrite <- Rsum_app, firstn_skipn. now apply Rsum_softmaxR. }
  assert (Hblock : block_sum heat b i j = Rsum (firstn 64 s)).
  { unfold block_sum.
    rewrite (@tab_ext _ 8 _ (fun p =>
               Rsum (tab 8 (fun q => nth (8 * p + q) (firstn 64 s) 0)))).
    - apply Rsum_blocks. rewrite length_firstn, Hlen. lia.
    - intros p Hlt. f_equal. apply tab_ext. intros q Hq.
      rewrite Hp by assumption. rewrite nth_firstn.
      destruct (8 * p + q <? 64)%nat eqn:E; [reflexivity|].
      apply Nat.ltb_ge in E. lia. }
  split; [rewrite Hblock; lraR|].
  intros Hgt. rewrite Hblock.
  assert (0 < Rsum (skipn 64 s)).
  { apply Rsum_pos.
    - intros E. apply (f_equal (@length R)) in E.
      rewrite length_skipn, Hlen in E. cbn [length] in E. lia.
    - intros w Hw. apply (@softmaxR_pos (cell 0 kpts b i j)).
      fold s. rewrite <- (firstn_skipn 64 s). apply in_or_app. now right. }
  assert (0 < Rsum (firstn 64 s)).
  { apply Rsum_pos.
    - intros E. apply (f_equal (@length R)) in E.
      rewrite length_firstn, Hlen in E. cbn [length] in E. lia.
    - intros w Hw. apply (@softmaxR_pos (cell 0 kpts b i j)).
      fold s. rewrite <- (firstn_skipn 64 s). apply in_or_app. now left. }
  lraR.
Qed.

End DecoderMore.

(** ** DensePipeline: the selected cells *)

Section DenseMore.

Import Decoder Pipeline Reference Variants.
Local Open Scope Q_scope.

Variable Image : Type.
Variable shape : Image -> nat * nat * nat * nat.
Variable interpolate_size : Image -> nat -> nat -> Image.
Variable interpolate_scale : Image -> Q -> Image.
Variable net : Image -> tensor4 Q * tensor4 Q * tensor4 Q.

Local Abbreviation preprocess := (preprocess_tensor shape interpolate_size).
Local Abbreviation extract := (extractDense shape interpolate_size net).
Local Abbreviation dualscale' :=
  (extract_dualscale shape interpolate_size interpolate_scale net).
Local Abbreviation dense_of :=
  (detectAndComputeDense shape interpolate_size interpolate_scale net).

Lemma nth_grid {A : Type} (d : A) (h w : nat) (f : nat -> nat -> A) (k : nat) :
  (k < h * w)%nat ->
  nth k (concat (tab h (fun i => tab w (f i)))) d = f (k / w)%nat (k mod w)%nat.
Proof.
  intros Hk.
  assert (Hw : (0 < w)%nat) by (destruct w; [lia | lia]).
  pose proof (Nat.div_mod_eq k w) as E.
  pose proof (Nat.mod_upper_bound k w ltac:(lia)) as U.
  assert (Hi : (k / w < h)%nat) by (apply Nat.Div0.div_lt_upper_bound; lia).
  rewrite E at 1. rewrite (Nat.mul_comm w).
  rewrite (@nth_concat_uniform _ w d).
  - rewrite nth_tab by exact Hi. now rewrite nth_tab by exact U.
  - apply Forall_forall. intros l Hl. unfold tab in Hl at 1.
    apply in_map_iff in Hl. destruct Hl as (i & <- & _). apply length_tab.
  - now rewrite length_tab.
  - exact U.
Qed.

Lemma create_xy_as_grid (h w : nat) :
  create_xy h w = concat (tab h (fun i => tab w (fun j => (j, i)))).
Proof. unfold create_xy. now rewrite flat_map_concat_map. Qed.

(** Entry [k] of [create_xy h w] is the cell in column [k mod w] of row
    [k / w]. *)
Lemma nth_create_xy (h w k : nat) (d : nat * nat) :
  (k < h * w)%nat -> nth k (create_xy h w) d = ((k mod w)%nat, (k / w)%nat).
Proof.
  intros Hk. rewrite create_xy_as_grid.
  exact (@nth_grid _ d h w (fun i j => (j, i)) k Hk).
Qed.

(** X12.  [create_xy h w] lists the [h * w] cells in row-major order
    with the column first: entry [i * w + j] is [(j, i)], and every
    entry [(x, y)] sits at position [y * w + x] with [x < w] and
    [y < h]. *)
Theorem create_xy_layout (h w : nat) :
  length (create_xy h w) = (h * w)%nat
  /\ (forall i j, (i < h)%nat -> (j < w)%nat ->
        nth_error (create_xy h w) (i * w + j) = Some (j, i))
  /\ (forall k x y, nth_error (create_xy h w) k = Some (x, y) ->
        (x < w)%nat /\ (y < h)%nat /\ k = (y * w + x)%nat).
Proof.
  split; [apply length_create_xy|]. split.
  - intros i j Hi Hj.
    assert (Hk : (i * w + j < h * w)%nat) by nia.
    rewrite (nth_error_nth' _ (0, 0)%nat) by now rewrite length_create_xy.
    rewrite nth_create_xy by exact Hk. f_equal. f_equal.
    + rewrite Nat.add_comm, Nat.Div0.mod_add. now apply Nat.mod_small.
    + rewrite Nat.div_add_l by lia. rewrite (Nat.div_small j w) by exact Hj.
      lia.
  - intros k x y Hk.
    assert (Hlt : (k < h * w)%nat).
    { rewrite <- length_create_xy. apply nth_error_Some. congruence. }
    rewrite (nth_error_nth' _ (0, 0)%nat) in Hk by now rewrite length_create_xy.
    rewrite nth_create_xy in Hk by exact Hlt. injection Hk as <- <-.
    assert (Hw : (0 < w)%nat) by (destruct w; lia).
    pose proof (Nat.div_mod_eq k w). pose proof (Nat.mod_upper_bound k w).
    repeat split; try lia. apply Nat.Div0.div_lt_upper_bound. lia.
Qed.

Lemma mapM_nth_error_map {A : Type} (d : A) (l : list A) :
  forall (t : list nat) (r : list A),
    mapM (nth_error l) t = Some r ->
    r = map (fun i => nth i l d) t /\ forall i, In i t -> (i < length l)%nat.
Proof.
  induction t as [|i t IH]; intros r H; simpl in H.
  - injection H as <-. split; [reflexivity | contradiction].
  - unfold bind in H. destruct (nth_error l i) as [a|] eqn:Ei; [|discriminate].
    destruct (mapM (nth_error l) t) as [r'|]; [|discriminate].
    injection H as <-. destruct (IH r' eq_refl) as [-> Hin]. split.
    + simpl. f_equal. symmetry. now apply nth_error_nth.
    + intros j [<-|Hj]; [|now apply Hin].
      apply nth_error_Some. congruence.
Qed.

Lemma NoDup_firstn' {A : Type} (n : nat) (l : list A) :
  NoDup l -> NoDup (firstn n l).
Proof.
  intros H. rewrite <- (firstn_skipn n l) in H.
  now apply NoDup_app_remove_r in H.
Qed.

Lemma sorted_firstn_skipn {A : Type} (R : A -> A -> Prop) (n : nat)
      (l : list A) (a b : A) :
  StronglySorted R l -> In a (firstn n l) -> In b (skipn n l) -> R a b.
Proof.
  intros Hs. revert n. induction Hs as [|x l Hs IH Hx]; intros [|n] Ha Hb;
    simpl in *; try contradiction.
  destruct Ha as [<-|Ha].
  - rewrite Forall_forall in Hx. apply Hx.
    rewrite <- (firstn_skipn n l). apply in_or_app. now right.
  - now apply IH with n.
Qed.

Lemma firstn_tab (n m : nat) {A : Type} (f : nat -> A) :
  (n <= m)%nat -> firstn n (tab m f) = tab n f.
Proof.
  intros H. unfold tab. rewrite firstn_map. f_equal.
  replace m with (n + (m - n))%nat by lia.
  rewrite seq_app, firstn_app, length_seq, Nat.sub_diag. simpl.
  rewrite app_nil_r. apply firstn_all2. now rewrite length_seq.
Qed.

Lemma nth_Qopp (l : list Q) (k : nat) :
  nth k (map Qopp l) 0 = - nth k l 0.
Proof. exact (map_nth Qopp l 0 k). Qed.

(** The cells [extractDense] selects for one image: the first [k] of the
    cell numbers sorted by non-increasing reliability. *)
Lemma topk_cells (row : list Q) (k : nat) :
  let ix := firstn k (argsort (map Qopp row)) in
  NoDup ix
  /\ length ix = Nat.min (length row) k
  /\ (forall i, In i ix -> (i < length row)%nat)
  /\ StronglySorted (fun i j => nth j row 0 <= nth i row 0) ix
  /\ (forall i j, In i ix -> (j < length row)%nat -> ~ In j ix ->
        nth j row 0 <= nth i row 0).
Proof.
  intros ix. subst ix. set (keys := map Qopp row).
  assert (Lk : length keys = length row) by (unfold keys; apply length_map).
  assert (Hperm := argsort_perm keys).
  assert (Hnd : NoDup (argsort keys)).
  { apply (Permutation_NoDup (Permutation_sym Hperm)). apply seq_NoDup. }
  assert (Hs : StronglySorted (fun i j => nth j row 0 <= nth i row 0)
                              (argsort keys)).
  { pose proof (argsort_sorted keys) as S.
    eapply StronglySorted_map_in with (f := fun i : nat => i) in S.
    - rewrite map_id in S. exact S.
    - intros a b _ _ Hab. cbv beta in Hab. unfold keys in Hab.
      rewrite !nth_Qopp in Hab. apply Qopp_le_compat in Hab.
      now rewrite !Qopp_opp in Hab. }
  split; [now apply NoDup_firstn'|]. split; [|split; [|split]].
  - rewrite length_firstn, length_argsort, Lk. lia.
  - intros i Hi. apply firstn_incl in Hi. apply argsort_in_range in Hi. lia.
  - now apply StronglySorted_firstn.
  - intros i j Hi Hj Hnot.
    apply (@sorted_firstn_skipn _ _ k (argsort keys) i j Hs Hi).
    assert (Hin : In j (argsort keys)).
    { apply (Permutation_in _ (Permutation_sym Hperm)). apply in_seq. lia. }
    rewrite <- (firstn_skipn k (argsort keys)) in Hin.
    apply in_app_or in Hin. tauto.
Qed.

Lemma nth_error_combine {A B : Type} (l : list A) (l' : list B) (k : nat)
      (a : A) (b : B) :
  nth_error (combine l l') k = Some (a, b) ->
  nth_error l k = Some a /\ nth_error l' k = Some b.
Proof.
  revert l' k. induction l as [|x l IH]; intros [|y l'] [|k] H; simpl in *;
    try discriminate.
  - injection H as -> ->. now split.
  - now apply IH.
Qed.

Lemma mapM_descriptors (rows : list (list Q)) :
  forall (t : list nat) (g : list (list Q)),
    mapM (fun i => row <- nth_error rows i ;;
                   if (64 <=? length row)%nat then Some (firstn 64 row)
                   else None) t = Some g ->
    g = map (fun i => firstn 64 (nth i rows [])) t
    /\ forall i, In i t ->
         (i < length rows)%nat /\ (64 <= length (nth i rows []))%nat.
Proof.
  induction t as [|i t IH]; intros g H; cbn [mapM] in H.
  - injection H as <-. split; [reflexivity | contradiction].
  - unfold bind in H. destruct (nth_error rows i) as [row|] eqn:Ei;
      [|discriminate].
    destruct (Nat.leb_spec 64 (length row)) as [L|L]; [|discriminate].
    destruct (mapM _ t) as [g'|]; [|discriminate].
    injection H as <-. destruct (IH g' eq_refl) as [-> Hin].
    cbn [map]. rewrite (nth_error_nth _ _ [] Ei). split; [reflexivity|].
    intros j [<-|Hj]; [|now apply Hin].
    rewrite (nth_error_nth _ _ [] Ei). split; [|exact L].
    apply nth_error_Some. congruence.
Qed.

(** [extractDense] is preprocessing and the backbone followed by
    [extractDenseFrontEnd] with the ratios of preprocessing. *)
Lemma extractDense_factor (x : Image) (top_k : nat) :
  extract x top_k
  = (pre <- preprocess x ;;
     extractDenseFrontEnd (mkXFeat top_k)
       (fst (fst (net (fst (fst pre))))) (snd (fst (net (fst (fst pre)))))
       (snd (net (fst (fst pre))))
       (Some (snd (fst pre))) (Some (snd pre))).
Proof.
  unfold extractDense, extractDenseFrontEnd, bind.
  destruct (preprocess x) as [[[x' rh] rw]|]; [|reflexivity].
  cbn [fst snd self_top_k]. destruct (net x') as [[M1 K1] H1].
  reflexivity.
Qed.

(** The features of the dense selection: for every image the [top_k]
    most reliable cells, most reliable first, as keypoints and
    descriptors. *)
Lemma dense_selection
      (self : XFeat) (M1 K1 H1 : tensor4 Q) (rh1 rw1 : option Q)
      (mkpts : list (list (Q * Q))) (feats : list (list (list Q))) :
  extractDenseFrontEnd self M1 K1 H1 rh1 rw1 = Some (mkpts, feats) ->
  let rh := match rh1 with Some r => r | None => 1 end in
  let rw := match rw1 with Some r => r | None => 1 end in
  length mkpts = sB H1 /\ length feats = sB H1
  /\ forall b, (b < sB H1)%nat ->
       exists ix,
         nth_error mkpts b = Some (map (cell_keypoint (sW M1) rh rw) ix)
         /\ nth_error feats b = Some (map (cell_descriptor M1 b) ix)
         /\ NoDup ix
         /\ length ix = Nat.min (cells H1) (self_top_k self)
         /\ (forall i, In i ix ->
               (i < cells H1)%nat /\ (i < sH M1 * sW M1)%nat)
         /\ StronglySorted
              (fun i j => nth j (flat_reliability H1 b) 0
                          <= nth i (flat_reliability H1 b) 0) ix
         /\ (forall i j, In i ix -> (j < cells H1)%nat -> ~ In j ix ->
               nth j (flat_reliability H1 b) 0
               <= nth i (flat_reliability H1 b) 0).
Proof.
  unfold extractDenseFrontEnd. cbv zeta.
  set (rh := match rh1 with Some r => r | None => 1 end).
  set (rw := match rw1 with Some r => r | None => 1 end).
  fold (cells H1). set (top_k := self_top_k self).
  set (M1f := map (@concat _) (permute0231 0 M1)).
  set (H1f := map (fun m => concat (concat m)) (permute0231 0 H1)).
  set (xy1 := map (fun p => (fst p * 8, snd p * 8)%nat)
                  (create_xy (sH M1) (sW M1))).
  set (T := map (fun row => firstn (Nat.min (cells H1) top_k)
                                   (argsort (map Qopp row))) H1f).
  unfold bind.
  destruct (mapM _ (combine (seq 0 (length T)) T)) as [fe|] eqn:Ef;
    [|discriminate].
  destruct (mapM (mapM (nth_error xy1)) T) as [mk|] eqn:Emk; [|discriminate].
  intros E. injection E as <- <-.
  assert (LH : length H1f = sB H1).
  { unfold H1f, permute0231. now rewrite length_map, length_tab. }
  assert (LT : length T = sB H1) by (unfold T; now rewrite length_map).
  assert (Lxy : length xy1 = (sH M1 * sW M1)%nat).
  { unfold xy1. now rewrite length_map, length_create_xy. }
  destruct (mapM_nth_error _ _ Emk) as [Lmk Hmk].
  destruct (mapM_nth_error _ _ Ef) as [Lfe Hfe].
  rewrite length_combine, length_seq, Nat.min_id in Lfe.
  split; [now rewrite length_map, Lmk|]. split; [now rewrite Lfe|].
  intros b Hb.
  destruct (nth_error H1f b) as [row|] eqn:Erow;
    [|apply nth_error_None in Erow; lia].
  assert (Lrow : length row = cells H1).
  { apply nth_error_In in Erow. apply length_flat_H1 in Erow.
    exact Erow. }
  assert (Erel : flat_reliability H1 b = row).
  { unfold flat_reliability. fold H1f. now apply nth_error_nth. }
  set (ix := firstn (Nat.min (cells H1) top_k) (argsort (map Qopp row))).
  assert (ET : nth_error T b = Some ix).
  { unfold T. now rewrite nth_error_map, Erow. }
  destruct (topk_cells row (Nat.min (cells H1) top_k))
    as (Hnd & Hlen & Hrange & Hsorted & Htop).
  fold ix in Hnd, Hlen, Hrange, Hsorted, Htop.
  rewrite Lrow in Hlen, Hrange, Htop.
  (* keypoints *)
  destruct (nth_error mk b) as [kp0|] eqn:Ekp;
    [|apply nth_error_None in Ekp; lia].
  destruct (Hmk b kp0 Ekp) as (t & Et & Hkp0).
  rewrite ET in Et. injection Et as <-.
  destruct (mapM_nth_error_map (0, 0)%nat _ _ Hkp0) as [-> Hxy].
  rewrite Lxy in Hxy.
  (* descriptors *)
  destruct (nth_error fe b) as [g|] eqn:Eg;
    [|apply nth_error_None in Eg; lia].
  destruct (Hfe b g Eg) as ([b' t'] & Ebt & Hg).
  apply nth_error_combine in Ebt. destruct Ebt as [Eb' Et'].
  rewrite nth_error_seq in Eb'.
  destruct (b <? length T); [|discriminate]. injection Eb' as <-.
  rewrite ET in Et'. injection Et' as <-.
  cbn [fst snd] in Hg.
  destruct (nth_error M1f b) as [rows|] eqn:Erows; [|discriminate].
  destruct (mapM_descriptors _ _ Hg) as [-> Hrows].
  assert (HbM : (b < sB M1)%nat).
  { assert (b < length M1f)%nat by (apply nth_error_Some; congruence).
    unfold M1f, permute0231 in H. now rewrite length_map, length_tab in H. }
  assert (Erows' : rows
                   = concat (tab (sH M1) (fun i => tab (sW M1) (fun j =>
                       tab (sC M1) (fun c => get4 0 M1 b c i j))))).
  { unfold M1f, permute0231 in Erows. rewrite nth_error_map in Erows.
    rewrite (nth_error_nth' _ []) in Erows by now rewrite length_tab.
    rewrite nth_tab in Erows by exact HbM. cbn [option_map] in Erows.
    now injection Erows as <-. }
  exists ix. split; [|split].
  - rewrite nth_error_map, Ekp. cbn [option_map]. f_equal.
    rewrite map_map. apply map_ext_in. intros i Hi.
    unfold cell_keypoint, xy1.
    rewrite (nth_map_in _ _ (0, 0)%nat (0, 0)%nat)
      by (rewrite length_create_xy; now apply Hxy).
    rewrite nth_create_xy by now apply Hxy. reflexivity.
  - f_equal. apply map_ext_in. intros i Hi. unfold cell_descriptor.
    destruct (Hrows i Hi) as [Hi1 Hi2]. revert Hi1 Hi2. rewrite Erows'.
    intros Hi1 Hi2.
    assert (Hlt : (i < sH M1 * sW M1)%nat) by now apply Hxy.
    rewrite (@nth_grid _ [] (sH M1) (sW M1)
               (fun r c => tab (sC M1) (fun ch => get4 0 M1 b ch r c)) i Hlt)
      in Hi2 |- *.
    rewrite length_tab in Hi2. now apply firstn_tab.
  - rewrite Erel. split; [exact Hnd|]. split; [lia|].
    split; [|split; assumption].
    intros i Hi. split; [now apply Hrange | now apply Hxy].
Qed.

(** X13.  When [extractDense] returns, every image gets the
    [min(cells, top_k)] most reliable cells: pairwise distinct cell
    numbers, listed by non-increasing reliability, none of them less
    reliable than a cell that is left out.  The keypoint of cell number
    [i] is [(8 (i mod W) rw, 8 (i / W) rh)] and its descriptor is the
    first 64 channels of the descriptor map at row [i / W] and column
    [i mod W]. *)
Theorem extractDense_topk
        (x x' : Image) (rh rw : Q) (M1 K1 H1 : tensor4 Q) (top_k : nat)
        (mkpts : list (list (Q * Q))) (feats : list (list (list Q))) :
  preprocess x = Some (x', rh, rw) ->
  net x' = (M1, K1, H1) ->
  extract x top_k = Some (mkpts, feats) ->
  length mkpts = sB H1 /\ length feats = sB H1
  /\ forall b, (b < sB H1)%nat ->
       exists ix,
         nth_error mkpts b = Some (map (cell_keypoint (sW M1) rh rw) ix)
         /\ nth_error feats b = Some (map (cell_descriptor M1 b) ix)
         /\ NoDup ix
         /\ length ix = Nat.min (cells H1) top_k
         /\ (forall i, In i ix ->
               (i < cells H1)%nat /\ (i < sH M1 * sW M1)%nat)
         /\ StronglySorted
              (fun i j => nth j (flat_reliability H1 b) 0
                          <= nth i (flat_reliability H1 b) 0) ix
         /\ (forall i j, In i ix -> (j < cells H1)%nat -> ~ In j ix ->
               nth j (flat_reliability H1 b) 0
               <= nth i (flat_reliability H1 b) 0).
Proof.
  intros Hpre Hnet E. rewrite extractDense_factor, Hpre in E.
  cbn [bind fst snd] in E. rewrite Hnet in E. cbn [fst snd] in E.
  exact (dense_selection _ _ _ _ _ _ E).
Qed.





End DenseMore.

(** ** The shares of the two pyramid levels *)

Section SplitFacts.

Import Pipeline.

(** X16.  For every [top_k] up to the default 4096, the two shares
    [int(top_k * 0.20)] and [int(top_k * 0.80)] of [extract_dualscale],
    computed in binary64, add up to [top_k] or to [top_k - 1], and to
    [top_k] itself whenever [top_k] is a multiple of 5. *)
Theorem dualscale_split_bounds (top_k : nat) :
  top_k <= 4096 ->
  exists k1 k2,
    int_mul_float top_k f0_20 = Some k1
    /\ int_mul_float top_k f0_80 = Some k2
    /\ k1 + k2 <= top_k <= k1 + k2 + 1
    /\ (top_k mod 5 = 0 -> k1 + k2 = top_k).
Proof.
  intros Hk.
  set (check := fun n =>
         match int_mul_float n f0_20, int_mul_float n f0_80 with
         | Some a, Some b =>
             (a + b <=? n) && (n <=? a + b + 1)
             && ((a + b =? n) || negb (n mod 5 =? 0))
         | _, _ => false
         end).
  assert (Hall : forallb check (seq 0 4097) = true)
    by (vm_compute; reflexivity).
  rewrite forallb_forall in Hall.
  assert (Hin : In top_k (seq 0 4097)) by (apply in_seq; lia).
  specialize (Hall top_k Hin). unfold check in Hall.
  destruct (int_mul_float top_k f0_20) as [k1|]; [|discriminate].
  destruct (int_mul_float top_k f0_80) as [k2|]; [|discriminate].
  apply andb_prop in Hall. destruct Hall as [Hall H3].
  apply andb_prop in Hall. destruct Hall as [H1 H2].
  apply Nat.leb_le in H1, H2.
  exists k1, k2. repeat split; try assumption.
  intros Hm. apply orb_prop in H3. destruct H3 as [H3|H3].
  - now apply Nat.eqb_eq in H3.
  - apply negb_true_iff, Nat.eqb_neq in H3. contradiction.
Qed.

End SplitFacts.

(** ** Refiner: offsets, threshold and grouping *)

Section RefinerMore.

Import Decoder Refiner Star.
Local Open Scope R_scope.

Variable fine_matcher : list R -> list R.

Lemma Rsum_weighted_bounds (lo hi : R) :
  forall x w : list R,
    length x = length w ->
    (forall a, In a x -> lo <= a <= hi) ->
    (forall b, In b w -> 0 <= b) ->
    lo * Rsum w <= Rsum (map2 Rmult x w) <= hi * Rsum w.
Proof.
  induction x as [|a x IH]; intros [|b w] Hlen Hx Hw; try discriminate.
  - unfold map2, Rsum. simpl. lraR.
  - change (lo * (b + Rsum w) <= a * b + Rsum (map2 Rmult x w)
            <= hi * (b + Rsum w)).
    assert (Ha : lo <= a <= hi) by (apply Hx; now left).
    assert (Hb : 0 <= b) by (apply Hw; now left).
    destruct (IH w) as [I1 I2].
    + simpl in Hlen. lia.
    + intros a' Ha'. apply Hx. now right.
    + intros b' Hb'. apply Hw. now right.
    + pose proof (Rmult_le_compat_r b lo a Hb (proj1 Ha)).
      pose proof (Rmult_le_compat_r b a hi Hb (proj2 Ha)).
      lraR.
Qed.

Lemma softmaxR_nonneg (v : list R) (w : R) : In w (softmaxR v) -> 0 <= w.
Proof.
  unfold softmaxR. intros H. apply in_map_iff in H.
  destruct H as (x & <- & Hx).
  assert (Hv : v <> []) by (intros E; rewrite E in Hx; contradiction).
  apply Rlt_le, Rdiv_lt_0_compat; [apply exp_pos | now apply Rsum_exp_pos].
Qed.

Lemma length_grid {A : Type} (H W : nat) (f : nat -> nat -> A) :
  length (flat_map (fun i => map (f i) (seq 0 W)) (seq 0 H)) = (H * W)%nat.
Proof.
  generalize 0%nat at 2 as s.
  induction H as [|H IH]; intros s; simpl; [reflexivity|].
  now rewrite length_app, length_map, length_seq, IH.
Qed.

Lemma In_grid {A : Type} (H W : nat) (f : nat -> nat -> A) (a : A) :
  In a (flat_map (fun i => map (f i) (seq 0 W)) (seq 0 H)) ->
  exists i j, (i < H)%nat /\ (j < W)%nat /\ a = f i j.
Proof.
  intros Hin. apply in_flat_map in Hin. destruct Hin as (i & Hi & Ha).
  apply in_map_iff in Ha. destruct Ha as (j & <- & Hj).
  apply in_seq in Hi, Hj. exists i, j. repeat split; lia.
Qed.

(** The soft arg-max is a weighted mean of the grid coordinates, so it
    lies between the smallest and the largest of them. *)
Lemma subpix_softmax2d_range (H W : nat) (heatmap : list R) (temp : R) :
  length heatmap = (H * W)%nat -> (0 < H * W)%nat ->
  IZR (- Z.of_nat (W / 2)) <= fst (subpix_softmax2d H W heatmap temp)
    <= IZR (Z.of_nat H - 1 - Z.of_nat (W / 2))
  /\ IZR (- Z.of_nat (H / 2)) <= snd (subpix_softmax2d H W heatmap temp)
     <= IZR (Z.of_nat W - 1 - Z.of_nat (H / 2)).
Proof.
  intros Hlen Hpos. unfold subpix_softmax2d. cbn [fst snd].
  set (w := softmaxR (map (fun v => temp * v) heatmap)).
  assert (Lw : length w = (H * W)%nat)
    by (unfold w; now rewrite length_softmaxR, length_map).
  assert (Sw : Rsum w = 1).
  { apply Rsum_softmaxR. intros E. apply (f_equal (@length R)) in E.
    rewrite length_map, Hlen in E. simpl in E. lia. }
  assert (Pw : forall b, In b w -> 0 <= b) by (intros b; apply softmaxR_nonneg).
  split.
  - rewrite <- (Rmult_1_r (IZR (- Z.of_nat (W / 2)))).
    rewrite <- (Rmult_1_r (IZR (Z.of_nat H - 1 - Z.of_nat (W / 2)))).
    rewrite <- Sw. apply Rsum_weighted_bounds; [| |exact Pw].
    + now rewrite length_grid, Lw.
    + intros a Ha. apply In_grid in Ha. destruct Ha as (i & j & Hi & Hj & ->).
      split; apply IZR_le; lia.
  - rewrite <- (Rmult_1_r (IZR (- Z.of_nat (H / 2)))).
    rewrite <- (Rmult_1_r (IZR (Z.of_nat W - 1 - Z.of_nat (H / 2)))).
    rewrite <- Sw. apply Rsum_weighted_bounds; [| |exact Pw].
    + now rewrite length_grid, Lw.
    + intros a Ha. apply In_grid in Ha. destruct Ha as (i & j & Hi & Hj & ->).
      split; apply IZR_le; lia.
Qed.

(** X17.  The offset [subpix_softmax2d] returns is a weighted mean of
    the grid coordinates, so it lies between the smallest and the
    largest of them; on the 8x8 grids of [refine_matches] both
    components lie in [[-4, 3]]; and uniform logits give the offset
    [(-1/2, -1/2)]. *)
Theorem subpix_softmax2d_bounds :
  (forall (H W : nat) (heatmap : list R) (temp : R),
      length heatmap = (H * W)%nat -> (0 < H * W)%nat ->
      IZR (- Z.of_nat (W / 2)) <= fst (subpix_softmax2d H W heatmap temp)
        <= IZR (Z.of_nat H - 1 - Z.of_nat (W / 2))
      /\ IZR (- Z.of_nat (H / 2)) <= snd (subpix_softmax2d H W heatmap temp)
         <= IZR (Z.of_nat W - 1 - Z.of_nat (H / 2)))
  /\ (forall (heatmap : list R) (temp : R),
        length heatmap = 64%nat ->
        -4 <= fst (subpix_softmax2d 8 8 heatmap temp) <= 3
        /\ -4 <= snd (subpix_softmax2d 8 8 heatmap temp) <= 3)
  /\ (forall c temp : R,
        subpix_softmax2d 8 8 (repeat c 64) temp = (- (1 / 2), - (1 / 2))).
Proof.
  split; [exact subpix_softmax2d_range|]. split.
  - intros heatmap temp Hlen.
    destruct (@subpix_softmax2d_range 8 8 heatmap temp Hlen) as [Hx Hy];
      [simpl; lia|].
    change (IZR (- Z.of_nat (8 / 2))) with (-4) in Hx, Hy.
    change (IZR (Z.of_nat 8 - 1 - Z.of_nat (8 / 2))) with 3 in Hx, Hy.
    split; assumption.
  - intros c temp. unfold subpix_softmax2d.
    rewrite map_repeat, softmaxR_repeat by lia.
    assert (Hu : 1 / INR 64 = / 64).
    { rewrite INR_IZR_INZ. change (IZR (Z.of_nat 64)) with 64. lraR. }
    rewrite Hu. set (u := / 64) in *.
    assert (Hu' : 64 * u = 1) by (unfold u; lraR).
    clearbody u. unfold map2, Rsum. simpl. f_equal; lraR.
Qed.

Lemma refine_one_inv (d0 d1 : dense_features)
      (c : (nat * nat) * (nat * nat)) (cand : candidate) :
  refine_one fine_matcher d0 d1 c = Some cand ->
  exists p0 s,
    index2 (keypoints d0) (fst c) = Some p0
    /\ index2 (keypoints d1) (snd c) = Some (snd (c_match cand))
    /\ index2 (scales d0) (fst c) = Some s
    /\ c_batch cand = fst (fst c)
    /\ Rabs (fst (fst (c_match cand)) - fst p0) <= 4 * Rabs s
    /\ Rabs (snd (fst (c_match cand)) - snd p0) <= 4 * Rabs s.
Proof.
  unfold refine_one, bind.
  destruct (index2 (descriptors d0) (fst c)) as [f1|]; [|discriminate].
  destruct (index2 (descriptors d1) (snd c)) as [f2|]; [|discriminate].
  destruct (index2 (keypoints d0) (fst c)) as [p0|]; [|discriminate].
  destruct (index2 (keypoints d1) (snd c)) as [p1|]; [|discriminate].
  destruct (index2 (scales d0) (fst c)) as [s0|]; [|discriminate].
  destruct (Nat.eqb_spec (length (fine_matcher (f1 ++ f2))) 64) as [L|L];
    [|discriminate].
  destruct (@subpix_softmax2d_range 8 8 (fine_matcher (f1 ++ f2)) 3 L)
    as [Hx Hy]; [simpl; lia|].
  change (IZR (- Z.of_nat (8 / 2))) with (-4) in Hx, Hy.
  change (IZR (Z.of_nat 8 - 1 - Z.of_nat (8 / 2))) with 3 in Hx, Hy.
  set (off := subpix_softmax2d 8 8 (fine_matcher (f1 ++ f2)) 3) in *.
  clearbody off.
  intros E. injection E as <-. cbn [c_match c_batch fst snd].
  exists p0, s0. repeat (split; [reflexivity|]).
  split.
  - replace (fst p0 + fst off * s0 - fst p0) with (fst off * s0) by ring.
    rewrite Rabs_mult. apply Rmult_le_compat_r; [apply Rabs_pos|].
    apply Rabs_le. lraR.
  - replace (snd p0 + snd off * s0 - snd p0) with (snd off * s0) by ring.
    rewrite Rabs_mult. apply Rmult_le_compat_r; [apply Rabs_pos|].
    apply Rabs_le. lraR.
Qed.

Lemma length_filter_le {A : Type} (p : A -> bool) (l : list A) :
  (length (filter p l) <= length l)%nat.
Proof.
  induction l as [|x l IH]; simpl; [lia|]. destruct (p x); simpl; lia.
Qed.

(** X18.  When [refine_matches] returns, it returns one batch index per
    match and no more matches than coarse correspondences.  Every match
    comes from a coarse correspondence [(i0, i1)]: its batch index is
    that of [i0], its right keypoint is the keypoint at [i1] unchanged,
    and its left keypoint is the keypoint at [i0] moved by at most 4
    times the scale of [i0] in each coordinate. *)
Theorem refine_matches_displacement
        (d0 d1 : dense_features) (idx0_b idx1_b : list (nat * nat))
        (fine_conf : R) (match_mkpts : list ((R * R) * (R * R)))
        (batch_index : list nat) :
  refine_matches fine_matcher d0 d1 idx0_b idx1_b fine_conf
  = Some (match_mkpts, batch_index) ->
  length batch_index = length match_mkpts
  /\ (length match_mkpts <= length idx0_b)%nat
  /\ forall k m b,
       nth_error match_mkpts k = Some m ->
       nth_error batch_index k = Some b ->
       exists i0 i1 p0 s,
         In (i0, i1) (combine idx0_b idx1_b)
         /\ b = fst i0
         /\ index2 (keypoints d0) i0 = Some p0
         /\ index2 (keypoints d1) i1 = Some (snd m)
         /\ index2 (scales d0) i0 = Some s
         /\ Rabs (fst (fst m) - fst p0) <= 4 * Rabs s
         /\ Rabs (snd (fst m) - snd p0) <= 4 * Rabs s.
Proof.
  intros H. rewrite refine_matches_nf in H.
  destruct (length idx0_b =? length idx1_b)%nat; [|discriminate].
  destruct (mapM _ (combine idx0_b idx1_b)) as [cands|] eqn:Em;
    [|discriminate].
  injection H as <- <-.
  set (good := filter (fun c => Rgtb (c_conf c) fine_conf) cands).
  split; [now rewrite !length_map|]. split.
  - rewrite length_map.
    apply Nat.le_trans with (length cands); [apply length_filter_le|].
    rewrite (mapM_length _ _ Em), length_combine. lia.
  - intros k m b Hm Hb. rewrite nth_error_map in Hm, Hb.
    destruct (nth_error good k) as [c|] eqn:Ec; [|discriminate].
    cbn [option_map] in Hm, Hb. injection Hm as <-. injection Hb as <-.
    apply nth_error_In in Ec. apply filter_In in Ec. destruct Ec as [Ec _].
    destruct (@mapM_In _ _ _ _ _ _ Em Ec) as ([i0 i1] & Hin & Hrc).
    destruct (refine_one_inv _ _ _ Hrc) as (p0 & s & K0 & K1 & K2 & K3 & K4 & K5).
    exists i0, i1, p0, s. cbn [fst snd] in *.
    repeat split; assumption.
Qed.





End RefinerMore.

Section RefinerThreshold.

Import Decoder Refiner.
Local Open Scope R_scope.

Variable fine_matcher : list R -> list R.

Lemma Rgtb_antitone (c1 c2 x : R) :
  c1 <= c2 -> Rgtb x c2 = true -> Rgtb x c1 = true.
Proof.
  intros Hc H. apply Rgtb_true in H. apply Rgtb_true. lraR.
Qed.

(** X19.  Raising the confidence threshold of [refine_matches] only
    removes matches: when it returns with threshold [c1] and
    [c1 <= c2], it returns with [c2] as well, every match it then
    returns, with its batch index, is among those returned with [c1],
    and there are no more of them. *)
Theorem refine_matches_threshold_monotone
        (d0 d1 : dense_features) (idx0_b idx1_b : list (nat * nat))
        (c1 c2 : R) (match_mkpts : list ((R * R) * (R * R)))
        (batch_index : list nat) :
  c1 <= c2 ->
  refine_matches fine_matcher d0 d1 idx0_b idx1_b c1
  = Some (match_mkpts, batch_index) ->
  exists match_mkpts' batch_index',
    refine_matches fine_matcher d0 d1 idx0_b idx1_b c2
    = Some (match_mkpts', batch_index')
    /\ incl (combine match_mkpts' batch_index')
            (combine match_mkpts batch_index)
    /\ (length match_mkpts' <= length match_mkpts)%nat.
Proof.
  intros Hc H. rewrite refine_matches_nf in *.
  destruct (length idx0_b =? length idx1_b)%nat; [|discriminate].
  destruct (mapM _ (combine idx0_b idx1_b)) as [cands|]; [|discriminate].
  injection H as <- <-. cbn [option_map]. unfold emitted.
  eexists. eexists. split; [reflexivity|].
  rewrite !combine_map_same, !length_map.
  destruct (@filter_incl_length _ (fun c => Rgtb (c_conf c) c1)
              (fun c => Rgtb (c_conf c) c2) cands) as [Hincl Hlen].
  { intros c. now apply Rgtb_antitone. }
  split; [now apply incl_map | exact Hlen].
Qed.

End RefinerThreshold.

Section StarFacts.

Import Decoder Refiner Star.
Local Open Scope R_scope.

Variable fine_matcher : list R -> list R.





End StarFacts.

(** ** Front-end variants, tracking and [forward] *)

Section VariantFacts.

Import Matcher Decoder Selector Pipeline Variants.
Local Open Scope Q_scope.

Variable Image : Type.
Variable shape : Image -> nat * nat * nat * nat.
Variable interpolate_size : Image -> nat -> nat -> Image.
Variable parse_input : Image -> Image.
Variable net : Image -> tensor4 Q * tensor4 Q * tensor4 Q.
Variable normalize_dim1 : tensor4 Q -> tensor4 Q.
Variable normalize : list Q -> list Q.
Variable softmax_scaled : Q -> list Q -> list Q.
Variable sample1 : mode -> tensor4 Q -> nat -> nat -> nat -> nat * nat -> Q.
Variable sampleC :
  mode -> tensor4 Q -> nat -> nat -> nat -> nat * nat -> list Q.

Local Abbreviation preprocess := (preprocess_tensor shape interpolate_size).
Local Abbreviation detect :=
  (detectAndCompute shape interpolate_size net normalize_dim1 normalize
                    softmax_scaled sample1 sampleC).
Local Abbreviation match_xfeat' :=
  (match_xfeat shape interpolate_size parse_input net normalize_dim1
               normalize softmax_scaled sample1 sampleC).
Local Abbreviation forward' :=
  (forward shape interpolate_size parse_input net normalize_dim1
           normalize softmax_scaled sample1 sampleC).
Local Abbreviation front_end :=
  (detectAndComputeFrontEnd normalize_dim1 normalize softmax_scaled sample1
                            sampleC).
Local Abbreviation match_fe :=
  (match_xfeat_fe normalize_dim1 normalize softmax_scaled sample1 sampleC).
Local Abbreviation track :=
  (track_keypoints_xfeat_fe shape interpolate_size net normalize_dim1
                            normalize softmax_scaled sample1 sampleC).
Local Abbreviation result_of := (image_result normalize sample1 sampleC).

Lemma filter_map_comm {A B : Type} (f : A -> B) (p : B -> bool) (l : list A) :
  filter p (map f l) = map f (filter (fun x => p (f x)) l).
Proof.
  induction l as [|x l IH]; simpl; [reflexivity|].
  destruct (p (f x)); simpl; now rewrite IH.
Qed.

(** [np.delete] keeps the rows whose index is not listed. *)
Lemma py_delete_as_map {A : Type} (d : A) (x : list A) (idxs : list nat) :
  py_delete x idxs
  = map (fun i => nth i x d)
        (filter (fun i => negb (existsb (Nat.eqb i) idxs))
                (seq 0 (length x))).
Proof.
  unfold py_delete.
  assert (E : combine (seq 0 (length x)) x
              = map (fun i => (i, nth i x d)) (seq 0 (length x))).
  { rewrite (list_as_tab d x) at 2.
    rewrite <- (map_id (seq 0 (length x))) at 1. apply combine_map_same. }
  rewrite E, filter_map_comm, map_map. reflexivity.
Qed.

(** The selected and the deleted rows together are all the rows. *)
Lemma gather_delete_perm {A : Type} (d : A) (x : list A) (idxs : list nat) :
  NoDup idxs -> (forall i, In i idxs -> (i < length x)%nat) ->
  Permutation (gather d x idxs ++ py_delete x idxs) x.
Proof.
  intros Hnd Hr. rewrite (py_delete_as_map d). unfold gather.
  rewrite <- map_app.
  apply Permutation_trans
    with (map (fun i => nth i x d) (seq 0 (length x)));
    [|now rewrite <- list_as_tab].
  apply Permutation_map. apply NoDup_Permutation.
  - apply NoDup_app; [exact Hnd | apply NoDup_filter, seq_NoDup|].
    intros i Hi Hf. apply filter_In in Hf. destruct Hf as [_ Hf].
    apply negb_true_iff in Hf.
    assert (Ht : existsb (Nat.eqb i) idxs = true).
    { apply existsb_exists. exists i. split; [exact Hi | apply Nat.eqb_refl]. }
    congruence.
  - apply seq_NoDup.
  - intros i. rewrite in_app_iff, filter_In, in_seq. split.
    + intros [Hi|[Hi _]]; [specialize (Hr i Hi); lia | exact Hi].
    + intros Hi. destruct (existsb (Nat.eqb i) idxs) eqn:E.
      * left. apply existsb_exists in E. destruct E as (j & Hj & Ej).
        apply Nat.eqb_eq in Ej. now subst j.
      * right. now split.
Qed.

(** What [match] guarantees about the index tensors it returns. *)
Lemma match_indices (feats1 feats2 : tensor2) (t : option Q)
      (idx0 idx1 : list nat) :
  match_call feats1 feats2 t = Some (idx0, idx1) ->
  length idx0 = length idx1
  /\ NoDup idx0 /\ NoDup idx1
  /\ (forall i, In i idx0 -> (i < rows2 feats1)%nat)
  /\ (forall j, In j idx1 -> (j < rows2 feats2)%nat).
Proof.
  unfold match_call. intros Hm. rewrite match_nf in Hm.
  destruct (match_ok feats1 feats2) eqn:Hok; [|discriminate].
  destruct (match_ok_shapes _ _ Hok) as (L1 & L2 & Hb).
  injection Hm as <- <-.
  destruct (@mnn_one_to_one (data2 feats1) (data2 feats2)
              (match t with Some t0 => t0 | None => 95 # 100 end) Hb)
    as (Hs & Hn & H0 & H1).
  rewrite L1 in H0. rewrite L2 in H1. rewrite Forall_forall in H0, H1.
  split; [now rewrite length_map|].
  split; [now apply sorted_lt_NoDup|]. repeat split; assumption.
Qed.

Lemma detect_lengths (self : XFeat) (x : Image)
      (res : list (list (Q * Q * Q) * list (list Q)))
      (b : nat) (kps : list (Q * Q * Q)) (descs : list (list Q)) :
  detect self x = Some res -> nth_error res b = Some (kps, descs) ->
  length descs = length kps.
Proof.
  intros H Hr.
  destruct (detectAndCompute_image _ _ _ _ _ _ _ _ _ _ H)
    as (fr & _ & _ & Hk).
  destruct (Hk b _ Hr) as (cand & _ & E). unfold image_result in E.
  injection E as -> ->. now rewrite !length_map.
Qed.

(** X21.  When [match_xfeat] returns, the matched keypoints of the two
    images are equally many, and for each image the matched keypoints
    together with the remaining ones it returns are the keypoints
    [detectAndCompute] found in the image, each exactly once.
    [forward] returns the same as [match_xfeat] without a threshold. *)
Theorem match_xfeat_partition
        (self : XFeat) (img1 img2 : Image) (min_cossim : option Q)
        (m0 m1 u0 u1 : list (Q * Q * Q)) :
  match_xfeat' self img1 img2 min_cossim = Some (m0, m1, u0, u1) ->
  exists r1 r2 kps1 descs1 kps2 descs2,
    detect self (parse_input img1) = Some r1
    /\ nth_error r1 0 = Some (kps1, descs1)
    /\ detect self (parse_input img2) = Some r2
    /\ nth_error r2 0 = Some (kps2, descs2)
    /\ length m0 = length m1
    /\ Permutation (m0 ++ u0) kps1
    /\ Permutation (m1 ++ u1) kps2
    /\ (min_cossim = None ->
        forward' self img1 img2 = Some (m0, m1, u0, u1)).
Proof.
  intros Hm.
  assert (Hf : min_cossim = None ->
               forward' self img1 img2 = Some (m0, m1, u0, u1)).
  { intros E. unfold forward. now rewrite <- E. }
  revert Hm. unfold match_xfeat, bind.
  destruct (detect self (parse_input img1)) as [r1|] eqn:D1; [|discriminate].
  destruct (nth_error r1 0) as [[kps1 descs1]|] eqn:R1; [|discriminate].
  destruct (detect self (parse_input img2)) as [r2|] eqn:D2; [|discriminate].
  destruct (nth_error r2 0) as [[kps2 descs2]|] eqn:R2; [|discriminate].
  cbn [fst snd].
  destruct (match_call _ _ _) as [[idxs0 idxs1]|] eqn:Em; [|discriminate].
  intros E. injection E as <- <- <- <-.
  destruct (match_indices _ _ _ Em) as (Hl & N0 & N1 & B0 & B1).
  cbn [rows2 as_tensor2] in B0, B1.
  rewrite (detect_lengths _ _ _ D1 R1) in B0.
  rewrite (detect_lengths _ _ _ D2 R2) in B1.
  exists r1, r2, kps1, descs1, kps2, descs2.
  repeat (split; [first [reflexivity | assumption]|]).
  split; [unfold gather; now rewrite !length_map|].
  split; [now apply gather_delete_perm|].
  split; [now apply gather_delete_perm | exact Hf].
Qed.

(** [detectAndComputeFrontEnd] computes the positive-score entries among
    the selected candidates of the first image only. *)
Lemma front_end_nf (self : XFeat) (data : list (String.string * tensor4 Q))
      (rh1 rw1 : option Q) (_H1 _W1 : option nat) :
  front_end self data rh1 rw1 _H1 _W1
  = (M1 <- Dict.get Dict.key_M1 data ;;
     K1 <- Dict.get Dict.key_K1 data ;;
     H1 <- Dict.get Dict.key_H1 data ;;
     K1h <- get_kpts_heatmap 0 softmax_scaled K1 1 ;;
     mkpts <- NMS K1h (5 # 100) 5 ;;
     cand <- nth_error mkpts 0 ;;
     Some [result_of (self_top_k self)
             (mkFront 1
                (match _H1 with Some h => h | None => 640%nat end)
                (match _W1 with Some w => w | None => 640%nat end)
                (match rh1 with Some r => r | None => 1 end)
                (match rw1 with Some r => r | None => 1 end)
                (normalize_dim1 M1) K1h H1 mkpts)
             0 cand]).
Proof.
  unfold detectAndComputeFrontEnd, bind.
  destruct (Dict.get Dict.key_M1 data) as [M1|]; [|reflexivity].
  destruct (Dict.get Dict.key_K1 data) as [K1|]; [|reflexivity].
  destruct (Dict.get Dict.key_H1 data) as [H1|]; [|reflexivity].
  destruct (get_kpts_heatmap 0 softmax_scaled K1 1) as [K1h|]; [|reflexivity].
  destruct (NMS K1h (5 # 100) 5) as [mkpts|]; [|reflexivity].
  set (H := match _H1 with Some h => h | None => 640%nat end).
  set (W := match _W1 with Some w => w | None => 640%nat end).
  set (rh := match rh1 with Some r => r | None => 1 end).
  set (rw := match rw1 with Some r => r | None => 1 end).
  set (fr := mkFront 1 H W rh rw (normalize_dim1 M1) K1h H1 mkpts).
  change K1h with (f_K1h fr) at 1. change H1 with (f_H1 fr) at 1.
  change H with (f_H fr) at 1 2. change W with (f_W fr) at 1 2.
  destruct (select_topk (self_top_k self) mkpts _) as [mk' sc'] eqn:Es.
  destruct (nth_error_select_topk sample1 (self_top_k self) fr mkpts 0)
    as [E1 E2].
  rewrite Es in E1, E2. cbn [fst snd] in E1, E2.
  cbn [seq mapM]. unfold bind.
  rewrite nth_error_map2, !nth_error_map, nth_error_mapi, E1, E2.
  destruct (nth_error mkpts 0) as [cand|]; cbn [option_map]; [|reflexivity].
  f_equal. f_equal. unfold image_result.
  set (E := selected sample1 (self_top_k self) fr 0 cand).
  rewrite !map_map, map2_map_same, !mask_select_map_same.
  reflexivity.
Qed.

Lemma mapM_seq_head {B : Type} (f : nat -> option B) (n : nat)
      (res : list B) :
  mapM f (seq 0 (S n)) = Some res -> exists y, f 0%nat = Some y /\ firstn 1 res = [y].
Proof.
  cbn [seq mapM]. unfold bind. destruct (f 0%nat) as [y|]; [|discriminate].
  destruct (mapM f (seq 1 n)) as [ys|]; [|discriminate].
  intros E. injection E as <-. now exists y.
Qed.

(** Whenever it returns, the front-end detector returns the features of
    exactly one image. *)
Lemma front_end_single (self : XFeat)
      (data : list (String.string * tensor4 Q))
      (rh1 rw1 : option Q) (_H1 _W1 : option nat)
      (res : list (list (Q * Q * Q) * list (list Q))) :
  front_end self data rh1 rw1 _H1 _W1 = Some res ->
  exists kps descs,
    res = [(kps, descs)]
    /\ length descs = length kps
    /\ (length kps <= self_top_k self)%nat
    /\ Forall (fun k => 0 < snd k) kps.
Proof.
  rewrite front_end_nf. unfold bind.
  destruct (Dict.get Dict.key_M1 data) as [M1|]; [|discriminate].
  destruct (Dict.get Dict.key_K1 data) as [K1|]; [|discriminate].
  destruct (Dict.get Dict.key_H1 data) as [H1|]; [|discriminate].
  destruct (get_kpts_heatmap 0 softmax_scaled K1 1) as [K1h|];
    [|discriminate].
  destruct (NMS K1h (5 # 100) 5) as [mkpts|]; [|discriminate].
  destruct (nth_error mkpts 0) as [cand|]; [|discriminate].
  intros E. injection E as <-. unfold image_result.
  eexists. eexists. split; [reflexivity|].
  split; [now rewrite !length_map|]. split.
  - rewrite length_map. eapply Nat.le_trans; [apply length_filter_le|].
    unfold selected. apply firstn_le_length.
  - apply Forall_forall. intros k Hk. apply in_map_iff in Hk.
    destruct Hk as (e & <- & He). apply filter_In in He.
    destruct He as [_ Hpos]. now apply Qgtb_true in Hpos.
Qed.

(** X22.  [detectAndComputeFrontEnd] raises when the data lack one of
    the keys [M1], [K1], [H1].  When it returns, it returns the features
    of exactly one image: at most [top_k] keypoints, all with a positive
    score, and as many descriptors.  Given the backbone outputs, the
    ratios and the size that [detectAndCompute] works with on a
    non-empty batch, it returns the result of [detectAndCompute] for the
    first image. *)
Theorem detectAndComputeFrontEnd_first_image :
  (forall self data rh1 rw1 _H1 _W1,
      Dict.get Dict.key_M1 data = None \/ Dict.get Dict.key_K1 data = None
      \/ Dict.get Dict.key_H1 data = None ->
      front_end self data rh1 rw1 _H1 _W1 = None)
  /\ (forall self data rh1 rw1 _H1 _W1 res,
        front_end self data rh1 rw1 _H1 _W1 = Some res ->
        exists kps descs,
          res = [(kps, descs)]
          /\ length descs = length kps
          /\ (length kps <= self_top_k self)%nat
          /\ Forall (fun k => 0 < snd k) kps)
  /\ (forall self x x' rh rw B C H W M1 K1 H1 data res,
        preprocess x = Some (x', rh, rw) ->
        shape x' = (B, C, H, W) ->
        net x' = (M1, K1, H1) ->
        Dict.get Dict.key_M1 data = Some M1 ->
        Dict.get Dict.key_K1 data = Some K1 ->
        Dict.get Dict.key_H1 data = Some H1 ->
        detect self x = Some res ->
        (1 <= B)%nat ->
        front_end self data (Some rh) (Some rw) (Some H) (Some W)
        = Some (firstn 1 res)).
Proof.
  split; [|split].
  - intros self data rh1 rw1 _H1 _W1 Hmiss. rewrite front_end_nf.
    unfold bind. destruct Hmiss as [E|[E|E]]; rewrite E.
    + reflexivity.
    + now destruct (Dict.get Dict.key_M1 data).
    + destruct (Dict.get Dict.key_M1 data); [|reflexivity].
      now destruct (Dict.get Dict.key_K1 data).
  - intros self data rh1 rw1 _H1 _W1 res. apply front_end_single.
  - intros self x x' rh rw B C H W M1 K1 H1 data res
           Hpre Hs Hnet G1 G2 G3 Hd HB.
    rewrite front_end_nf, G1, G2, G3. cbn [bind].
    rewrite detectAndCompute_nf in Hd. unfold front_of in Hd.
    rewrite Hpre in Hd. cbn [bind] in Hd. rewrite Hs, Hnet in Hd.
    destruct (get_kpts_heatmap 0 softmax_scaled K1 1) as [K1h|];
      [|discriminate]. cbn [bind] in Hd |- *.
    destruct (NMS K1h (5 # 100) 5) as [mkpts|]; [|discriminate].
    cbn [bind f_B f_mkpts] in Hd |- *.
    destruct B as [|B']; [lia|].
    apply mapM_seq_head in Hd. destruct Hd as (y & Hy & ->).
    destruct (nth_error mkpts 0) as [cand|]; [|discriminate].
    cbn [bind] in Hy |- *. injection Hy as <-. reflexivity.
Qed.

(** X23.  When [match_xfeat_fe] returns, its last two results are all
    the keypoints [detectAndComputeFrontEnd] finds in the two data, and
    its first two results are the rows of those at the indices [match]
    returns: equally many, without repetition, all in range. *)
Theorem match_xfeat_fe_outputs
        (self : XFeat) (data1 data2 : list (String.string * tensor4 Q))
        (min_cossim : option Q) (m0 m1 all0 all1 : list (Q * Q * Q)) :
  match_fe self data1 data2 min_cossim = Some (m0, m1, all0, all1) ->
  exists descs0 descs1 idxs0 idxs1,
    front_end self data1 None None None None = Some [(all0, descs0)]
    /\ front_end self data2 None None None None = Some [(all1, descs1)]
    /\ match_ (as_tensor2 descs0) (as_tensor2 descs1)
              (match min_cossim with Some t => t | None => - (1) end)
       = Some (idxs0, idxs1)
    /\ length idxs0 = length idxs1
    /\ NoDup idxs0 /\ NoDup idxs1
    /\ (forall i, In i idxs0 -> (i < length all0)%nat)
    /\ (forall j, In j idxs1 -> (j < length all1)%nat)
    /\ m0 = map (fun i => nth i all0 (0, 0, 0)) idxs0
    /\ m1 = map (fun j => nth j all1 (0, 0, 0)) idxs1.
Proof.
  unfold match_xfeat_fe. unfold bind at 1.
  destruct (front_end self data1 None None None None) as [r1|] eqn:D1;
    [|discriminate].
  destruct (front_end_single _ _ _ _ _ _ D1) as (kps1 & descs1 & -> & L1 & _).
  cbn [nth_error bind]. unfold bind at 1.
  destruct (front_end self data2 None None None None) as [r2|] eqn:D2;
    [|discriminate].
  destruct (front_end_single _ _ _ _ _ _ D2) as (kps2 & descs2 & -> & L2 & _).
  cbn [nth_error bind fst snd]. unfold bind.
  destruct (match_call _ _ _) as [[idxs0 idxs1]|] eqn:Em; [|discriminate].
  intros E. injection E as <- <- <- <-.
  destruct (match_indices _ _ _ Em) as (Hl & N0 & N1 & B0 & B1).
  cbn [rows2 as_tensor2] in B0, B1. rewrite L1 in B0. rewrite L2 in B1.
  exists descs1, descs2, idxs0, idxs1.
  repeat (split; [first [reflexivity | assumption]|]). reflexivity.
Qed.

Lemma np_delete_some {A : Type} (x : list A) (idxs : list nat) (r : list A) :
  np_delete x idxs = Some r -> r = py_delete x idxs.
Proof.
  unfold np_delete. destruct (forallb _ idxs); [|discriminate].
  now intros E; injection E as <-.
Qed.

(** X24.  When [track_keypoints_xfeat_fe] returns, the matched
    keypoints of the previous frame together with its remaining ones are
    the keypoints of the previous frame, each exactly once, and the same
    holds for the keypoints [detectAndCompute] finds in the new image. *)
Theorem track_keypoints_partition
        (self : XFeat) (kps0 : list (Q * Q * Q)) (descs0 : list (list Q))
        (data2 : Image) (min_cossim : option Q)
        (m0 m1 u0 u1 : list (Q * Q * Q)) :
  track self (kps0, descs0) data2 min_cossim = Some (m0, m1, u0, u1) ->
  exists r2 kps2 descs2,
    detect self data2 = Some r2
    /\ nth_error r2 0 = Some (kps2, descs2)
    /\ length m0 = length m1
    /\ Permutation (m0 ++ u0) kps0
    /\ Permutation (m1 ++ u1) kps2.
Proof.
  unfold track_keypoints_xfeat_fe, bind. cbn [fst snd].
  destruct (detect self data2) as [r2|] eqn:D2; [|discriminate].
  destruct (nth_error r2 0) as [[kps2 descs2]|] eqn:R2; [|discriminate].
  cbn [fst snd].
  destruct (match_call _ _ _) as [[idxs0 idxs1]|] eqn:Em; [|discriminate].
  destruct (index_rows kps0 idxs0) as [g0|] eqn:G0; [|discriminate].
  destruct (index_rows kps2 idxs1) as [g1|] eqn:G1; [|discriminate].
  destruct (np_delete kps0 idxs0) as [d0|] eqn:E0; [|discriminate].
  destruct (np_delete kps2 idxs1) as [d1|] eqn:E1; [|discriminate].
  intros E. injection E as <- <- <- <-.
  destruct (match_indices _ _ _ Em) as (Hl & N0 & N1 & _ & _).
  destruct (mapM_nth_error_map (0, 0, 0) _ _ G0) as [-> R0].
  destruct (mapM_nth_error_map (0, 0, 0) _ _ G1) as [-> R1].
  apply np_delete_some in E0, E1. subst d0 d1.
  exists r2, kps2, descs2.
  split; [reflexivity|]. split; [exact R2|].
  split; [now rewrite !length_map|].
  split; now apply (gather_delete_perm (0, 0, 0)).
Qed.

End VariantFacts.

(** ** [parse_input] *)

Section InputFacts.

Import Input.
Local Open Scope Q_scope.

(** X25.  [parse_input] returns a torch tensor.  A NumPy array must
    have three or four dimensions: an array [(H, W, C)] becomes the
    tensor [(1, C, H, W)] and an array [(B, H, W, C)] the tensor
    [(B, C, H, W)], with every entry divided by 255.  A torch tensor
    [(C, H, W)] gets a leading batch axis, any other torch tensor is
    returned as it is.  On inputs of three or four dimensions the result
    has four, and parsing it again changes nothing. *)
Theorem parse_input_layout (x y : array) :
  parse_input x = Some y ->
  a_kind y = tensor
  /\ (a_kind x = ndarray ->
      (length (a_shape x) = 3 \/ length (a_shape x) = 4)%nat)
  /\ (forall h w c,
        a_kind x = ndarray -> a_shape x = [h; w; c] ->
        a_shape y = [1%nat; c; h; w]
        /\ forall ic ih iw,
             a_at y [0%nat; ic; ih; iw] = a_at x [ih; iw; ic] / 255)
  /\ (forall b h w c,
        a_kind x = ndarray -> a_shape x = [b; h; w; c] ->
        a_shape y = [b; c; h; w]
        /\ forall ib ic ih iw,
             a_at y [ib; ic; ih; iw] = a_at x [ib; ih; iw; ic] / 255)
  /\ (forall c h w,
        a_kind x = tensor -> a_shape x = [c; h; w] ->
        a_shape y = [1%nat; c; h; w]
        /\ forall ic ih iw, a_at y [0%nat; ic; ih; iw] = a_at x [ic; ih; iw])
  /\ (a_kind x = tensor -> length (a_shape x) <> 3%nat -> y = x)
  /\ ((length (a_shape x) = 3 \/ length (a_shape x) = 4)%nat ->
      length (a_shape y) = 4%nat /\ parse_input y = Some y).
Proof.
  destruct x as [k sh at_]. unfold parse_input. cbn [a_kind a_shape a_at].
  intros H.
  assert (Hk : a_kind y = tensor).
  { destruct (length sh =? 3)%nat, k; cbn in H.
    - unfold to_channels_first in H. cbn in H.
      destruct sh as [|? [|? [|? [|? ?]]]]; try discriminate H.
      now injection H as <-.
    - now injection H as <-.
    - unfold to_channels_first in H. cbn in H.
      destruct sh as [|? [|? [|? [|? [|? ?]]]]]; try discriminate H.
      now injection H as <-.
    - now injection H as <-. }
  split; [exact Hk|]. split; [|split; [|split; [|split; [|split]]]].
  - intros ->. destruct sh as [|? [|? [|? [|? [|? ?]]]]]; cbn in *;
      try discriminate H; auto.
  - intros h w c -> ->. cbn in H. injection H as <-. cbn.
    split; reflexivity.
  - intros b h w c -> ->. cbn in H. injection H as <-. cbn.
    split; reflexivity.
  - intros c h w -> ->. cbn in H. injection H as <-. cbn.
    split; reflexivity.
  - intros -> Hn. apply Nat.eqb_neq in Hn. rewrite Hn in H. cbn in H.
    now injection H as <-.
  - intros Hr.
    assert (L4 : length (a_shape y) = 4%nat).
    { destruct Hr as [Hr|Hr].
      - destruct sh as [|? [|? [|? [|? ?]]]]; try discriminate Hr.
        destruct k; cbn in H; injection H as <-; reflexivity.
      - destruct sh as [|? [|? [|? [|? [|? ?]]]]]; try discriminate Hr.
        destruct k; cbn in H; injection H as <-; reflexivity. }
    split; [exact L4|]. rewrite L4. cbn. rewrite Hk. reflexivity.
Qed.

End InputFacts.

(** ** The matcher on concrete descriptor sets *)

Section MatcherMoreExamples.

Import Matcher Reference.
Local Open Scope Q_scope.

(** X1, on an empty first descriptor set. *)
Lemma match_raises_iff_witness :
  match_ (mk2 0 2 []) (mk2 1 2 [[1; 0]]) (95 # 100) = None.
Proof.
  apply (proj2 (@match_raises_iff (mk2 0 2 []) (mk2 1 2 [[1; 0]])
                  (95 # 100) eq_refl eq_refl)).
  left. reflexivity.
Defined.

(** X2, on three descriptors against two. *)
Lemma match_one_to_one_witness :
  let feats1 := mk2 3 2 [[1; 0]; [0; 1]; [3 # 5; 4 # 5]] in
  let feats2 := mk2 2 2 [[0; 1]; [1; 0]] in
  match_ feats1 feats2 (- (1)) = Some ([0; 1], [1; 0])%nat
  /\ StronglySorted lt [0; 1]%nat /\ NoDup [1; 0]%nat
  /\ (length [0; 1]%nat <= Nat.min 3 2)%nat.
Proof.
  intros feats1 feats2. split; [reflexivity|].
  destruct (@match_one_to_one feats1 feats2 (- (1)) [0; 1]%nat [1; 0]%nat
              eq_refl) as (_ & Hs & Hn & _ & _ & Hl).
  split; [exact Hs|]. split; [exact Hn | exact Hl].
Defined.

(** X3, on the same pair of sets. *)
Lemma match_symmetric_witness :
  let feats1 := mk2 3 2 [[1; 0]; [0; 1]; [3 # 5; 4 # 5]] in
  let feats2 := mk2 2 2 [[0; 1]; [1; 0]] in
  exists idx0' idx1',
    match_ feats2 feats1 (- (1)) = Some (idx0', idx1')
    /\ Permutation (combine idx0' idx1') [(1, 0); (0, 1)]%nat.
Proof.
  intros feats1 feats2.
  exact (@match_symmetric feats1 feats2 (- (1)) [0; 1]%nat [1; 0]%nat
           eq_refl).
Defined.

(** X5, with threshold -1/2 on two opposite descriptors: the pair of
    similarity -1 is returned. *)
Lemma nonpositive_threshold_ignored_witness :
  let feats1 := mk2 1 2 [[1; 0]] in
  let feats2 := mk2 1 2 [[- (1); 0]] in
  match_ feats1 feats2 (- (1 # 2)) = Some ([0], [0])%nat
  /\ cossim_at (data2 feats1) (data2 feats2) 0 0 == - (1)
  /\ match_ feats1 feats2 (- (1 # 2)) = match_ feats1 feats2 (- (1)).
Proof.
  intros feats1 feats2. split; [reflexivity|]. split; [reflexivity|].
  assert (Ht : - (1 # 2) <= 0) by (vm_compute; discriminate).
  exact (proj1 (@nonpositive_threshold_ignored (- (1 # 2)) Ht) feats1 feats2).
Defined.

(** X4, on a batch of two pairs of sets. *)
Lemma batch_match_per_image_witness :
  let feats1 := mk3 2 2 2 [[[1; 0]; [0; 1]]; [[1; 0]; [0; 1]]] in
  let feats2 := mk3 2 2 2 [[[1; 0]; [0; 1]]; [[0; 1]; [1; 0]]] in
  exists per : list (list nat * list nat),
    length per = 2%nat
    /\ (forall b r, nth_error per b = Some r ->
          match_ (select0 feats1 b) (select0 feats2 b) (- (1)) = Some r)
    /\ [(0, 0); (0, 1); (1, 0); (1, 1)]%nat
       = concat (mapi (fun b r => map (pair b) (fst r)) per)
    /\ [(0, 0); (0, 1); (1, 1); (1, 0)]%nat
       = concat (mapi (fun b r => map (pair b) (snd r)) per).
Proof.
  intros feats1 feats2.
  exact (@batch_match_per_image feats1 feats2 (- (1))
           [(0, 0); (0, 1); (1, 0); (1, 1)]%nat
           [(0, 0); (0, 1); (1, 1); (1, 0)]%nat eq_refl).
Defined.

End MatcherMoreExamples.

(** ** The selector, the decoder and preprocessing on concrete inputs *)

Section SelectorExamples.

Import Decoder Selector Pipeline Demo Examples.
Local Open Scope Q_scope.

(** X6, on two 2x2 maps with kernel 1: the first has a peak at the
    origin pixel, the second is padded with [(0, 0)]. *)
Lemma NMS_detections_witness :
  let x := mk4 2 1 2 2 [[[[3 # 4; 0]; [0; 1 # 2]]];
                        [[[0; 0]; [0; 1 # 2]]]] in
  NMS x (5 # 100) 1 = Some [[(0, 0); (1, 1)]; [(1, 1); (0, 0)]]%nat
  /\ exists n,
      Forall (fun row => length row = n)
             [[(0, 0); (1, 1)]; [(1, 1); (0, 0)]]%nat.
Proof.
  intros x. split; [reflexivity|].
  destruct (@NMS_detections x (5 # 100) 1
              [[(0, 0); (1, 1)]; [(1, 1); (0, 0)]]%nat eq_refl eq_refl)
    as (n & dets & _ & _ & _ & _ & Hrect).
  exists n. exact Hrect.
Defined.

(** X7, on a 100x70 image. *)
Lemma preprocess_tensor_ratios_witness :
  preprocess_tensor im_shape resize odd_image
  = Some (resize odd_image 96 64, 100 # 96, 70 # 64)
  /\ 1 <= 100 # 96 /\ 100 # 96 < 2
  /\ (100 # 96) * inject_Z 96 == inject_Z 100.
Proof.
  split; [reflexivity|].
  destruct (proj2 (@preprocess_tensor_ratios image im_shape resize odd_image
                     1 1 100 70 eq_refl)
              (resize odd_image 96 64) (100 # 96) (70 # 64) eq_refl)
    as (_ & _ & _ & H1 & H2 & _ & _ & H3 & _).
  split; [exact H1|]. split; [exact H2 | exact H3].
Defined.

(** X8, on a 16x16 image. *)
Lemma small_image_raises_witness :
  detect (XFeat_init None) small_image = None
  /\ dense small_image 10 = None
  /\ dense_features_of (XFeat_init None) small_image false = None.
Proof.
  apply (@small_image_raises image im_shape resize rescale backbone
           (fun t => t) (fun v => v) (fun _ v => v) sample_one sample_vec
           (XFeat_init None) small_image 1 1 16 16 10 eq_refl).
  left. lia.
Defined.

End SelectorExamples.

Section DecoderMoreExamples.

Import Decoder.
Local Open Scope R_scope.

(** X11, on a one-cell logit map with 65 zero logits. *)
Lemma heatmap_extra_channels_witness :
  exists heat,
    get_kpts_heatmap_R (mk4 1 65 1 1 [repeat [[0]] 65]) = Some heat
    /\ sH heat = 8%nat /\ sW heat = 8%nat
    /\ 0 < block_sum heat 0 0 0 < 1.
Proof.
  assert (HC : (64 <= sC (mk4 1 65 1 1 [repeat [[0]] 65]))%nat)
    by (simpl; lia).
  destruct (proj2 (@heatmap_extra_channels (mk4 1 65 1 1 [repeat [[0]] 65]))
              HC)
    as (heat & Hh & HB & HC1 & HH & HW & Hpix).
  exists heat. split; [exact Hh|]. split; [exact HH|]. split; [exact HW|].
  destruct (Hpix 0%nat 0%nat 0%nat) as (_ & _ & Hlt); try (simpl; lia).
  apply Hlt. simpl. lia.
Defined.

End DecoderMoreExamples.

(** ** The pipelines on the concrete instance *)

Section PipelineMoreExamples.

Import Matcher Decoder Selector Pipeline Reference Variants Demo Examples.
Local Open Scope Q_scope.

(** X9, on the batch of two images. *)
Lemma detectAndCompute_scores_sorted_witness :
  let kps := [(320 # 32, 640 # 32, 1 # 2); (640 # 32, 288 # 32, 1 # 4)] in
  Forall (fun k : Q * Q * Q => 0 < snd k) kps
  /\ StronglySorted (fun k k' : Q * Q * Q => snd k' <= snd k) kps.
Proof.
  assert (H1 : detect (XFeat_init None) two_images
               = Some [([(320 # 32, 640 # 32, 1 # 2);
                         (640 # 32, 288 # 32, 1 # 4)],
                        [[10; 20]; [20; 9]]);
                       ([(160 # 32, 160 # 32, 1 # 3)], [[5; 5]])])
    by (vm_compute; reflexivity).
  intros kps.
  destruct (@detectAndCompute_scores_sorted
              image im_shape resize backbone (fun t => t) (fun v => v)
              (fun _ v => v) sample_one sample_vec
              (XFeat_init None) two_images
              [([(320 # 32, 640 # 32, 1 # 2); (640 # 32, 288 # 32, 1 # 4)],
                [[10; 20]; [20; 9]]);
               ([(160 # 32, 160 # 32, 1 # 3)], [[5; 5]])]
              0%nat
              [(320 # 32, 640 # 32, 1 # 2); (640 # 32, 288 # 32, 1 # 4)]
              [[10; 20]; [20; 9]] H1 eq_refl) as (Hp & Hs & _).
  split; [exact Hp | exact Hs].
Defined.

(** X10, on the same batch: the keypoint at pixel (10, 20) of a 32x32
    image. *)
Lemma detectAndCompute_keypoints_in_image_witness :
  0 <= 320 # 32 /\ 320 # 32 < inject_Z 32
  /\ 0 <= 640 # 32 /\ 640 # 32 < inject_Z 32.
Proof.
  assert (H1 : detect (XFeat_init None) two_images
               = Some [([(320 # 32, 640 # 32, 1 # 2);
                         (640 # 32, 288 # 32, 1 # 4)],
                        [[10; 20]; [20; 9]]);
                       ([(160 # 32, 160 # 32, 1 # 3)], [[5; 5]])])
    by (vm_compute; reflexivity).
  assert (HN : backbone (resize two_images 32 32)
               = (fst (fst (backbone (resize two_images 32 32))),
                  snd (fst (backbone (resize two_images 32 32))),
                  snd (backbone (resize two_images 32 32))))
    by reflexivity.
  apply (@detectAndCompute_keypoints_in_image
           image im_shape resize backbone (fun t => t) (fun v => v)
           (fun _ v => v) sample_one sample_vec
           (XFeat_init None) two_images (resize two_images 32 32)
           2 1 32 32 (32 # 32) (32 # 32)
           (fst (fst (backbone (resize two_images 32 32))))
           (snd (fst (backbone (resize two_images 32 32))))
           (snd (backbone (resize two_images 32 32)))
           [([(320 # 32, 640 # 32, 1 # 2); (640 # 32, 288 # 32, 1 # 4)],
             [[10; 20]; [20; 9]]);
            ([(160 # 32, 160 # 32, 1 # 3)], [[5; 5]])]
           0%nat
           [(320 # 32, 640 # 32, 1 # 2); (640 # 32, 288 # 32, 1 # 4)]
           [[10; 20]; [20; 9]] (320 # 32) (640 # 32) (1 # 2)
           eq_refl eq_refl HN eq_refl eq_refl H1 eq_refl).
  left. reflexivity.
Defined.

(** X12, on a grid of two rows and three columns. *)
Lemma create_xy_layout_witness :
  length (create_xy 2 3) = 6%nat
  /\ nth_error (create_xy 2 3) 4 = Some (1, 1)%nat.
Proof.
  destruct (create_xy_layout 2 3) as (Hl & Hn & _).
  split; [exact Hl|]. apply (Hn 1%nat 1%nat); lia.
Defined.

(** X13, on the 96x128 image with [top_k = 5]. *)
Lemma extractDense_topk_witness :
  exists mkpts feats ix,
    dense large_image 5 = Some (mkpts, feats)
    /\ length mkpts = 1%nat
    /\ nth_error mkpts 0
       = Some (map (cell_keypoint 16 (96 # 96) (128 # 128)) ix)
    /\ NoDup ix /\ length ix = 5%nat.
Proof.
  assert (HN : backbone (resize large_image 96 128)
               = (fst (fst (backbone (resize large_image 96 128))),
                  snd (fst (backbone (resize large_image 96 128))),
                  snd (backbone (resize large_image 96 128))))
    by reflexivity.
  destruct (@extractDense_spec
              image im_shape resize backbone large_image
              (resize large_image 96 128) (96 # 96) (128 # 128)
              _ _ _ 5%nat eq_refl HN)
    as (mkpts & feats & E & _); try (simpl; lia).
  destruct (@extractDense_topk
              image im_shape resize backbone large_image
              (resize large_image 96 128) (96 # 96) (128 # 128)
              _ _ _ 5%nat mkpts feats eq_refl HN E)
    as (Lm & _ & Hb).
  destruct (Hb 0%nat) as (ix & Hk & _ & Hnd & Hlen & _); [simpl; lia|].
  exists mkpts, feats, ix. split; [exact E|]. split; [exact Lm|].
  split; [exact Hk|]. split; [exact Hnd | exact Hlen].
Defined.


(** X16, at the default [top_k]. *)
Lemma dualscale_split_bounds_witness :
  exists k1 k2,
    int_mul_float 4096 f0_20 = Some k1
    /\ int_mul_float 4096 f0_80 = Some k2
    /\ (k1 + k2 <= 4096 <= k1 + k2 + 1)%nat
    /\ ((4096 mod 5 = 0)%nat -> (k1 + k2 = 4096)%nat).
Proof.
  apply (@dualscale_split_bounds 4096). apply Nat.le_refl.
Defined.


(** X21, on the first image of the batch against the one-peak image. *)
Lemma match_xfeat_partition_witness :
  let k1 := (320 # 32, 640 # 32, 1 # 2) in
  let k2 := (640 # 32, 288 # 32, 1 # 4) in
  let k3 := (160 # 32, 160 # 32, 1 # 3) in
  match_images (XFeat_init None) two_images one_peak None
  = Some ([k1], [k3], [k2], [])
  /\ exists r1 kps1 descs1,
      detect (XFeat_init None) two_images = Some r1
      /\ nth_error r1 0 = Some (kps1, descs1)
      /\ Permutation ([k1] ++ [k2]) kps1.
Proof.
  intros k1 k2 k3.
  assert (H : match_images (XFeat_init None) two_images one_peak None
              = Some ([k1], [k3], [k2], []))
    by (vm_compute; reflexivity).
  split; [exact H|].
  destruct (@match_xfeat_partition
              image im_shape resize (fun x => x) backbone (fun t => t)
              (fun v => v) (fun _ v => v) sample_one sample_vec
              (XFeat_init None) two_images one_peak None
              [k1] [k3] [k2] [] H)
    as (r1 & r2 & kps1 & descs1 & kps2 & descs2 & D1 & R1 & _ & _ & _ & P1 & _).
  exists r1, kps1, descs1. split; [exact D1|]. split; [exact R1 | exact P1].
Defined.

(** X22, on the backbone outputs of the batch of two images: only the
    first image's features come back. *)
Lemma detectAndComputeFrontEnd_first_image_witness :
  front_end (XFeat_init None) (data_of (resize two_images 32 32))
            (Some (32 # 32)) (Some (32 # 32)) (Some 32%nat) (Some 32%nat)
  = Some [([(320 # 32, 640 # 32, 1 # 2); (640 # 32, 288 # 32, 1 # 4)],
           [[10; 20]; [20; 9]])].
Proof.
  assert (H1 : detect (XFeat_init None) two_images
               = Some [([(320 # 32, 640 # 32, 1 # 2);
                         (640 # 32, 288 # 32, 1 # 4)],
                        [[10; 20]; [20; 9]]);
                       ([(160 # 32, 160 # 32, 1 # 3)], [[5; 5]])])
    by (vm_compute; reflexivity).
  assert (HN : backbone (resize two_images 32 32)
               = (fst (fst (backbone (resize two_images 32 32))),
                  snd (fst (backbone (resize two_images 32 32))),
                  snd (backbone (resize two_images 32 32))))
    by reflexivity.
  apply (proj2 (proj2 (@detectAndComputeFrontEnd_first_image
                         image im_shape resize backbone (fun t => t)
                         (fun v => v) (fun _ v => v) sample_one sample_vec))
           (XFeat_init None) two_images (resize two_images 32 32)
           (32 # 32) (32 # 32) 2%nat 1%nat 32%nat 32%nat
           _ _ _ (data_of (resize two_images 32 32))
           [([(320 # 32, 640 # 32, 1 # 2); (640 # 32, 288 # 32, 1 # 4)],
             [[10; 20]; [20; 9]]);
            ([(160 # 32, 160 # 32, 1 # 3)], [[5; 5]])]
           eq_refl eq_refl HN eq_refl eq_refl eq_refl H1).
  lia.
Defined.

(** X23, on the backbone outputs of the same two images. *)
Lemma match_xfeat_fe_outputs_witness :
  let all0 := [(10, 20, 1 # 2); (20, 9, 1 # 4)] in
  let all1 := [(5, 5, 1 # 3)] in
  match_fe (XFeat_init None) (data_of (resize two_images 32 32))
           (data_of one_peak) None
  = Some ([(10, 20, 1 # 2)], [(5, 5, 1 # 3)], all0, all1)
  /\ exists idxs0 idxs1,
      NoDup idxs0 /\ NoDup idxs1
      /\ [(10, 20, 1 # 2)] = map (fun i => nth i all0 (0, 0, 0)) idxs0
      /\ [(5, 5, 1 # 3)] = map (fun j => nth j all1 (0, 0, 0)) idxs1.
Proof.
  intros all0 all1.
  assert (H : match_fe (XFeat_init None) (data_of (resize two_images 32 32))
                       (data_of one_peak) None
              = Some ([(10, 20, 1 # 2)], [(5, 5, 1 # 3)], all0, all1))
    by (vm_compute; reflexivity).
  split; [exact H|].
  destruct (@match_xfeat_fe_outputs
              (fun t => t) (fun v => v) (fun _ v => v) sample_one sample_vec
              (XFeat_init None) (data_of (resize two_images 32 32))
              (data_of one_peak) None
              [(10, 20, 1 # 2)] [(5, 5, 1 # 3)] all0 all1 H)
    as (d0 & d1 & idxs0 & idxs1 & _ & _ & _ & _ & N0 & N1 & _ & _ & E0 & E1).
  exists idxs0, idxs1. repeat split; assumption.
Defined.

(** X24, tracking the features of the first image into the one-peak
    image. *)
Lemma track_keypoints_partition_witness :
  let k1 := (320 # 32, 640 # 32, 1 # 2) in
  let k2 := (640 # 32, 288 # 32, 1 # 4) in
  let k3 := (160 # 32, 160 # 32, 1 # 3) in
  track (XFeat_init None) ([k1; k2], [[10; 20]; [20; 9]]) one_peak None
  = Some ([k1], [k3], [k2], [])
  /\ Permutation ([k1] ++ [k2]) [k1; k2].
Proof.
  intros k1 k2 k3.
  assert (H : track (XFeat_init None) ([k1; k2], [[10; 20]; [20; 9]])
                    one_peak None
              = Some ([k1], [k3], [k2], []))
    by (vm_compute; reflexivity).
  split; [exact H|].
  destruct (@track_keypoints_partition
              image im_shape resize backbone (fun t => t) (fun v => v)
              (fun _ v => v) sample_one sample_vec
              (XFeat_init None) [k1; k2] [[10; 20]; [20; 9]] one_peak None
              [k1] [k3] [k2] [] H)
    as (r2 & kps2 & descs2 & _ & _ & _ & P0 & _).
  exact P0.
Defined.

End PipelineMoreExamples.

(** ** The refiner on the concrete instance *)

Section RefinerMoreExamples.

Import Refiner Star Examples.
Local Open Scope R_scope.

(** The single coarse match of the two one-keypoint images is refined
    with confidence 1/64. *)
Lemma refine_flat (fine_conf : R) :
  exists cand,
    c_conf cand = 1 / 64
    /\ refine_matches flat_matcher dense_left dense_right
                      [(0, 0)%nat] [(0, 0)%nat] fine_conf
       = Some (emitted fine_conf [cand]).
Proof.
  destruct (@refine_one_uniform flat_matcher dense_left dense_right
              ((0, 0)%nat, (0, 0)%nat)) as (cand & Ec & Econf).
  - intros v. now exists 0.
  - unfold in_range, index2. simpl. repeat split; discriminate.
  - exists cand. split; [exact Econf|].
    rewrite refine_matches_nf. cbn [length Nat.eqb combine mapM].
    unfold bind. rewrite Ec. reflexivity.
Qed.

(** X17, on 64 zero logits. *)
Lemma subpix_softmax2d_bounds_witness :
  -4 <= fst (subpix_softmax2d 8 8 (repeat 0 64) 3) <= 3
  /\ subpix_softmax2d 8 8 (repeat 0 64) 3 = (- (1 / 2), - (1 / 2)).
Proof.
  destruct subpix_softmax2d_bounds as (_ & Hb & Hu).
  split; [|apply Hu].
  destruct (Hb (repeat 0 64) 3) as [Hx _]; [reflexivity | exact Hx].
Defined.

(** X18, with threshold 0: the coarse match is emitted. *)
Lemma refine_matches_displacement_witness :
  exists mm bi,
    refine_matches flat_matcher dense_left dense_right
                   [(0, 0)%nat] [(0, 0)%nat] 0
    = Some (mm, bi)
    /\ length bi = length mm /\ (length mm <= 1)%nat.
Proof.
  destruct (refine_flat 0) as (cand & Econf & E).
  destruct (emitted 0 [cand]) as [mm bi].
  destruct (@refine_matches_displacement flat_matcher _ _ _ _ _ _ _ E)
    as (H1 & H2 & _).
  exists mm, bi. split; [exact E|]. split; [exact H1 | exact H2].
Defined.

(** X19, raising the threshold from 0 to 0.25. *)
Lemma refine_matches_threshold_monotone_witness :
  exists mm bi mm' bi',
    refine_matches flat_matcher dense_left dense_right
                   [(0, 0)%nat] [(0, 0)%nat] 0
    = Some (mm, bi)
    /\ refine_matches flat_matcher dense_left dense_right
                      [(0, 0)%nat] [(0, 0)%nat] (25 / 100)
       = Some (mm', bi')
    /\ (length mm' <= length mm)%nat.
Proof.
  destruct (refine_flat 0) as (cand & _ & E).
  destruct (emitted 0 [cand]) as [mm bi].
  assert (Hc : 0 <= 25 / 100) by lraR.
  destruct (@refine_matches_threshold_monotone flat_matcher _ _ _ _ 0
              (25 / 100) mm bi Hc E) as (mm' & bi' & E' & _ & Hl).
  exists mm, bi, mm', bi'. split; [exact E|]. split; [exact E' | exact Hl].
Defined.


End RefinerMoreExamples.

Section InputExamples.

Import Input.
Local Open Scope Q_scope.

(** X25, on a 2x3 grey-level NumPy image with all entries 255. *)
Lemma parse_input_layout_witness :
  exists y,
    parse_input (mkArray ndarray [2; 3; 1]%nat (fun _ => 255)) = Some y
    /\ a_kind y = tensor
    /\ a_shape y = [1; 1; 2; 3]%nat
    /\ a_at y [0; 0; 1; 2]%nat == 1
    /\ parse_input y = Some y.
Proof.
  eexists. split; [reflexivity|].
  destruct (@parse_input_layout
              (mkArray ndarray [2; 3; 1]%nat (fun _ => 255)) _ eq_refl)
    as (Hk & _ & H3 & _ & _ & _ & Hi).
  split; [exact Hk|].
  destruct (H3 2%nat 3%nat 1%nat eq_refl eq_refl) as [Hs _].
  split; [exact Hs|]. split; [reflexivity|].
  apply Hi. left. reflexivity.
Defined.

End InputExamples.
